(** * List stores of the web admin: filters, pagination, debounce, supersession

    A shallow embedding of the Alpine.js list stores (stocks list, ingestion
    runs list, bulk-queue runs list), of the query-parameter builder of the API
    client, and of the helpers they call.  JavaScript objects used as maps are
    [gmap]s, strings are [string]s read as sequences of code units below 256,
    [null] is [None], and an [async] function is split at its [await] into the
    part that runs when it is called and the part that runs when the awaited
    promise settles. *)

From Stdlib Require Import ZArith Lia Bool List Ascii String.
From stdpp Require Import gmap strings list fin_maps.
Import ListNotations.

Local Open Scope string_scope.

(** ** JavaScript strings *)

Module JS.

(** [String.prototype.trim] strips WhiteSpace and LineTerminator code units;
    below 256 these are TAB, LF, VT, FF, CR, SP and NBSP. *)
Definition is_whitespace (c : ascii) : bool :=
  let n := nat_of_ascii c in
  Nat.eqb n 9 || Nat.eqb n 10 || Nat.eqb n 11 || Nat.eqb n 12
  || Nat.eqb n 13 || Nat.eqb n 32 || Nat.eqb n 160.

Definition is_empty (s : string) : bool :=
  match s with EmptyString => true | String _ _ => false end.

Fixpoint trimStart (s : string) : string :=
  match s with
  | EmptyString => EmptyString
  | String c s' => if is_whitespace c then trimStart s' else s
  end.

Fixpoint trimEnd (s : string) : string :=
  match s with
  | EmptyString => EmptyString
  | String c s' =>
      let t := trimEnd s' in
      if is_whitespace c && is_empty t then EmptyString else String c t
  end.

Definition trim (s : string) : string := trimEnd (trimStart s).

(** A string is truthy when it is not empty. *)
Definition truthy (s : string) : bool := negb (is_empty s).

(** [x ? ... : ...] and [if (x)] on a value that is [null] or a string. *)
Definition truthy_opt (o : option string) : bool :=
  match o with Some s => truthy s | None => false end.

Definition is_digit (c : ascii) : bool :=
  let n := nat_of_ascii c in Nat.leb 48 n && Nat.leb n 57.

(** Lower case of a code unit below 256: A-Z, and the capital letters of
    Latin-1 (192-222 but for the multiplication sign 215). *)
Definition lower (c : ascii) : ascii :=
  let n := nat_of_ascii c in
  if (Nat.leb 65 n && Nat.leb n 90)
     || (Nat.leb 192 n && Nat.leb n 222 && negb (Nat.eqb n 215))
  then ascii_of_nat (n + 32) else c.

Fixpoint toLowerCase (s : string) : string :=
  match s with
  | EmptyString => EmptyString
  | String c s' => String (lower c) (toLowerCase s')
  end.

(** An [Error] object: the two properties the stores read. *)
Record Error := mkError { name : string; message : string }.

(** The result of evaluating code that may throw. *)
Inductive completion (A : Type) : Type :=
| Normal (a : A)
| Throw (e : Error).
Arguments Normal {A} a.
Arguments Throw {A} e.

(** [try { body } catch (error) { handler(error) }] *)
Definition try_catch {A} (body : completion A) (handler : Error -> completion A)
  : completion A :=
  match body with
  | Normal a => Normal a
  | Throw e => handler e
  end.

Definition bind {A B} (c : completion A) (k : A -> completion B) : completion B :=
  match c with
  | Normal a => k a
  | Throw e => Throw e
  end.

End JS.

Notation "'let!' x ':=' c 'in' k" := (JS.bind c (fun x => k))
  (at level 10, x name, c at level 100, k at level 200).

(** ** The browser and page the stores run in *)

(** What the stores take from their surroundings: the [URL] constructor (the
    query pairs of the parsed reference, or the [TypeError] it throws), whether
    the API store has been registered with [Alpine.store], and the offset of
    local time from UTC in minutes (east positive). *)
Record Host := mkHost {
  URL : string -> JS.completion (list (string * string));
  apiRegistered : bool;
  utcOffset : Z
}.

(** [URLSearchParams.prototype.get]: the first value under [key], else [null]. *)
Fixpoint searchParams_get (key : string) (params : list (string * string))
  : option string :=
  match params with
  | [] => None
  | (k, v) :: rest => if String.eqb k key then Some v else searchParams_get key rest
  end.

(** [extractCursor(url)]: the [console.error] of the handler has no effect on
    the store and is left out. *)
Definition extractCursor (h : Host) (url : string) : JS.completion (option string) :=
  JS.try_catch
    (let! urlObj := URL h url in
     JS.Normal (searchParams_get "cursor" urlObj))
    (fun _error => JS.Normal None).

(** ** Filters and their transport representation *)

(** A value of the [activeFilters] object handed to the API client. *)
Inductive TransportValue : Type :=
| TString (s : string)
| TBool (b : bool).

(** [String(value)] as [URLSearchParams.append] applies it. *)
Definition toString (v : TransportValue) : string :=
  match v with
  | TString s => s
  | TBool true => "true"
  | TBool false => "false"
  end.

(** The string branch shared by every store:
    [if (value && value.trim() !== '') activeFilters[key] = value.trim()]. *)
Definition string_filter (value : string) : option TransportValue :=
  if JS.truthy value && negb (JS.is_empty (JS.trim value))
  then Some (TString (JS.trim value))
  else None.

(** The boolean branch of the runs stores: kept when [value !== ''], and
    [value.toLowerCase() === 'true'] for a string value. *)
Definition boolean_filter (value : string) : option TransportValue :=
  if negb (JS.is_empty value)
  then Some (TBool (String.eqb (JS.toLowerCase value) "true"))
  else None.

(** [/^\d{4}-\d{2}-\d{2}$/.test(s)] *)
Definition isDateOnly (s : string) : bool :=
  match list_ascii_of_string s with
  | [y1; y2; y3; y4; d1; m1; m2; d2; a1; a2] =>
      JS.is_digit y1 && JS.is_digit y2 && JS.is_digit y3 && JS.is_digit y4
      && Ascii.eqb d1 "-" && JS.is_digit m1 && JS.is_digit m2
      && Ascii.eqb d2 "-" && JS.is_digit a1 && JS.is_digit a2
  | _ => false
  end.

(** The date branch of [loadRuns] in the runs list store: the trimmed value
    with [T00:00:00Z] appended when it has the date-picker format. *)
Definition date_filter_startOfDay (value : string) : option TransportValue :=
  if JS.truthy value && negb (JS.is_empty (JS.trim value))
  then
    let dateValue := JS.trim value in
    if isDateOnly dateValue
    then Some (TString (dateValue ++ "T00:00:00Z"))
    else None
  else None.

(** [loadStocks]: every key of the stocks list store is a string filter. *)
Definition stocks_activeFilters (filters : gmap string string)
  : gmap string TransportValue :=
  omap string_filter filters.

Definition is_runs_boolean_key (key : string) : bool :=
  String.eqb key "is_terminal" || String.eqb key "is_in_progress".

Definition is_runs_date_key (key : string) : bool :=
  String.eqb key "created_after" || String.eqb key "created_before".

(** [loadRuns] of the runs list store (services/src/js/stores/ingestion_runs). *)
Definition runs_activeFilters (filters : gmap string string)
  : gmap string TransportValue :=
  map_imap
    (fun key value =>
       if is_runs_boolean_key key then boolean_filter value
       else if is_runs_date_key key then date_filter_startOfDay value
       else string_filter value)
    filters.

(** ** The API client: [buildQueryParams] *)

(** Decimal digits of a number, as [URLSearchParams.append] writes it. *)
Fixpoint digits (fuel n : nat) (acc : string) : string :=
  match fuel with
  | O => acc
  | S fuel' =>
      let acc' := String (ascii_of_nat (48 + n mod 10)) acc in
      if Nat.eqb (n / 10) 0 then acc' else digits fuel' (n / 10) acc'
  end.

Definition number_toString (n : nat) : string := digits (S n) n "".

Definition append_string_filter (filters : gmap string TransportValue)
    (key : string) : list (string * string) :=
  match filters !! key with
  | Some (TString "") => []
  | Some value => [(key, toString value)]
  | None => []
  end.

Definition append_boolean_filter (filters : gmap string TransportValue)
    (key : string) : list (string * string) :=
  match filters !! key with
  | Some value => [(key, toString value)]
  | None => []
  end.

(** [buildQueryParams(pageSize, cursor, filters, stringFilterKeys,
    booleanFilterKeys)]: the entries of the [URLSearchParams] it returns, in
    the order they are appended. *)
Definition buildQueryParams (pageSize : nat) (cursor : option string)
    (filters : gmap string TransportValue)
    (stringFilterKeys booleanFilterKeys : list string) : list (string * string) :=
  (if Nat.eqb pageSize 0 then [] else [("page_size", number_toString pageSize)])
  ++ (match cursor with
      | Some c => if JS.truthy c then [("cursor", c)] else []
      | None => []
      end)
  ++ flat_map (append_string_filter filters) stringFilterKeys
  ++ flat_map (append_boolean_filter filters) booleanFilterKeys.

(** The key lists [listTickers] and [listRuns] pass. *)
Definition tickers_stringFilterKeys : list string :=
  ["ticker"; "ticker__icontains"; "sector"; "sector__icontains";
   "exchange__name"; "country"].

Definition runs_stringFilterKeys : list string :=
  ["ticker"; "ticker__icontains"; "state"; "requested_by";
   "requested_by__icontains"; "created_after"; "created_before"; "run_id";
   "bulk_queue_run"].

Definition runs_booleanFilterKeys : list string :=
  ["is_terminal"; "is_in_progress"].

(** ** The store object and the event loop around it *)

(** A row of the list (a ticker, a run): opaque to the stores. *)
Definition Item : Type := string.

(** The page the API client returns: [results], [next] and [previous]. *)
Record Response := mkResponse {
  results : option (list Item);
  next : option string;
  previous : option string
}.

(** How the promise awaited by a load settles. *)
Inductive Outcome : Type :=
| Fulfilled (response : Response)
| Rejected (error : JS.Error).

(** The properties of the store object ([this]).  [items] is [stocks], [runs]
    or [bulkQueueRuns]; a store written without debounce or request tracking
    leaves [_debounceTimers] empty and [_currentRequestController] null.  An
    AbortController is named by the number under which it was allocated, a
    timer by the id [setTimeout] returned. *)
Record Store := mkStore {
  items : list Item;
  loading : bool;
  error : option string;
  nextCursor : option string;
  previousCursor : option string;
  pageSize : nat;
  filters : gmap string string;
  _debounceTimers : gmap string (option nat);
  debounceDelay : nat;
  _currentRequestController : option nat
}.

Definition set_items (v : list Item) (s : Store) : Store :=
  mkStore v (loading s) (error s) (nextCursor s) (previousCursor s) (pageSize s)
    (filters s) (_debounceTimers s) (debounceDelay s) (_currentRequestController s).
Definition set_loading (v : bool) (s : Store) : Store :=
  mkStore (items s) v (error s) (nextCursor s) (previousCursor s) (pageSize s)
    (filters s) (_debounceTimers s) (debounceDelay s) (_currentRequestController s).
Definition set_error (v : option string) (s : Store) : Store :=
  mkStore (items s) (loading s) v (nextCursor s) (previousCursor s) (pageSize s)
    (filters s) (_debounceTimers s) (debounceDelay s) (_currentRequestController s).
Definition set_nextCursor (v : option string) (s : Store) : Store :=
  mkStore (items s) (loading s) (error s) v (previousCursor s) (pageSize s)
    (filters s) (_debounceTimers s) (debounceDelay s) (_currentRequestController s).
Definition set_previousCursor (v : option string) (s : Store) : Store :=
  mkStore (items s) (loading s) (error s) (nextCursor s) v (pageSize s)
    (filters s) (_debounceTimers s) (debounceDelay s) (_currentRequestController s).
Definition set_filters (v : gmap string string) (s : Store) : Store :=
  mkStore (items s) (loading s) (error s) (nextCursor s) (previousCursor s) (pageSize s)
    v (_debounceTimers s) (debounceDelay s) (_currentRequestController s).
Definition set__debounceTimers (v : gmap string (option nat)) (s : Store) : Store :=
  mkStore (items s) (loading s) (error s) (nextCursor s) (previousCursor s) (pageSize s)
    (filters s) v (debounceDelay s) (_currentRequestController s).
Definition set__currentRequestController (v : option nat) (s : Store) : Store :=
  mkStore (items s) (loading s) (error s) (nextCursor s) (previousCursor s) (pageSize s)
    (filters s) (_debounceTimers s) (debounceDelay s) v.

(** One call of the API client's list method, with the store as it was at the
    moment of the call. *)
Record Fetch := mkFetch {
  f_pageSize : nat;
  f_cursor : option string;
  f_filters : gmap string TransportValue;
  f_store : Store
}.

(** A callback queued by [setTimeout]: the debounce callback of [filterKey]. *)
Record Timeout := mkTimeout {
  timerId : nat;
  due : nat;
  filterKey : string
}.

(** The store together with what its code shares with the page: the
    AbortControllers allocated so far and those aborted, the loads suspended at
    their [await], the calls made to the API client (newest first), the clock
    in milliseconds and the timer queue. *)
Record World := mkWorld {
  store : Store;
  aborted : gset nat;
  controllers : nat;
  inflight : list nat;
  fetches : list Fetch;
  now : nat;
  timeouts : list Timeout;
  timerIds : nat
}.

Definition with_store (v : Store) (w : World) : World :=
  mkWorld v (aborted w) (controllers w) (inflight w) (fetches w) (now w)
    (timeouts w) (timerIds w).
Definition with_aborted (v : gset nat) (w : World) : World :=
  mkWorld (store w) v (controllers w) (inflight w) (fetches w) (now w)
    (timeouts w) (timerIds w).
Definition with_controllers (v : nat) (w : World) : World :=
  mkWorld (store w) (aborted w) v (inflight w) (fetches w) (now w)
    (timeouts w) (timerIds w).
Definition with_inflight (v : list nat) (w : World) : World :=
  mkWorld (store w) (aborted w) (controllers w) v (fetches w) (now w)
    (timeouts w) (timerIds w).
Definition with_fetches (v : list Fetch) (w : World) : World :=
  mkWorld (store w) (aborted w) (controllers w) (inflight w) v (now w)
    (timeouts w) (timerIds w).
Definition with_now (v : nat) (w : World) : World :=
  mkWorld (store w) (aborted w) (controllers w) (inflight w) (fetches w) v
    (timeouts w) (timerIds w).
Definition with_timeouts (v : list Timeout) (w : World) : World :=
  mkWorld (store w) (aborted w) (controllers w) (inflight w) (fetches w) (now w)
    v (timerIds w).
Definition with_timerIds (v : nat) (w : World) : World :=
  mkWorld (store w) (aborted w) (controllers w) (inflight w) (fetches w) (now w)
    (timeouts w) v.

(** *** Statements that read and write the world and may throw *)

Definition Act (A : Type) : Type := World -> JS.completion A * World.

Definition ret {A} (a : A) : Act A := fun w => (JS.Normal a, w).

Definition throw {A} (e : JS.Error) : Act A := fun w => (JS.Throw e, w).

Definition lift {A} (c : JS.completion A) : Act A := fun w => (c, w).

Definition read {A} (f : World -> A) : Act A := fun w => (JS.Normal (f w), w).

Definition assign (f : Store -> Store) : Act unit :=
  fun w => (JS.Normal tt, with_store (f (store w)) w).

Definition andThen {A B} (m : Act A) (k : A -> Act B) : Act B :=
  fun w =>
    match m w with
    | (JS.Normal a, w') => k a w'
    | (JS.Throw e, w') => (JS.Throw e, w')
    end.

Notation "'do!' x ':=' m 'in' k" := (andThen m (fun x => k))
  (at level 10, x name, m at level 100, k at level 200).
Notation "m ;; k" := (andThen m (fun _ => k))
  (at level 100, k at level 200, right associativity).

(** [try { body } catch (error) { handler }] *)
Definition tryCatch {A} (body : Act A) (handler : JS.Error -> Act A) : Act A :=
  fun w =>
    match body w with
    | (JS.Normal a, w') => (JS.Normal a, w')
    | (JS.Throw e, w') => handler e w'
    end.

(** [try { body } finally { cleanup }]: the cleanup runs however the body
    completes, also after a [return]. *)
Definition tryFinally {A} (body : Act A) (cleanup : Act unit) : Act A :=
  fun w =>
    match body w with
    | (c, w') =>
        match cleanup w' with
        | (JS.Normal _, w'') => (c, w'')
        | (JS.Throw e, w'') => (JS.Throw e, w'')
        end
    end.

(** What differs between the stores that share one text: how [activeFilters]
    is built, the two messages, and the filters [clearFilters] installs. *)
Record Config := mkConfig {
  activeFiltersOf : Host -> gmap string string -> gmap string TransportValue;
  apiMissingMessage : string;
  failedMessage : string;
  clearedFilters : gmap string string
}.

(** [response.next ? this.extractCursor(response.next) : null] *)
Definition cursorOf (h : Host) (reference : option string) : Act (option string) :=
  match reference with
  | Some url => if JS.truthy url then lift (extractCursor h url) else ret None
  | None => ret None
  end.

(** [error.message || fallback] *)
Definition messageOr (e : JS.Error) (fallback : string) : string :=
  if JS.truthy (JS.message e) then JS.message e else fallback.

(** The call [api.listX(this.pageSize, cursor, activeFilters)]: it is logged,
    and the caller is suspended under [handle] until the promise settles. *)
Definition callApi (handle : nat) (cursor : option string)
    (activeFilters : gmap string TransportValue) : Act unit :=
  fun w =>
    (JS.Normal tt,
     with_inflight (inflight w ++ [handle])
       (with_fetches
          (mkFetch (pageSize (store w)) cursor activeFilters (store w) :: fetches w)
          w)).

(** ** Stores with request tracking and debounce

    The stocks list store ([loadStocks]) and the runs list store ([loadRuns])
    that keep [_currentRequestController] and [_debounceTimers].  The two texts
    differ in the names of the list and of the API method, in the filter keys
    and in how [activeFilters] is built; the functions below are written once
    over a [Config]. *)

Module Tracked.

Section Store.

Variable h : Host.
Variable cfg : Config.

(** [this._currentRequestController && this._currentRequestController.signal.aborted] *)
Definition currentAborted (w : World) : bool :=
  match _currentRequestController (store w) with
  | Some c => bool_decide (c ∈ aborted w)
  | None => false
  end.

(** [if (this._currentRequestController) this._currentRequestController.abort()] *)
Definition abortCurrent : Act unit :=
  fun w =>
    match _currentRequestController (store w) with
    | Some c => (JS.Normal tt, with_aborted ({[c]} ∪ aborted w) w)
    | None => (JS.Normal tt, w)
    end.

(** [new AbortController()] *)
Definition newAbortController : Act nat :=
  fun w => (JS.Normal (controllers w), with_controllers (S (controllers w)) w).

(** The [try] block of the load up to its [await]; the result is the [signal]
    the rest of the call holds on to. *)
Definition load_untilAwait (cursor : option string) : Act nat :=
  abortCurrent ;;
  do! controller := newAbortController in
  assign (set__currentRequestController (Some controller)) ;;
  let signal := controller in
  assign (set_loading true) ;;
  assign (set_error None) ;;
  do! activeFilters := read (fun w => activeFiltersOf cfg h (filters (store w))) in
  (if apiRegistered h then ret tt
   else throw (JS.mkError "Error" (apiMissingMessage cfg))) ;;
  callApi signal cursor activeFilters ;;
  ret signal.

(** The [try] block from the [await] on. *)
Definition load_afterAwait (signal : nat) (outcome : Outcome) : Act unit :=
  do! response :=
    (match outcome with
     | Fulfilled response => ret response
     | Rejected error => throw error
     end) in
  do! signalAborted := read (fun w => bool_decide (signal ∈ aborted w)) in
  if signalAborted then
    assign (set_loading false)
  else
    assign (set_items (default [] (results response))) ;;
    do! n := cursorOf h (next response) in
    assign (set_nextCursor n) ;;
    do! p := cursorOf h (previous response) in
    assign (set_previousCursor p).

(** The [catch] block. *)
Definition load_catch (error : JS.Error) : Act unit :=
  do! currentIsAborted := read currentAborted in
  if String.eqb (JS.name error) "AbortError" || currentIsAborted then
    assign (set_loading false)
  else
    assign (set_error (Some (messageOr error (failedMessage cfg)))) ;;
    assign (set_items []) ;;
    assign (set_nextCursor None) ;;
    assign (set_previousCursor None).

(** The [finally] block. *)
Definition load_finally : Act unit :=
  do! current := read (fun w => _currentRequestController (store w)) in
  do! currentIsAborted := read currentAborted in
  if bool_decide (is_Some current) && negb currentIsAborted then
    assign (set_loading false)
  else ret tt.

(** Calling [loadStocks(cursor)] / [loadRuns(cursor)]: it runs to its [await]
    and stays suspended there, or, when the [try] block throws before that,
    runs its [catch] and [finally] blocks and completes. *)
Definition load (cursor : option string) (w : World) : World :=
  match load_untilAwait cursor w with
  | (JS.Normal _, w') => w'
  | (JS.Throw error, w') => snd (tryFinally (load_catch error) load_finally w')
  end.

(** The promise awaited by the load holding [signal] settles: the rest of the
    [try] block runs, then [catch] and [finally]. *)
Definition settle (signal : nat) (outcome : Outcome) (w : World) : World :=
  if bool_decide (signal ∈ inflight w) then
    snd (tryFinally (tryCatch (load_afterAwait signal outcome) load_catch)
           load_finally
           (with_inflight (filter (fun s => s ≠ signal) (inflight w)) w))
  else w.

Definition resetCursors : Act unit :=
  assign (set_nextCursor None) ;;
  assign (set_previousCursor None).

Definition applyFilters (w : World) : World :=
  load None (snd (resetCursors w)).

(** [clearTimeout(id)] *)
Definition clearTimeout (id : nat) (w : World) : World :=
  with_timeouts (filter (fun t => timerId t ≠ id) (timeouts w)) w.

(** A timer property is truthy when it holds an id other than 0. *)
Definition timerOf (entry : option (option nat)) : option nat :=
  match entry with
  | Some (Some (S n)) => Some (S n)
  | _ => None
  end.

(** The loop of [clearFilters] over [Object.keys(this._debounceTimers)]. *)
Definition clearAllTimers (w : World) : World :=
  let ids := omap (fun kv => timerOf (Some (snd kv)))
                  (map_to_list (_debounceTimers (store w))) in
  with_store
    (set__debounceTimers
       ((fun entry => match timerOf (Some entry) with Some _ => None | None => entry end)
          <$> _debounceTimers (store w))
       (store w))
    (with_timeouts (filter (fun t => timerId t ∉ ids) (timeouts w)) w).

Definition clearFilters (w : World) : World :=
  let w1 := clearAllTimers w in
  let w2 := with_store (set_filters (clearedFilters cfg) (store w1)) w1 in
  applyFilters w2.

Definition nextPage (w : World) : World :=
  if JS.truthy_opt (nextCursor (store w)) then load (nextCursor (store w)) w else w.

Definition previousPage (w : World) : World :=
  if JS.truthy_opt (previousCursor (store w)) then load (previousCursor (store w)) w
  else w.

(** [setTimeout(callback, delay)] for the debounce callback of [key]. *)
Definition setTimeout (key : string) (delay : nat) (w : World) : nat * World :=
  let id := S (timerIds w) in
  (id, with_timerIds id
         (with_timeouts (timeouts w ++ [mkTimeout id (now w + delay) key]) w)).

Definition setTimer (key : string) (entry : option nat) (w : World) : World :=
  with_store
    (set__debounceTimers (<[key := entry]> (_debounceTimers (store w))) (store w)) w.

Definition handleDebouncedFilter (filterKey value : string) (w : World) : World :=
  let w1 :=
    match timerOf (_debounceTimers (store w) !! filterKey) with
    | Some id => setTimer filterKey None (clearTimeout id w)
    | None => w
    end in
  let w2 :=
    with_store (set_filters (<[filterKey := value]> (filters (store w1))) (store w1)) w1 in
  let trimmedValue := JS.trim value in
  if JS.is_empty trimmedValue then
    load None (snd (resetCursors w2))
  else
    let (id, w3) := setTimeout filterKey (debounceDelay (store w2)) w2 in
    setTimer filterKey (Some id) w3.

(** The callback handed to [setTimeout]. *)
Definition debounceCallback (key : string) (w : World) : World :=
  setTimer key None (load None (snd (resetCursors w))).

(** The timers of [queue] that are due run in the order they were queued. *)
Fixpoint runDue (queue : list Timeout) (w : World) : World :=
  match queue with
  | [] => w
  | t :: rest =>
      if Nat.leb (due t) (now w)
         && existsb (fun t' => Nat.eqb (timerId t') (timerId t)) (timeouts w) then
        runDue rest (debounceCallback (filterKey t) (clearTimeout (timerId t) w))
      else runDue rest w
  end.

(** One millisecond passes. *)
Definition tick (w : World) : World :=
  let w' := with_now (S (now w)) w in
  runDue (timeouts w') w'.

Fixpoint elapse (ms : nat) (w : World) : World :=
  match ms with
  | O => w
  | S ms' => elapse ms' (tick w)
  end.

(** What can happen to the store: a command of the view, a promise that
    settles, time that passes. *)
Inductive Event : Type :=
| Load (cursor : option string)
| ApplyFilters
| ClearFilters
| NextPage
| PreviousPage
| HandleDebouncedFilter (filterKey value : string)
| Settle (signal : nat) (outcome : Outcome)
| Elapse (ms : nat).

Definition step (w : World) (e : Event) : World :=
  match e with
  | Load cursor => load cursor w
  | ApplyFilters => applyFilters w
  | ClearFilters => clearFilters w
  | NextPage => nextPage w
  | PreviousPage => previousPage w
  | HandleDebouncedFilter filterKey value => handleDebouncedFilter filterKey value w
  | Settle signal outcome => settle signal outcome w
  | Elapse ms => elapse ms w
  end.

Definition run (w : World) (es : list Event) : World := fold_left step es w.

End Store.

End Tracked.

(** The store object as the page defines it. *)
Definition initialStore (fs : gmap string string) (timers : gmap string (option nat))
  : Store :=
  mkStore [] false None None None 50 fs timers 400 None.

Definition initialWorld (s : Store) : World :=
  mkWorld s ∅ 0 [] [] 0 [] 0.

(** *** The stocks list store *)

Definition stocks_filters : gmap string string :=
  <["ticker__icontains" := ""]>
    (<["sector__name__icontains" := ""]>
       (<["exchange__name" := ""]> (<["country" := ""]> ∅))).

Definition stocks_timers : gmap string (option nat) :=
  <["ticker__icontains" := None]> (<["sector__name__icontains" := None]> ∅).

Definition stocksList : Config :=
  mkConfig (fun _ => stocks_activeFilters)
    "Stocks API store is not available" "Failed to load stocks" stocks_filters.

Definition stocksList_init : World :=
  initialWorld (initialStore stocks_filters stocks_timers).

Definition loadStocks (h : Host) := Tracked.load h stocksList.

(** *** Local dates as UTC instants *)

Module DateUtils.

Local Open Scope Z_scope.

Definition digitValue (c : ascii) : Z := Z.of_nat (nat_of_ascii c) - 48.

Definition digitChar (n : Z) : ascii := ascii_of_nat (48 + Z.to_nat n).

Definition pad2 (n : Z) : string :=
  String (digitChar (n / 10 mod 10)) (String (digitChar (n mod 10)) "").

Definition pad4 (n : Z) : string := (pad2 (n / 100) ++ pad2 n)%string.

(** Year, month and day of a string of the form YYYY-MM-DD. *)
Definition fields (s : string) : option (Z * Z * Z) :=
  match list_ascii_of_string s with
  | [y1; y2; y3; y4; _; m1; m2; _; d1; d2] =>
      if isDateOnly s then
        Some (digitValue y1 * 1000 + digitValue y2 * 100 + digitValue y3 * 10
              + digitValue y4,
              digitValue m1 * 10 + digitValue m2,
              digitValue d1 * 10 + digitValue d2)
      else None
  | _ => None
  end.

Definition isLeap (y : Z) : bool :=
  ((y mod 4 =? 0) && negb (y mod 100 =? 0)) || (y mod 400 =? 0).

Definition daysInMonth (y m : Z) : Z :=
  if m =? 2 then (if isLeap y then 29 else 28)
  else if (m =? 4) || (m =? 6) || (m =? 9) || (m =? 11) then 30
  else 31.

Definition isCalendarDate (y m d : Z) : bool :=
  (1 <=? m) && (m <=? 12) && (1 <=? d) && (d <=? daysInMonth y m).

(** Days from 1970-01-01 to the civil date, and back (proleptic Gregorian). *)
Definition daysFromCivil (y m d : Z) : Z :=
  let y' := if m <=? 2 then y - 1 else y in
  let era := y' / 400 in
  let yoe := y' - era * 400 in
  let doy := (153 * (if 2 <? m then m - 3 else m + 9) + 2) / 5 + d - 1 in
  let doe := yoe * 365 + yoe / 4 - yoe / 100 + doy in
  era * 146097 + doe - 719468.

Definition civilFromDays (z : Z) : Z * Z * Z :=
  let z' := z + 719468 in
  let era := z' / 146097 in
  let doe := z' - era * 146097 in
  let yoe := (doe - doe / 1460 + doe / 36524 - doe / 146096) / 365 in
  let doy := doe - (365 * yoe + yoe / 4 - yoe / 100) in
  let mp := (5 * doy + 2) / 153 in
  let d := doy - (153 * mp + 2) / 5 + 1 in
  let m := if mp <? 10 then mp + 3 else mp - 9 in
  let y := yoe + era * 400 in
  (if m <=? 2 then y + 1 else y, m, d).

(** Modelled from the spec: [dateToUTCISO], which the stores call as
    [window.dateUtils.dateToUTCISO(dateValue)] and whose text is not among the
    sources.  The spec has a date-range bound be a calendar date YYYY-MM-DD
    read as a local calendar day, converted to the instant of local midnight
    and written as a UTC timestamp string, and has a malformed date dropped.
    [offset] is local time minus UTC in minutes at that midnight; the string
    has the form of the timestamps of the API (YYYY-MM-DDTHH:MM:SSZ); a date
    that is not on the calendar, or whose instant falls outside the years 0000
    to 9999, gives [null]. *)
Definition dateToUTCISO (offset : Z) (dateString : string) : option string :=
  match fields dateString with
  | Some (y, m, d) =>
      if isCalendarDate y m d then
        let minutes := daysFromCivil y m d * 1440 - offset in
        let '(y', m', d') := civilFromDays (minutes / 1440) in
        let minuteOfDay := minutes mod 1440 in
        if (0 <=? y') && (y' <=? 9999) then
          Some (pad4 y' ++ "-" ++ pad2 m' ++ "-" ++ pad2 d' ++ "T"
                ++ pad2 (minuteOfDay / 60) ++ ":" ++ pad2 (minuteOfDay mod 60)
                ++ ":00Z")%string
        else None
      else None
  | None => None
  end.

(** The offset read back from a string [dateToUTCISO] wrote for the local day
    [y]-[m]-[d]. *)
Definition offsetOf (y m d : Z) (iso : string) : option Z :=
  match list_ascii_of_string iso with
  | [y1; y2; y3; y4; _; m1; m2; _; d1; d2; _; h1; h2; _; n1; n2; _; _; _; _] =>
      let y' := digitValue y1 * 1000 + digitValue y2 * 100 + digitValue y3 * 10
                + digitValue y4 in
      let m' := digitValue m1 * 10 + digitValue m2 in
      let d' := digitValue d1 * 10 + digitValue d2 in
      let minuteOfDay := (digitValue h1 * 10 + digitValue h2) * 60
                         + digitValue n1 * 10 + digitValue n2 in
      Some (daysFromCivil y m d * 1440
            - (daysFromCivil y' m' d' * 1440 + minuteOfDay))
  | _ => None
  end.

End DateUtils.

(** The date branch of the stores that call [dateToUTCISO]:
    [if (utcISO) activeFilters[key] = utcISO]. *)
Definition date_filter_localMidnight (h : Host) (value : string)
  : option TransportValue :=
  if JS.truthy value && negb (JS.is_empty (JS.trim value))
  then
    let dateValue := JS.trim value in
    match DateUtils.dateToUTCISO (utcOffset h) dateValue with
    | Some utcISO => if JS.truthy utcISO then Some (TString utcISO) else None
    | None => None
    end
  else None.

(** [loadRuns] of the runs list store with request tracking. *)
Definition trackedRuns_activeFilters (h : Host) (filters : gmap string string)
  : gmap string TransportValue :=
  map_imap
    (fun key value =>
       if is_runs_boolean_key key then boolean_filter value
       else if is_runs_date_key key then date_filter_localMidnight h value
       else string_filter value)
    filters.

Definition is_bulk_boolean_key (key : string) : bool :=
  String.eqb key "is_completed" || String.eqb key "has_errors".

Definition is_bulk_date_key (key : string) : bool :=
  String.eqb key "created_after" || String.eqb key "created_before"
  || String.eqb key "started_at_after" || String.eqb key "started_at_before"
  || String.eqb key "completed_at_after" || String.eqb key "completed_at_before".

(** [loadBulkQueueRuns] *)
Definition bulk_activeFilters (h : Host) (filters : gmap string string)
  : gmap string TransportValue :=
  map_imap
    (fun key value =>
       if is_bulk_boolean_key key then boolean_filter value
       else if is_bulk_date_key key then date_filter_localMidnight h value
       else string_filter value)
    filters.

Definition trackedRuns_filters : gmap string string :=
  <["run_id" := ""]> (<["ticker__icontains" := ""]> (<["state" := ""]>
  (<["requested_by__icontains" := ""]> (<["created_after" := ""]>
  (<["created_before" := ""]> (<["is_terminal" := ""]>
  (<["is_in_progress" := ""]> (<["bulk_queue_run" := ""]> ∅)))))))).

Definition trackedRuns_timers : gmap string (option nat) :=
  <["ticker__icontains" := None]> (<["requested_by__icontains" := None]> ∅).

(** The runs list store with request tracking and debounce. *)
Definition trackedRunsList : Config :=
  mkConfig trackedRuns_activeFilters
    "Runs API store is not available" "Failed to load runs" trackedRuns_filters.

Definition trackedRunsList_init : World :=
  initialWorld (initialStore trackedRuns_filters trackedRuns_timers).

(** ** Stores without request tracking

    The runs list store and the bulk-queue runs list store of
    services/src/js/stores/ingestion_runs/listStore.js, and the stocks list
    store written the same way: [loadRuns], [loadBulkQueueRuns] and
    [loadStocks] with no [_currentRequestController] and no debounce. *)

Module Plain.

Section Store.

Variable h : Host.
Variable cfg : Config.

(** The [try] block up to its [await].  The suspended call is named by the
    number of calls made to the API client before it. *)
Definition load_untilAwait (cursor : option string) : Act nat :=
  assign (set_loading true) ;;
  assign (set_error None) ;;
  do! activeFilters := read (fun w => activeFiltersOf cfg h (filters (store w))) in
  (if apiRegistered h then ret tt
   else throw (JS.mkError "Error" (apiMissingMessage cfg))) ;;
  do! call := read (fun w => length (fetches w)) in
  callApi call cursor activeFilters ;;
  ret call.

(** The [try] block from the [await] on. *)
Definition load_afterAwait (outcome : Outcome) : Act unit :=
  do! response :=
    (match outcome with
     | Fulfilled response => ret response
     | Rejected error => throw error
     end) in
  assign (set_items (default [] (results response))) ;;
  do! n := cursorOf h (next response) in
  assign (set_nextCursor n) ;;
  do! p := cursorOf h (previous response) in
  assign (set_previousCursor p).

(** The [catch] block. *)
Definition load_catch (error : JS.Error) : Act unit :=
  assign (set_error (Some (messageOr error (failedMessage cfg)))) ;;
  assign (set_items []) ;;
  assign (set_nextCursor None) ;;
  assign (set_previousCursor None).

(** The [finally] block. *)
Definition load_finally : Act unit :=
  assign (set_loading false).

Definition load (cursor : option string) (w : World) : World :=
  match load_untilAwait cursor w with
  | (JS.Normal _, w') => w'
  | (JS.Throw error, w') => snd (tryFinally (load_catch error) load_finally w')
  end.

Definition settle (call : nat) (outcome : Outcome) (w : World) : World :=
  if bool_decide (call ∈ inflight w) then
    snd (tryFinally (tryCatch (load_afterAwait outcome) load_catch)
           load_finally
           (with_inflight (filter (fun c => c ≠ call) (inflight w)) w))
  else w.

Definition resetCursors : Act unit :=
  assign (set_nextCursor None) ;;
  assign (set_previousCursor None).

Definition applyFilters (w : World) : World :=
  load None (snd (resetCursors w)).

Definition clearFilters (w : World) : World :=
  applyFilters (with_store (set_filters (clearedFilters cfg) (store w)) w).

Definition nextPage (w : World) : World :=
  if JS.truthy_opt (nextCursor (store w)) then load (nextCursor (store w)) w else w.

Definition previousPage (w : World) : World :=
  if JS.truthy_opt (previousCursor (store w)) then load (previousCursor (store w)) w
  else w.

Inductive Event : Type :=
| Load (cursor : option string)
| ApplyFilters
| ClearFilters
| NextPage
| PreviousPage
| Settle (call : nat) (outcome : Outcome).

Definition step (w : World) (e : Event) : World :=
  match e with
  | Load cursor => load cursor w
  | ApplyFilters => applyFilters w
  | ClearFilters => clearFilters w
  | NextPage => nextPage w
  | PreviousPage => previousPage w
  | Settle call outcome => settle call outcome w
  end.

Definition run (w : World) (es : list Event) : World := fold_left step es w.

End Store.

End Plain.

(** *** The runs list store of ingestion_runs/listStore.js *)

Definition runs_filters : gmap string string :=
  <["run_id" := ""]> (<["ticker" := ""]> (<["ticker__icontains" := ""]>
  (<["state" := ""]> (<["requested_by" := ""]>
  (<["requested_by__icontains" := ""]> (<["created_after" := ""]>
  (<["created_before" := ""]> (<["is_terminal" := ""]>
  (<["is_in_progress" := ""]> (<["bulk_queue_run" := ""]> ∅)))))))))).

Definition runsList : Config :=
  mkConfig (fun _ => runs_activeFilters)
    "Runs API store is not available" "Failed to load runs" runs_filters.

Definition runsList_init : World := initialWorld (initialStore runs_filters ∅).

Definition loadRuns (h : Host) := Plain.load h runsList.

(** *** The bulk-queue runs list store *)

Definition bulk_filters : gmap string string :=
  <["requested_by__icontains" := ""]> (<["created_after" := ""]>
  (<["created_before" := ""]> (<["started_at_after" := ""]>
  (<["started_at_before" := ""]> (<["completed_at_after" := ""]>
  (<["completed_at_before" := ""]> (<["is_completed" := ""]>
  (<["has_errors" := ""]> ∅)))))))).

Definition bulkQueueRunsList : Config :=
  mkConfig bulk_activeFilters
    "Runs API store is not available" "Failed to load bulk queue runs" bulk_filters.

Definition loadBulkQueueRuns (h : Host) := Plain.load h bulkQueueRunsList.

(** ** A host for worked examples

    A small stand-in for the URL parser of a browser, used where a statement
    is evaluated on a concrete page: a reference is accepted when it starts
    with http:// or https://, and its query is the text after the first
    question mark, split at ampersands and at the first equals sign. *)

Module Example.

Fixpoint startsWith (prefix s : string) : bool :=
  match prefix, s with
  | EmptyString, _ => true
  | String a prefix', String b s' => Ascii.eqb a b && startsWith prefix' s'
  | String _ _, EmptyString => false
  end.

Fixpoint after (c : ascii) (s : string) : option string :=
  match s with
  | EmptyString => None
  | String a s' => if Ascii.eqb a c then Some s' else after c s'
  end.

Fixpoint before (c : ascii) (s : string) : string :=
  match s with
  | EmptyString => EmptyString
  | String a s' => if Ascii.eqb a c then EmptyString else String a (before c s')
  end.

Fixpoint pieces (fuel : nat) (c : ascii) (s : string) : list string :=
  match fuel with
  | O => [s]
  | S fuel' =>
      match after c s with
      | Some rest => before c s :: pieces fuel' c rest
      | None => [s]
      end
  end.

Definition pair (s : string) : string * string :=
  (before "=" s, default "" (after "=" s)).

Definition url (reference : string) : JS.completion (list (string * string)) :=
  if startsWith "http://" reference || startsWith "https://" reference then
    JS.Normal
      (match after "?" reference with
       | Some query => map pair (pieces (String.length query) "&" query)
       | None => []
       end)
  else JS.Throw (JS.mkError "TypeError" "Invalid URL").

(** A page in UTC with the API store registered. *)
Definition host : Host := mkHost url true 0.


Definition pageA : Response :=
  mkResponse (Some ["AAPL"; "AMZN"]) (Some "https://host/api/tickers?cursor=n2") None.

Definition pageB : Response :=
  mkResponse (Some ["MSFT"]) None (Some "https://host/api/tickers?cursor=p1").

Definition serverError : JS.Error :=
  JS.mkError "Error" "Request failed with status 500".

End Example.

(** * Further functions of the list stores and of the API client *)

(** ** The filter helpers of the list stores *)

(** A value handed to [setInitialFilters], as far as [String(value)] tells
    values apart. *)
Inductive JSValue : Type :=
| VUndefined
| VNull
| VBoolean (b : bool)
| VNumber (n : nat)
| VString (s : string).

(** [String(value)] *)
Definition String_of (v : JSValue) : string :=
  match v with
  | VUndefined => "undefined"
  | VNull => "null"
  | VBoolean true => "true"
  | VBoolean false => "false"
  | VNumber n => number_toString n
  | VString s => s
  end.

(** The body of the loop of [setInitialFilters] for one key of [this.filters]:
    the filter is replaced when the argument has the key as an own property
    with a value other than [null] and [undefined]. *)
Definition initialFilter (initialFilters : gmap string JSValue)
    (key old : string) : option string :=
  match initialFilters !! key with
  | Some VNull | Some VUndefined | None => Some old
  | Some v => Some (JS.trim (String_of v))
  end.

(** [setInitialFilters(initialFilters)] on the filters of the store; an
    argument that is not an object ([None]) leaves them as they are. *)
Definition setInitialFilters (initialFilters : option (gmap string JSValue))
    (filters : gmap string string) : gmap string string :=
  match initialFilters with
  | Some given => map_imap (initialFilter given) filters
  | None => filters
  end.

(** [value && value.trim() !== ''], the test of [hasActiveFilters] and
    [getActiveFilterCount]. *)
Definition isActive (value : string) : bool :=
  JS.truthy value && negb (JS.is_empty (JS.trim value)).

(** [Object.values(this.filters)]; the two functions below do not depend on
    the order of the values. *)
Definition Object_values (filters : gmap string string) : list string :=
  map snd (map_to_list filters).

(** [hasActiveFilters()] *)
Definition hasActiveFilters (filters : gmap string string) : bool :=
  existsb isActive (Object_values filters).

(** [getActiveFilterCount()] *)
Definition getActiveFilterCount (filters : gmap string string) : nat :=
  length (List.filter isActive (Object_values filters)).

(** The four list stores of the sources. *)
Definition listStores : list Config :=
  [stocksList; trackedRunsList; runsList; bulkQueueRunsList].

(** ** The API clients of the lists *)

(** The loop of [listTickers] over its own [filterKeys], which is written out
    in the function and takes no boolean keys. *)
Definition listTickers_params (pageSize : nat) (cursor : option string)
    (filters : gmap string TransportValue) : list (string * string) :=
  (if Nat.eqb pageSize 0 then [] else [("page_size", number_toString pageSize)])
  ++ (match cursor with
      | Some c => if JS.truthy c then [("cursor", c)] else []
      | None => []
      end)
  ++ flat_map (append_string_filter filters) tickers_stringFilterKeys.

(** The parameters [listRuns] builds with [_buildQueryParams], which has the
    text of [buildQueryParams]. *)
Definition listRuns_params (pageSize : nat) (cursor : option string)
    (filters : gmap string TransportValue) : list (string * string) :=
  buildQueryParams pageSize cursor filters runs_stringFilterKeys runs_booleanFilterKeys.

Definition bulk_stringFilterKeys : list string :=
  ["requested_by"; "requested_by__icontains"; "created_after"; "created_before";
   "started_at_after"; "started_at_before"; "completed_at_after";
   "completed_at_before"].

Definition bulk_booleanFilterKeys : list string := ["is_completed"; "has_errors"].

(** The parameters [listBulkQueueRuns] builds. *)
Definition listBulkQueueRuns_params (pageSize : nat) (cursor : option string)
    (filters : gmap string TransportValue) : list (string * string) :=
  buildQueryParams pageSize cursor filters bulk_stringFilterKeys bulk_booleanFilterKeys.

(** [response.data], a JSON object, as the list methods read it: as a page
    when the request succeeded, and for [data.error?.message] and
    [data.detail] when it did not. *)
Record Data := mkData {
  page_of : Response;
  error_message : option string;
  detail : option string
}.

(** What [fetch] resolves to: the status, the [ok] flag and what
    [response.json()] gives. *)
Record FetchResponse := mkFetchResponse {
  fr_status : nat;
  fr_ok : bool;
  fr_json : JS.completion Data
}.

(** The object [request] returns. *)
Record ApiResponse := mkApiResponse {
  status : nat;
  data : Data;
  ok : bool
}.

(** [{ success: true }], which has none of the properties the lists read. *)
Definition successData : Data := mkData (mkResponse None None None) None None.

(** [request(endpoint, options)] from the moment [fetch] settles; the [catch]
    block logs and throws the error again. *)
Definition request_afterFetch (fetched : JS.completion FetchResponse)
  : JS.completion ApiResponse :=
  JS.try_catch
    (let! response := fetched in
     if Nat.eqb (fr_status response) 204 then
       JS.Normal (mkApiResponse 204 successData (fr_ok response))
     else
       let! data := fr_json response in
       JS.Normal (mkApiResponse (fr_status response) data (fr_ok response)))
    (fun error => JS.Throw error).

(** [a || b] on strings that may be missing. *)
Definition orElse (a : option string) (b : string) : string :=
  match a with
  | Some s => if JS.truthy s then s else b
  | None => b
  end.

(** [response.data.error?.message || response.data.detail ||
    `Request failed with status ${response.status}`] *)
Definition errorMessage (response : ApiResponse) : string :=
  orElse (error_message (data response))
    (orElse (detail (data response))
       ("Request failed with status " ++ number_toString (status response))).

(** A list method ([listTickers], [listRuns], [listBulkQueueRuns]) from the
    moment [request] settles: how the promise the store awaits settles. *)
Definition list_afterRequest (requested : JS.completion ApiResponse) : Outcome :=
  match requested with
  | JS.Normal response =>
      if ok response then Fulfilled (page_of (data response))
      else Rejected (JS.mkError "Error" (errorMessage response))
  | JS.Throw error => Rejected error
  end.

(** ** The run details modal *)

Module RunDetailsModal.

(** The properties of the modal store, with the clock and the callbacks that
    [closeModal] has handed to [setTimeout] and that have not run yet: all of
    them are the same closure, so each is known by the time at which it is
    due. *)
Record State := mkState {
  isOpen : bool;
  runData : option Item;
  time : nat;
  timers : list nat
}.

Definition openModal (data : option Item) (s : State) : State :=
  match data with
  | None => s
  | Some d => mkState true (Some d) (time s) (timers s)
  end.

(** The callback of [closeModal]. *)
Definition clearIfClosed (s : State) : State :=
  if negb (isOpen s) then mkState (isOpen s) None (time s) (timers s) else s.

Definition closeModal (s : State) : State :=
  mkState false (runData s) (time s) (timers s ++ [time s + 250]).

(** The callbacks of [queue] that are due run in the order they were queued;
    the others stay. *)
Fixpoint runDue (queue : list nat) (s : State) : State :=
  match queue with
  | [] => s
  | due :: rest =>
      if Nat.leb due (time s) then
        runDue rest
          (clearIfClosed
             (mkState (isOpen s) (runData s) (time s)
                (List.filter (fun d => negb (Nat.eqb d due)) (timers s))))
      else runDue rest s
  end.

(** One millisecond passes. *)
Definition tick (s : State) : State :=
  let s' := mkState (isOpen s) (runData s) (S (time s)) (timers s) in
  runDue (timers s') s'.

Fixpoint elapse (ms : nat) (s : State) : State :=
  match ms with
  | O => s
  | S ms' => elapse ms' (tick s)
  end.

End RunDetailsModal.

(** ** State names and their classes *)

(** Upper case of a code unit below 256: a-z, the small letters of Latin-1
    (224-254 but for the division sign 247), and the sharp s, which becomes SS.
    The capitals of the micro sign and of y with diaeresis lie above 255; they
    are left as they are, which no comparison with an ASCII text can tell. *)
Definition upper (c : ascii) : string :=
  let n := nat_of_ascii c in
  if (Nat.leb 97 n && Nat.leb n 122)
     || (Nat.leb 224 n && Nat.leb n 254 && negb (Nat.eqb n 247))
  then String (ascii_of_nat (n - 32)) ""
  else if Nat.eqb n 223 then "SS"
  else String c "".

Fixpoint toUpperCase (s : string) : string :=
  match s with
  | EmptyString => EmptyString
  | String c s' => upper c ++ toUpperCase s'
  end.

(** [s.includes(part)] *)
Fixpoint includes (part s : string) : bool :=
  String.prefix part s
  || match s with
     | EmptyString => false
     | String _ s' => includes part s'
     end.

(** [getStateBadgeClass] of the run details modal. *)
Definition runDetails_getStateBadgeClass (state : string) : string :=
  if negb (JS.truthy state) then "bg-theme-tertiary text-theme-primary"
  else
    let stateUpper := toUpperCase state in
    if String.eqb stateUpper "DONE" then "bg-success text-success-text"
    else if String.eqb stateUpper "FAILED" then "bg-error text-error-text"
    else if String.eqb stateUpper "FETCHING" || String.eqb stateUpper "DELTA_RUNNING"
    then "bg-info text-info-text"
    else if String.eqb stateUpper "FETCHED" || String.eqb stateUpper "DELTA_FINISHED"
    then "bg-info text-info-text"
    else if includes "QUEUED" stateUpper then "bg-warning text-warning-text"
    else "bg-info text-info-text".

(** [getStateBadgeClass] of the bulk queue run details modal. *)
Definition bulk_getStateBadgeClass (state : string) : string :=
  if negb (JS.truthy state) then "bg-theme-tertiary text-theme-primary"
  else
    let stateUpper := toUpperCase state in
    if String.eqb stateUpper "DONE" then "bg-success text-success-text"
    else if String.eqb stateUpper "FAILED" then "bg-error text-error-text"
    else if String.eqb stateUpper "FETCHING" || String.eqb stateUpper "DELTA_RUNNING"
    then "bg-info text-info-text"
    else if String.eqb stateUpper "FETCHED" || String.eqb stateUpper "DELTA_FINISHED"
    then "bg-info text-info-text"
    else if includes "QUEUED" stateUpper then "bg-warning text-warning-text"
    else "bg-theme-tertiary text-theme-primary".

(** [getProgressBarClass] of the bulk queue run details modal. *)
Definition getProgressBarClass (state : string) : string :=
  if negb (JS.truthy state) then "bg-theme-tertiary"
  else
    let stateUpper := toUpperCase state in
    if String.eqb stateUpper "DONE" then "bg-success"
    else if String.eqb stateUpper "FAILED" then "bg-error"
    else if String.eqb stateUpper "FETCHING" || String.eqb stateUpper "DELTA_RUNNING"
    then "bg-info"
    else if String.eqb stateUpper "FETCHED" || String.eqb stateUpper "DELTA_FINISHED"
    then "bg-info"
    else if includes "QUEUED" stateUpper then "bg-warning"
    else "bg-theme-tertiary".

(** [\w]: a letter of A-Z or a-z, a digit, or the underscore. *)
Definition is_word (c : ascii) : bool :=
  let n := nat_of_ascii c in
  (Nat.leb 65 n && Nat.leb n 90) || (Nat.leb 97 n && Nat.leb n 122)
  || (Nat.leb 48 n && Nat.leb n 57) || Nat.eqb n 95.

(** [state.replace(/_/g, ' ')] *)
Fixpoint replaceUnderscores (s : string) : string :=
  match s with
  | EmptyString => EmptyString
  | String c s' =>
      String (if Ascii.eqb c "_" then " "%char else c) (replaceUnderscores s')
  end.

(** [l.toUpperCase()] of one [\w] character. *)
Definition upperWord (c : ascii) : ascii :=
  let n := nat_of_ascii c in
  if Nat.leb 97 n && Nat.leb n 122 then ascii_of_nat (n - 32) else c.

(** [s.replace(/\b\w/g, l => l.toUpperCase())]: a [\w] character is at a word
    boundary when it starts the string or follows a character that is not
    [\w]; [boundary] tells which holds for the head of [s]. *)
Fixpoint capitalizeWords (boundary : bool) (s : string) : string :=
  match s with
  | EmptyString => EmptyString
  | String c s' =>
      String (if boundary && is_word c then upperWord c else c)
        (capitalizeWords (negb (is_word c)) s')
  end.

(** [formatStateName] of the bulk queue run details modal. *)
Definition formatStateName (state : string) : string :=
  if negb (JS.truthy state) then "N/A"
  else capitalizeWords true (replaceUnderscores state).

(** ** The exchanges of the stocks list store *)

(** The stocks list store with request tracking also keeps the exchanges of
    its dropdown.  [listStore] holds the properties modelled so far, of which
    [loadExchanges] writes [error]; [listExchangesCalls] counts the calls of
    [metadataAPI.listExchanges(100, null, {})] and [awaiting] the calls of
    [loadExchanges] suspended at their [await]. *)
Record StocksPage := mkStocksPage {
  listStore : Store;
  exchanges : list Item;
  exchangesLoading : bool;
  exchangesLoaded : bool;
  listExchangesCalls : nat;
  awaiting : nat
}.

Definition exchangesFailed (e : JS.Error) (p : StocksPage) : StocksPage :=
  mkStocksPage (set_error (Some (messageOr e "Failed to load exchanges")) (listStore p))
    [] false (exchangesLoaded p) (listExchangesCalls p) (awaiting p).

(** [loadExchanges()] up to its [await], or to its end when it does not get
    there; [metadataRegistered] tells whether [Alpine.store('metadataAPI')] is
    there. *)
Definition loadExchanges (metadataRegistered : bool) (p : StocksPage) : StocksPage :=
  if exchangesLoaded p then p
  else
    let p1 :=
      mkStocksPage (set_error None (listStore p)) (exchanges p) true (exchangesLoaded p)
        (listExchangesCalls p) (awaiting p) in
    if metadataRegistered then
      mkStocksPage (listStore p1) (exchanges p1) (exchangesLoading p1) (exchangesLoaded p1)
        (S (listExchangesCalls p1)) (S (awaiting p1))
    else
      exchangesFailed (JS.mkError "Error" "Metadata API store is not available") p1.

(** [loadExchanges()] from its [await] on, when the promise settles. *)
Definition loadExchanges_settle (outcome : Outcome) (p : StocksPage) : StocksPage :=
  match awaiting p with
  | O => p
  | S n =>
      let p1 :=
        mkStocksPage (listStore p) (exchanges p) (exchangesLoading p) (exchangesLoaded p)
          (listExchangesCalls p) n in
      match outcome with
      | Fulfilled response =>
          mkStocksPage (listStore p1) (default [] (results response)) false true
            (listExchangesCalls p1) (awaiting p1)
      | Rejected e => exchangesFailed e p1
      end
  end.

Inductive ExchangesEvent : Type :=
| LoadExchanges
| SettleExchanges (outcome : Outcome).

Definition exchangesStep (metadataRegistered : bool) (ev : ExchangesEvent)
    (p : StocksPage) : StocksPage :=
  match ev with
  | LoadExchanges => loadExchanges metadataRegistered p
  | SettleExchanges outcome => loadExchanges_settle outcome p
  end.

Definition exchangesRun (metadataRegistered : bool) (evs : list ExchangesEvent)
    (p : StocksPage) : StocksPage :=
  fold_left (fun p ev => exchangesStep metadataRegistered ev p) evs p.

(** ** The CSRF token of the API client *)

Module Csrf.

(** [s.split(sep)] for a separator of one code unit. *)
Fixpoint split (sep : ascii) (s : string) : list string :=
  match s with
  | EmptyString => [EmptyString]
  | String c s' =>
      if Ascii.eqb c sep then EmptyString :: split sep s'
      else
        match split sep s' with
        | piece :: pieces => String c piece :: pieces
        | [] => [String c EmptyString]
        end
  end.

(** [s.substring(n)] *)
Fixpoint substring (n : nat) (s : string) : string :=
  match n, s with
  | O, _ => s
  | S n', String _ s' => substring n' s'
  | S _, EmptyString => EmptyString
  end.

(** The loop of [getCsrfToken] over the cookies, up to its [break]: what
    follows [name=] in the first trimmed cookie that begins with it. *)
Fixpoint findCookie (name : string) (cookies : list string) : option string :=
  match cookies with
  | [] => None
  | c :: rest =>
      let cookie := JS.trim c in
      if String.prefix (name ++ "=") cookie
      then Some (substring (String.length name + 1) cookie)
      else findCookie name rest
  end.

(** [getCsrfToken()], given [document.cookie] and [decodeURIComponent], which
    throws on a malformed escape. *)
Definition getCsrfToken (decodeURIComponent : string -> JS.completion string)
    (cookie : string) : JS.completion string :=
  let name := "csrftoken" in
  if JS.truthy cookie then
    match findCookie name (split ";" cookie) with
    | Some encoded =>
        let! cookieValue := decodeURIComponent encoded in
        JS.Normal (if JS.truthy cookieValue then cookieValue else "")
    | None => JS.Normal ""
    end
  else JS.Normal "".

End Csrf.

(** ** Vocabulary of the statements *)

Definition hasParam (key : string) (params : list (string * string)) : bool :=
  existsb (fun kv => String.eqb (fst kv) key) params.

(** The cursor a continuation reference stands for, as a value. *)
Definition cursorValue (h : Host) (reference : option string) : option string :=
  match reference with
  | Some url =>
      if JS.truthy url then
        match URL h url with
        | JS.Normal params => searchParams_get "cursor" params
        | JS.Throw _ => None
        end
      else None
  | None => None
  end.

(** The store as a tracked load leaves it at its [await]. *)
Definition trackedAtAwait (w : World) : Store :=
  set_error None
    (set_loading true
       (set__currentRequestController (Some (controllers w)) (store w))).

Definition abortedAfterLoad (w : World) : gset nat :=
  match _currentRequestController (store w) with
  | Some c => {[c]} ∪ aborted w
  | None => aborted w
  end.

(** The store as an untracked load leaves it at its [await]. *)
Definition plainAtAwait (w : World) : Store :=
  set_error None (set_loading true (store w)).

(** A fetch that starts from the first page with both cursors of the store
    already absent. *)
Definition fromFirstPage (f : Fetch) : Prop :=
  f_cursor f = None
  /\ nextCursor (f_store f) = None
  /\ previousCursor (f_store f) = None.

(** [w'] differs from [w] by exactly one more call to the API client. *)
Definition oneFetch (w w' : World) (P : Fetch -> Prop) : Prop :=
  exists f, fetches w' = f :: fetches w /\ P f.

(** The part of the world the supersession check reads. *)
Record Tracking := mkTracking {
  t_aborted : gset nat;
  t_controllers : nat;
  t_current : option nat
}.

Definition tracking (w : World) : Tracking :=
  mkTracking (aborted w) (controllers w) (_currentRequestController (store w)).

(** What the first three statements of a tracked load do to it. *)
Definition loadT (t : Tracking) : Tracking :=
  mkTracking
    (match t_current t with Some c => {[c]} ∪ t_aborted t | None => t_aborted t end)
    (S (t_controllers t))
    (Some (t_controllers t)).

(** [t'] is [t] after some number of loads. *)
Definition advances : Tracking -> Tracking -> Prop :=
  rtc (fun t t' => t' = loadT t).

(** No controller is aborted before it is allocated, and the current one is
    allocated and not aborted. *)
Definition wellTracked (t : Tracking) : Prop :=
  (forall x, x ∈ t_aborted t -> x < t_controllers t)
  /\ (forall c, t_current t = Some c -> c < t_controllers t /\ c ∉ t_aborted t).

(** Controller [a] has been allocated and is current or aborted. *)
Definition currentOrAborted (a : nat) (t : Tracking) : Prop :=
  a < t_controllers t /\ (a ∈ t_aborted t \/ t_current t = Some a).

(** A statement keeps the relation [R] when every world is related to the world
    the statement leaves. *)
Definition keeps {A} (R : World -> World -> Prop) (m : Act A) : Prop :=
  forall w, R w (snd (m w)).

(** Everything in the world but the page shown: the items, the two cursors,
    [loading] and [error]. *)
Definition frame (w : World) :=
  (aborted w, controllers w, inflight w, fetches w, now w, timeouts w, timerIds w,
   (filters (store w), _debounceTimers (store w), pageSize (store w),
    debounceDelay (store w), _currentRequestController (store w))).

Definition sameFrame (w w' : World) : Prop := frame w' = frame w.

(** The store after the page [r] has been committed. *)
Definition committed (h : Host) (r : Response) (s : Store) : Store :=
  set_loading false
    (set_previousCursor (cursorValue h (previous r))
       (set_nextCursor (cursorValue h (next r))
          (set_items (default [] (results r)) s))).

(** The store after the failure [e] has been committed. *)
Definition failed (cfg : Config) (e : JS.Error) (s : Store) : Store :=
  set_loading false
    (set_previousCursor None
       (set_nextCursor None
          (set_items []
             (set_error (Some (messageOr e (failedMessage cfg))) s)))).

(** The page a store shows: the list and the two cursors. *)
Definition page (w : World) : list Item * option string * option string :=
  (items (store w), nextCursor (store w), previousCursor (store w)).

Definition pageOf (h : Host) (r : Response) : list Item * option string * option string :=
  (default [] (results r), cursorValue h (next r), cursorValue h (previous r)).


(** The handler is called again after each gap of the list. *)
Fixpoint burst (h : Host) (cfg : Config) (key : string)
    (rest : list (nat * string)) (w : World) : World :=
  match rest with
  | [] => w
  | (gap, value) :: rest' =>
      burst h cfg key rest'
        (Tracked.handleDebouncedFilter h cfg key value (Tracked.elapse h cfg gap w))
  end.

(** The last value of a burst that starts with [first]. *)
Definition lastValue (first : string) (rest : list (nat * string)) : string :=
  List.last (map snd rest) first.

(** The state between two calls of a burst on [key]: nothing fetched since
    [w0], one timer in the queue, installed by the last call and recorded
    under [key], and the filter set to the last value. *)
Definition pending (key : string) (w0 w : World) (value : string) : Prop :=
  fetches w = fetches w0
  /\ timeouts w = [mkTimeout (timerIds w) (now w + debounceDelay (store w0)) key]
  /\ _debounceTimers (store w) !! key = Some (Some (timerIds w))
  /\ 0 < timerIds w
  /\ filters (store w) = <[key := value]> (filters (store w0))
  /\ debounceDelay (store w) = debounceDelay (store w0).

(** *** Vocabulary of the further properties *)

(** A string that is empty or starts with a character that is not whitespace. *)
Definition headTrimmed (s : string) : Prop :=
  match s with
  | EmptyString => True
  | String c _ => JS.is_whitespace c = false
  end.

(** A fetch of the first page with no filter at all. *)
Definition unfiltered (f : Fetch) : Prop := fromFirstPage f /\ f_filters f = ∅.

(** A fetch of the page at [cursor] with the filters and page size of [w]. *)
Definition fetchAt (h : Host) (cfg : Config) (w : World) (cursor : string)
    (f : Fetch) : Prop :=
  f_cursor f = Some cursor
  /\ f_filters f = activeFiltersOf cfg h (filters (store w))
  /\ f_pageSize f = pageSize (store w).

(** A page whose next link is relative, which [new URL(url)] refuses. *)
Definition pageBrokenLink : Response :=
  mkResponse (Some ["AAPL"]) (Some "/api/tickers?cursor=n2") None.

(** [loading] is true only while a load is in flight. *)
Definition noIdleSpinner (w : World) : Prop :=
  loading (store w) = true -> inflight w <> [].

(** What a store with request tracking keeps: the tracking state is well
    formed, a load in flight has a current controller, and [loading] is true
    only while a load is in flight. *)
Definition trackedInvariant (w : World) : Prop :=
  wellTracked (tracking w)
  /\ (inflight w <> [] -> is_Some (_currentRequestController (store w)))
  /\ noIdleSpinner w.

(** A change that touches neither the tracking state, nor the loads in
    flight, nor [loading]. *)
Definition quiet (w w' : World) : Prop :=
  tracking w' = tracking w
  /\ inflight w' = inflight w
  /\ loading (store w') = loading (store w).

(** The parameters other than [page_size] and [cursor]. *)
Definition filterParams (filters : gmap string TransportValue)
    (stringFilterKeys booleanFilterKeys : list string) : list (string * string) :=
  flat_map (append_string_filter filters) stringFilterKeys
  ++ flat_map (append_boolean_filter filters) booleanFilterKeys.

(** The filter of [key] reaches the query as the active filters have it. *)
Definition forwards (params : list (string * string))
    (activeFilters : gmap string TransportValue) (key : string) : Prop :=
  forall v, In (key, v) params
            <-> exists value, activeFilters !! key = Some value /\ v = toString value.

(** The modal is closed, and its data are gone unless a callback that is due
    by [limit] is still to run; no callback is overdue. *)
Definition closing (limit : nat) (s : RunDetailsModal.State) : Prop :=
  RunDetailsModal.isOpen s = false
  /\ (RunDetailsModal.runData s = None
      \/ exists due, In due (RunDetailsModal.timers s) /\ due <= limit).

(** No underscore occurs in [s]. *)
Fixpoint noUnderscore (s : string) : bool :=
  match s with
  | EmptyString => true
  | String c s' => negb (Ascii.eqb c "_") && noUnderscore s'
  end.

(** A fetch of the first page with the filters of [w]. *)
Definition reloadOf (h : Host) (cfg : Config) (w : World) (f : Fetch) : Prop :=
  fromFirstPage f /\ f_filters f = activeFiltersOf cfg h (filters (store w)).

(** A cookie name or value as the browser keeps it: without semicolon and
    without whitespace; a name has no equals sign either. *)
Definition cookieText (s : string) : bool :=
  forallb (fun c => negb (Ascii.eqb c ";") && negb (JS.is_whitespace c))
    (list_ascii_of_string s).

(** A cookie name: cookie text without an equals sign. *)
Definition cookieName (s : string) : bool :=
  cookieText s && forallb (fun c => negb (Ascii.eqb c "=")) (list_ascii_of_string s).

(** [document.cookie] for a jar of cookies: [name=value] joined with ["; "]. *)
Fixpoint documentCookie (jar : list (string * string)) : string :=
  match jar with
  | [] => ""
  | [(name, value)] => name ++ "=" ++ value
  | (name, value) :: rest => name ++ "=" ++ value ++ "; " ++ documentCookie rest
  end.

(** The value of the first cookie of the jar called [name]. *)
Fixpoint firstCookie (name : string) (jar : list (string * string)) : option string :=
  match jar with
  | [] => None
  | (n, v) :: rest => if String.eqb n name then Some v else firstCookie name rest
  end.

(** The jar is one the browser can hold. *)
Definition wellFormedJar (jar : list (string * string)) : Prop :=
  Forall (fun nv => cookieName (fst nv) = true /\ cookieText (snd nv) = true) jar.




(** ** Cursor extraction *)

Lemma searchParams_get_hasParam (key : string) (params : list (string * string)) :
  if hasParam key params
  then exists token, searchParams_get key params = Some token /\ In (key, token) params
  else searchParams_get key params = None.
Proof.
  unfold hasParam.
  induction params as [|[k v] rest IH]; [reflexivity|].
  cbn [existsb searchParams_get fst].
  destruct (String.eqb k key) eqn:E; cbn [orb].
  - apply String.eqb_eq in E. subst k. exists v. split; [reflexivity | now left].
  - destruct (existsb _ rest).
    + destruct IH as [token [Hget Hin]]. exists token. split; [assumption | now right].
    + exact IH.
Qed.

(** C9.  For every host and every input string, [extractCursor] completes
    normally (it never throws) with a cursor or [null]: when the URL
    constructor throws on the reference the result is [null]; when the
    reference parses, the result is the value of its first [cursor] parameter,
    and [null] when it has none. *)
Theorem extractCursor_total (h : Host) (url : string) :
  exists c : option string,
    extractCursor h url = JS.Normal c /\
    match URL h url with
    | JS.Throw _ => c = None
    | JS.Normal params =>
        if hasParam "cursor" params
        then exists token, c = Some token /\ In ("cursor", token) params
        else c = None
    end.
Proof.
  unfold extractCursor, JS.try_catch, JS.bind.
  destruct (URL h url) as [params | e].
  - exists (searchParams_get "cursor" params). split; [reflexivity|].
    pose proof (searchParams_get_hasParam "cursor" params) as H.
    destruct (hasParam "cursor" params); exact H.
  - exists None. split; reflexivity.
Qed.

Lemma cursorOf_value (h : Host) (reference : option string) (w : World) :
  cursorOf h reference w = (JS.Normal (cursorValue h reference), w).
Proof.
  unfold cursorOf, cursorValue, ret, lift, extractCursor, JS.try_catch, JS.bind.
  destruct reference as [url|]; [|reflexivity].
  destruct (JS.truthy url); [|reflexivity].
  destruct (URL h url); reflexivity.
Qed.

(** ** Filters on the wire *)

Lemma string_filter_trim (raw : string) :
  string_filter raw =
  if JS.is_empty (JS.trim raw) then None else Some (TString (JS.trim raw)).
Proof.
  unfold string_filter. destruct raw as [|c raw]; [reflexivity|].
  change (JS.truthy (String c raw)) with true. cbn [andb].
  destruct (JS.is_empty (JS.trim (String c raw))); reflexivity.
Qed.

Lemma is_empty_true (s : string) : JS.is_empty s = true <-> s = "".
Proof. destruct s; simpl; split; congruence. Qed.

Lemma stocks_activeFilters_lookup (fs : gmap string string) (key : string) :
  stocks_activeFilters fs !! key =
  match fs !! key with
  | Some raw => if JS.is_empty (JS.trim raw) then None else Some (TString (JS.trim raw))
  | None => None
  end.
Proof.
  unfold stocks_activeFilters. rewrite lookup_omap.
  destruct (fs !! key) as [raw|]; simpl; [apply string_filter_trim | reflexivity].
Qed.

Lemma digits_nonempty (fuel n : nat) (c : ascii) (acc : string) :
  digits fuel n (String c acc) <> "".
Proof.
  revert n c acc. induction fuel as [|fuel IH]; intros n c acc; cbn [digits].
  - done.
  - destruct (Nat.eqb (n / 10) 0); [done | apply IH].
Qed.

Lemma number_toString_nonempty (n : nat) : number_toString n <> "".
Proof.
  unfold number_toString. cbn [digits].
  destruct (Nat.eqb (n / 10) 0); [done | apply digits_nonempty].
Qed.

Lemma toString_stocks_nonempty (fs : gmap string string) (key : string)
    (value : TransportValue) :
  stocks_activeFilters fs !! key = Some value ->
  exists raw, fs !! key = Some raw /\ value = TString (JS.trim raw)
              /\ JS.trim raw <> "".
Proof.
  rewrite stocks_activeFilters_lookup.
  destruct (fs !! key) as [raw|]; [|discriminate].
  destruct (JS.is_empty (JS.trim raw)) eqn:E; [discriminate|].
  intros Hv. injection Hv as <-. exists raw. repeat split.
  intros Heq. rewrite Heq in E. discriminate.
Qed.

(** C8.  In the stocks list store a filter whose raw value is empty or only
    whitespace is absent from [activeFilters] and from the query parameters
    the API client builds from it; no parameter is ever sent with the value
    [""]; and every value of [activeFilters] is the raw value trimmed. *)
Theorem blank_filters_never_sent (fs : gmap string string) (key raw : string)
    (pageSize : nat) (cursor : option string)
    (stringFilterKeys booleanFilterKeys : list string) :
  fs !! key = Some raw ->
  JS.trim raw = "" ->
  let params :=
    buildQueryParams pageSize cursor (stocks_activeFilters fs)
      stringFilterKeys booleanFilterKeys in
  stocks_activeFilters fs !! key = None
  /\ (forall value, In (key, value) params -> key = "page_size" \/ key = "cursor")
  /\ Forall (fun kv => snd kv <> "") params
  /\ (forall k value,
        stocks_activeFilters fs !! k = Some value ->
        exists raw', fs !! k = Some raw' /\ value = TString (JS.trim raw')
                     /\ JS.trim raw' <> "").
Proof.
  intros Hkey Hblank params.
  assert (Habsent : stocks_activeFilters fs !! key = None).
  { rewrite stocks_activeFilters_lookup, Hkey, Hblank. reflexivity. }
  split; [exact Habsent|]. split; [|split].
  - intros value Hin. unfold params, buildQueryParams in Hin.
    rewrite !in_app_iff in Hin. destruct Hin as [Hin | [Hin | [Hin | Hin]]].
    + destruct (Nat.eqb pageSize 0); [destruct Hin|].
      destruct Hin as [[= <- _] | []]. now left.
    + destruct cursor as [c|]; [|destruct Hin].
      destruct (JS.truthy c); [|destruct Hin].
      destruct Hin as [[= <- _] | []]. now right.
    + apply in_flat_map in Hin. destruct Hin as [k [_ Hin]].
      unfold append_string_filter in Hin.
      destruct (stocks_activeFilters fs !! k) as [v|] eqn:Hk; [|destruct Hin].
      assert (Hkv : In (key, value) [(k, toString v)]).
      { destruct v as [[|a s]|b]; [destruct Hin | exact Hin | exact Hin]. }
      destruct Hkv as [[= -> _] | []]. congruence.
    + apply in_flat_map in Hin. destruct Hin as [k [_ Hin]].
      unfold append_boolean_filter in Hin.
      destruct (stocks_activeFilters fs !! k) as [v|] eqn:Hk; [|destruct Hin].
      destruct Hin as [[= -> _] | []]. congruence.
  - unfold params, buildQueryParams. rewrite !Forall_app. repeat split.
    + destruct (Nat.eqb pageSize 0); constructor; [|constructor].
      apply number_toString_nonempty.
    + destruct cursor as [c|]; [|constructor].
      destruct c; simpl; constructor; [done | constructor].
    + apply Forall_flat_map, Forall_forall. intros k _.
      unfold append_string_filter.
      destruct (stocks_activeFilters fs !! k) as [v|] eqn:Hk; [|constructor].
      destruct (toString_stocks_nonempty _ _ _ Hk) as [raw' [_ [-> Hne]]].
      destruct (JS.trim raw'); [congruence|].
      constructor; [done | constructor].
    + apply Forall_flat_map, Forall_forall. intros k _.
      unfold append_boolean_filter.
      destruct (stocks_activeFilters fs !! k) as [v|] eqn:Hk; [|constructor].
      destruct (toString_stocks_nonempty _ _ _ Hk) as [raw' [_ [-> Hne]]].
      constructor; [exact Hne | constructor].
  - intros k value. apply toString_stocks_nonempty.
Qed.

Lemma blank_filters_never_sent_witness :
  let fs : gmap string string :=
    <["ticker__icontains" := " aapl "]> (<["country" := "  "]> stocks_filters) in
  stocks_activeFilters fs !! "country" = None
  /\ buildQueryParams 50 None (stocks_activeFilters fs) tickers_stringFilterKeys []
     = [("page_size", "50"); ("ticker__icontains", "aapl")].
Proof.
  intros fs.
  split.
  - exact (proj1 (blank_filters_never_sent fs "country" "  " 50 None
                    tickers_stringFilterKeys [] eq_refl eq_refl)).
  - reflexivity.
Defined.

(** ** What a load does when it is called *)

Section Loads.

Variable h : Host.
Variable cfg : Config.

Lemma tracked_load_registered (cursor : option string) (w : World) :
  apiRegistered h = true ->
  Tracked.load h cfg cursor w =
  mkWorld (trackedAtAwait w) (abortedAfterLoad w) (S (controllers w))
    (inflight w ++ [controllers w])
    (mkFetch (pageSize (store w)) cursor
       (activeFiltersOf cfg h (filters (store w))) (trackedAtAwait w) :: fetches w)
    (now w) (timeouts w) (timerIds w).
Proof.
  intros Hapi.
  unfold Tracked.load, Tracked.load_untilAwait, Tracked.abortCurrent,
    Tracked.newAbortController, andThen, assign, read, ret, throw, callApi,
    abortedAfterLoad, trackedAtAwait.
  rewrite Hapi.
  destruct (_currentRequestController (store w)); reflexivity.
Qed.

Lemma plain_load_registered (cursor : option string) (w : World) :
  apiRegistered h = true ->
  Plain.load h cfg cursor w =
  mkWorld (plainAtAwait w) (aborted w) (controllers w)
    (inflight w ++ [length (fetches w)])
    (mkFetch (pageSize (store w)) cursor
       (activeFiltersOf cfg h (filters (store w))) (plainAtAwait w) :: fetches w)
    (now w) (timeouts w) (timerIds w).
Proof.
  intros Hapi.
  unfold Plain.load, Plain.load_untilAwait, andThen, assign, read, ret, throw,
    callApi, plainAtAwait.
  rewrite Hapi. reflexivity.
Qed.

End Loads.

(** ** Paging without a cursor *)

(** C10.  In every list store, [nextPage()] with [nextCursor] absent and
    [previousPage()] with [previousCursor] absent leave the whole world as it
    was: the store (items, cursors, loading, error, filters), the calls made
    to the API client, the loads in flight and the timers. *)
Theorem paging_without_cursor_is_noop (h : Host) (cfg : Config) (w : World) :
  (nextCursor (store w) = None ->
     Tracked.nextPage h cfg w = w /\ Plain.nextPage h cfg w = w)
  /\ (previousCursor (store w) = None ->
     Tracked.previousPage h cfg w = w /\ Plain.previousPage h cfg w = w).
Proof.
  unfold Tracked.nextPage, Plain.nextPage, Tracked.previousPage, Plain.previousPage.
  split; intros ->; split; reflexivity.
Qed.

Lemma paging_without_cursor_is_noop_witness :
  (Tracked.nextPage Example.host stocksList stocksList_init = stocksList_init
   /\ Plain.nextPage Example.host stocksList stocksList_init = stocksList_init)
  /\ (Tracked.previousPage Example.host stocksList stocksList_init = stocksList_init
      /\ Plain.previousPage Example.host stocksList stocksList_init = stocksList_init).
Proof.
  destruct (paging_without_cursor_is_noop Example.host stocksList stocksList_init)
    as [Hnext Hprevious].
  split; [exact (Hnext eq_refl) | exact (Hprevious eq_refl)].
Defined.

(** ** Filter changes restart pagination *)

Lemma tracked_reset_then_load (h : Host) (cfg : Config) (w : World) :
  apiRegistered h = true ->
  oneFetch w (Tracked.load h cfg None (snd (Tracked.resetCursors w)))
    (fun f => fromFirstPage f
              /\ f_filters f = activeFiltersOf cfg h (filters (store w))).
Proof.
  intros Hapi. rewrite tracked_load_registered by assumption.
  eexists. split; [reflexivity|]. repeat split.
Qed.

Lemma plain_reset_then_load (h : Host) (cfg : Config) (w : World) :
  apiRegistered h = true ->
  oneFetch w (Plain.load h cfg None (snd (Plain.resetCursors w)))
    (fun f => fromFirstPage f
              /\ f_filters f = activeFiltersOf cfg h (filters (store w))).
Proof.
  intros Hapi. rewrite plain_load_registered by assumption.
  eexists. split; [reflexivity|]. repeat split.
Qed.

Lemma oneFetch_weaken (w w' : World) (P Q : Fetch -> Prop) :
  (forall f, P f -> Q f) -> oneFetch w w' P -> oneFetch w w' Q.
Proof. intros HPQ [f [Hf HP]]. exists f. split; [exact Hf | apply HPQ, HP]. Qed.

(** C3.  In the stores with and without request tracking, [applyFilters()]
    and [clearFilters()] make exactly one call to the API client, and at the
    moment of that call [nextCursor] and [previousCursor] of the store are
    already [null] and the cursor passed is [null]. *)
Theorem filter_change_resets_cursors_first (h : Host) (cfg : Config) (w : World) :
  apiRegistered h = true ->
  oneFetch w (Tracked.applyFilters h cfg w) fromFirstPage
  /\ oneFetch w (Tracked.clearFilters h cfg w) fromFirstPage
  /\ oneFetch w (Plain.applyFilters h cfg w) fromFirstPage
  /\ oneFetch w (Plain.clearFilters h cfg w) fromFirstPage.
Proof.
  intros Hapi. repeat split.
  - eapply oneFetch_weaken; [|apply tracked_reset_then_load; assumption].
    intros f [Hf _]. exact Hf.
  - unfold Tracked.clearFilters, Tracked.applyFilters.
    eapply oneFetch_weaken;
      [|apply (tracked_reset_then_load h cfg
                 (with_store (set_filters (clearedFilters cfg)
                                (store (Tracked.clearAllTimers w)))
                    (Tracked.clearAllTimers w))); assumption].
    intros f [Hf _]. exact Hf.
  - eapply oneFetch_weaken; [|apply plain_reset_then_load; assumption].
    intros f [Hf _]. exact Hf.
  - unfold Plain.clearFilters, Plain.applyFilters.
    eapply oneFetch_weaken;
      [|apply (plain_reset_then_load h cfg
                 (with_store (set_filters (clearedFilters cfg) (store w)) w));
        assumption].
    intros f [Hf _]. exact Hf.
Qed.

Lemma filter_change_resets_cursors_first_witness :
  let w := with_store (set_nextCursor (Some "n2") (store stocksList_init))
             stocksList_init in
  oneFetch w (Tracked.applyFilters Example.host stocksList w) fromFirstPage
  /\ oneFetch w (Tracked.clearFilters Example.host stocksList w) fromFirstPage
  /\ oneFetch w (Plain.applyFilters Example.host stocksList w) fromFirstPage
  /\ oneFetch w (Plain.clearFilters Example.host stocksList w) fromFirstPage.
Proof.
  intros w.
  exact (filter_change_resets_cursors_first Example.host stocksList w eq_refl).
Defined.

(** ** Clearing a filter through the debounced handler *)

(** C5.  In the stores with debounce, for every filter key,
    [handleDebouncedFilter(key, value)] with a value that is empty or trims to
    empty calls the API client in the same step: the call starts from the first
    page with both cursors of the store already [null], the clock has not
    advanced and [setTimeout] has not been called. *)
Theorem empty_value_fetches_immediately (h : Host) (cfg : Config)
    (filterKey value : string) (w : World) :
  apiRegistered h = true ->
  JS.trim value = "" ->
  let w' := Tracked.handleDebouncedFilter h cfg filterKey value w in
  oneFetch w w' fromFirstPage
  /\ now w' = now w
  /\ timerIds w' = timerIds w
  /\ filters (store w') = <[filterKey := value]> (filters (store w)).
Proof.
  intros Hapi Hblank w'. unfold w', Tracked.handleDebouncedFilter.
  rewrite Hblank. cbn [JS.is_empty].
  match goal with
  | |- context [Tracked.load h cfg None (snd (Tracked.resetCursors ?x))] =>
      set (w2 := x)
  end.
  assert (Hfetches : fetches w2 = fetches w).
  { unfold w2. destruct (Tracked.timerOf _); reflexivity. }
  assert (Hnow : now w2 = now w).
  { unfold w2. destruct (Tracked.timerOf _); reflexivity. }
  assert (Hids : timerIds w2 = timerIds w).
  { unfold w2. destruct (Tracked.timerOf _); reflexivity. }
  assert (Hfilters : filters (store w2) = <[filterKey := value]> (filters (store w))).
  { unfold w2. destruct (Tracked.timerOf _); reflexivity. }
  destruct (tracked_reset_then_load h cfg w2 Hapi) as [f [Hf [Hfirst _]]].
  repeat split.
  - exists f. split; [rewrite Hf, Hfetches; reflexivity | exact Hfirst].
  - rewrite tracked_load_registered by assumption. exact Hnow.
  - rewrite tracked_load_registered by assumption. exact Hids.
  - rewrite tracked_load_registered by assumption. exact Hfilters.
Qed.

Lemma empty_value_fetches_immediately_witness :
  let w := Tracked.handleDebouncedFilter Example.host stocksList
             "ticker__icontains" "aa" stocksList_init in
  let w' := Tracked.handleDebouncedFilter Example.host stocksList
              "ticker__icontains" "  " w in
  oneFetch w w' fromFirstPage
  /\ now w' = now w
  /\ timerIds w' = timerIds w
  /\ filters (store w') = <["ticker__icontains" := "  "]> (filters (store w)).
Proof.
  intros w.
  exact (empty_value_fetches_immediately Example.host stocksList
           "ticker__icontains" "  " w eq_refl eq_refl).
Defined.

(** ** Date bounds *)

Section DateBounds.

Local Open Scope Z_scope.


End DateBounds.



(** ** Request tracking: which controller is current, which are aborted *)

(** *** Statements that keep a relation between the world before and after *)

Section Keeps.

Variable R : World -> World -> Prop.
Hypothesis R_refl : forall w, R w w.
Hypothesis R_trans : forall w1 w2 w3, R w1 w2 -> R w2 w3 -> R w1 w3.

Lemma keeps_ret {A} (a : A) : keeps R (ret a).
Proof. intros w. apply R_refl. Qed.

Lemma keeps_throw {A} (e : JS.Error) : keeps R (@throw A e).
Proof. intros w. apply R_refl. Qed.

Lemma keeps_lift {A} (c : JS.completion A) : keeps R (lift c).
Proof. intros w. apply R_refl. Qed.

Lemma keeps_read {A} (f : World -> A) : keeps R (read f).
Proof. intros w. apply R_refl. Qed.

Lemma keeps_cursorOf (h : Host) (reference : option string) :
  keeps R (cursorOf h reference).
Proof. intros w. rewrite cursorOf_value. apply R_refl. Qed.

Lemma keeps_andThen {A B} (m : Act A) (k : A -> Act B) :
  keeps R m -> (forall a, keeps R (k a)) -> keeps R (andThen m k).
Proof.
  intros Hm Hk w. unfold andThen. specialize (Hm w).
  destruct (m w) as [[a|e] w']; cbn [snd] in *.
  - eapply R_trans; [exact Hm | apply Hk].
  - exact Hm.
Qed.

Lemma keeps_tryCatch {A} (body : Act A) (handler : JS.Error -> Act A) :
  keeps R body -> (forall e, keeps R (handler e)) -> keeps R (tryCatch body handler).
Proof.
  intros Hm Hk w. unfold tryCatch. specialize (Hm w).
  destruct (body w) as [[a|e] w']; cbn [snd] in *.
  - exact Hm.
  - eapply R_trans; [exact Hm | apply Hk].
Qed.

Lemma keeps_tryFinally {A} (body : Act A) (cleanup : Act unit) :
  keeps R body -> keeps R cleanup -> keeps R (tryFinally body cleanup).
Proof.
  intros Hm Hk w. unfold tryFinally. specialize (Hm w).
  destruct (body w) as [c w']; cbn [snd] in *.
  specialize (Hk w'). destruct (cleanup w') as [[u|e] w'']; cbn [snd] in *;
    eapply R_trans; eassumption.
Qed.

Lemma keeps_if {A} (b : bool) (m1 m2 : Act A) :
  keeps R m1 -> keeps R m2 -> keeps R (if b then m1 else m2).
Proof. destruct b; auto. Qed.

End Keeps.

Lemma sameFrame_refl (w : World) : sameFrame w w.
Proof. reflexivity. Qed.

Lemma sameFrame_trans (w1 w2 w3 : World) :
  sameFrame w1 w2 -> sameFrame w2 w3 -> sameFrame w1 w3.
Proof. unfold sameFrame. congruence. Qed.

Lemma sameFrame_tracking (w w' : World) : sameFrame w w' -> tracking w' = tracking w.
Proof.
  unfold sameFrame, frame, tracking. intros H. injection H. intros. congruence.
Qed.

Ltac keeps_frame :=
  repeat first
    [ exact sameFrame_refl
    | exact sameFrame_trans
    | match goal with |- forall _, keeps _ _ => intros ? end
    | apply keeps_andThen
    | apply keeps_tryCatch
    | apply keeps_tryFinally
    | apply keeps_if
    | apply keeps_ret
    | apply keeps_throw
    | apply keeps_read
    | apply keeps_cursorOf
    | match goal with |- keeps _ (match ?x with _ => _ end) => destruct x end
    | (intros ?; reflexivity) ].

Section TrackingFacts.

Variable h : Host.
Variable cfg : Config.

Lemma wellTracked_loadT (t : Tracking) : wellTracked t -> wellTracked (loadT t).
Proof.
  intros [Hab Hcur]. split.
  - intros x Hx. cbn in *. destruct (t_current t) as [c|] eqn:Hc.
    + apply elem_of_union in Hx. destruct Hx as [Hx|Hx].
      * apply elem_of_singleton in Hx. subst x.
        destruct (Hcur c eq_refl) as [Hlt _]. lia.
      * specialize (Hab x Hx). lia.
    + specialize (Hab x Hx). lia.
  - intros c Hc. cbn in *. injection Hc as <-. split; [lia|].
    destruct (t_current t) as [c|] eqn:Hc.
    + intros Hx. apply elem_of_union in Hx. destruct Hx as [Hx|Hx].
      * apply elem_of_singleton in Hx.
        destruct (Hcur c eq_refl) as [Hlt _]. lia.
      * specialize (Hab _ Hx). lia.
    + intros Hx. specialize (Hab _ Hx). lia.
Qed.

Lemma wellTracked_advances (t t' : Tracking) :
  advances t t' -> wellTracked t -> wellTracked t'.
Proof.
  induction 1 as [|t u t' Hu _ IH]; [auto|].
  intros Ht. apply IH. subst u. now apply wellTracked_loadT.
Qed.

Lemma aborted_loadT (a : nat) (t : Tracking) :
  a ∈ t_aborted t -> a ∈ t_aborted (loadT t).
Proof.
  intros Ha. cbn. destruct (t_current t); [apply elem_of_union; now right | exact Ha].
Qed.

Lemma aborted_advances (a : nat) (t t' : Tracking) :
  advances t t' -> a ∈ t_aborted t -> a ∈ t_aborted t'.
Proof.
  induction 1 as [|t u t' Hu _ IH]; [auto|].
  intros Ha. apply IH. subst u. now apply aborted_loadT.
Qed.

Lemma currentOrAborted_loadT (a : nat) (t : Tracking) :
  currentOrAborted a t -> a ∈ t_aborted (loadT t) /\ currentOrAborted a (loadT t).
Proof.
  intros [Hlt Hor].
  assert (Ha : a ∈ t_aborted (loadT t)).
  { destruct Hor as [Ha | Hc].
    - now apply aborted_loadT.
    - cbn. rewrite Hc. apply elem_of_union. left. now apply elem_of_singleton. }
  split; [exact Ha|]. split; [cbn; lia | now left].
Qed.

Lemma currentOrAborted_advances (a : nat) (t t' : Tracking) :
  advances t t' -> currentOrAborted a t -> currentOrAborted a t'.
Proof.
  induction 1 as [|t u t' Hu _ IH]; [auto|].
  intros Ha. apply IH. subst u. now apply currentOrAborted_loadT.
Qed.

Lemma keeps_frame_catch (error : JS.Error) :
  keeps sameFrame (Tracked.load_catch cfg error).
Proof. unfold Tracked.load_catch. keeps_frame. Qed.

Lemma keeps_frame_finally : keeps sameFrame (Tracked.load_finally).
Proof. unfold Tracked.load_finally. keeps_frame. Qed.

Lemma keeps_frame_afterAwait (signal : nat) (outcome : Outcome) :
  keeps sameFrame (Tracked.load_afterAwait h signal outcome).
Proof. unfold Tracked.load_afterAwait. keeps_frame. Qed.

Lemma tracked_load_unregistered (cursor : option string) (w : World) :
  apiRegistered h = false ->
  Tracked.load_untilAwait h cfg cursor w =
  (JS.Throw (JS.mkError "Error" (apiMissingMessage cfg)),
   mkWorld (trackedAtAwait w) (abortedAfterLoad w) (S (controllers w))
     (inflight w) (fetches w) (now w) (timeouts w) (timerIds w)).
Proof.
  intros Hapi.
  unfold Tracked.load_untilAwait, Tracked.abortCurrent,
    Tracked.newAbortController, andThen, assign, read, ret, throw, callApi,
    abortedAfterLoad, trackedAtAwait.
  rewrite Hapi.
  destruct (_currentRequestController (store w)); reflexivity.
Qed.

Lemma frame_load_unregistered (cursor : option string) (w : World) :
  apiRegistered h = false ->
  frame (Tracked.load h cfg cursor w) =
  frame (mkWorld (trackedAtAwait w) (abortedAfterLoad w) (S (controllers w))
           (inflight w) (fetches w) (now w) (timeouts w) (timerIds w)).
Proof.
  intros Hapi. unfold Tracked.load. rewrite tracked_load_unregistered by assumption.
  apply (keeps_tryFinally sameFrame sameFrame_trans);
    [apply keeps_frame_catch | apply keeps_frame_finally].
Qed.

Lemma tracking_load (cursor : option string) (w : World) :
  tracking (Tracked.load h cfg cursor w) = loadT (tracking w).
Proof.
  destruct (apiRegistered h) eqn:Hapi.
  - rewrite tracked_load_registered by assumption. reflexivity.
  - etransitivity;
      [apply sameFrame_tracking, (frame_load_unregistered cursor w Hapi)|].
    reflexivity.
Qed.

Lemma frame_settle (signal : nat) (outcome : Outcome) (w : World) :
  frame (Tracked.settle h cfg signal outcome w) =
  frame (if bool_decide (signal ∈ inflight w)
         then with_inflight (filter (fun s => s ≠ signal) (inflight w)) w
         else w).
Proof.
  unfold Tracked.settle. destruct (bool_decide (signal ∈ inflight w)); [|reflexivity].
  apply (keeps_tryFinally sameFrame sameFrame_trans);
    [apply (keeps_tryCatch sameFrame sameFrame_trans);
     [apply keeps_frame_afterAwait | apply keeps_frame_catch]
    | apply keeps_frame_finally].
Qed.

Lemma tracking_settle (signal : nat) (outcome : Outcome) (w : World) :
  tracking (Tracked.settle h cfg signal outcome w) = tracking w.
Proof.
  etransitivity; [apply sameFrame_tracking, frame_settle|].
  destruct (bool_decide (signal ∈ inflight w)); reflexivity.
Qed.

Lemma inflight_settle (signal other : nat) (outcome : Outcome) (w : World) :
  other <> signal ->
  other ∈ inflight w ->
  other ∈ inflight (Tracked.settle h cfg signal outcome w).
Proof.
  intros Hne Hin.
  pose proof (frame_settle signal outcome w) as H.
  assert (Heq : inflight (Tracked.settle h cfg signal outcome w)
                = inflight (if bool_decide (signal ∈ inflight w)
                            then with_inflight
                                   (filter (fun s => s ≠ signal) (inflight w)) w
                            else w)).
  { unfold frame in H. injection H. intros. assumption. }
  rewrite Heq. destruct (bool_decide (signal ∈ inflight w)); [|exact Hin].
  cbn [inflight with_inflight]. apply list_elem_of_filter. split; assumption.
Qed.

End TrackingFacts.

Section TrackingSteps.

Variable h : Host.
Variable cfg : Config.

Lemma advances_refl (t : Tracking) : advances t t.
Proof. apply rtc_refl. Qed.

Lemma advances_load (t : Tracking) : advances t (loadT t).
Proof. apply rtc_once. reflexivity. Qed.

Lemma advances_trans (t1 t2 t3 : Tracking) :
  advances t1 t2 -> advances t2 t3 -> advances t1 t3.
Proof. apply rtc_trans. Qed.

Lemma advances_eq (t t' : Tracking) : t' = t -> advances t t'.
Proof. intros ->. apply advances_refl. Qed.

Lemma advances_applyFilters (w : World) :
  advances (tracking w) (tracking (Tracked.applyFilters h cfg w)).
Proof.
  unfold Tracked.applyFilters. rewrite tracking_load. apply advances_load.
Qed.

Lemma advances_clearFilters (w : World) :
  advances (tracking w) (tracking (Tracked.clearFilters h cfg w)).
Proof.
  unfold Tracked.clearFilters, Tracked.applyFilters. rewrite tracking_load.
  apply advances_load.
Qed.

Lemma advances_nextPage (w : World) :
  advances (tracking w) (tracking (Tracked.nextPage h cfg w)).
Proof.
  unfold Tracked.nextPage. destruct (JS.truthy_opt _); [|apply advances_refl].
  rewrite tracking_load. apply advances_load.
Qed.

Lemma advances_previousPage (w : World) :
  advances (tracking w) (tracking (Tracked.previousPage h cfg w)).
Proof.
  unfold Tracked.previousPage. destruct (JS.truthy_opt _); [|apply advances_refl].
  rewrite tracking_load. apply advances_load.
Qed.

Lemma advances_handleDebouncedFilter (filterKey value : string) (w : World) :
  advances (tracking w)
    (tracking (Tracked.handleDebouncedFilter h cfg filterKey value w)).
Proof.
  unfold Tracked.handleDebouncedFilter.
  destruct (JS.is_empty (JS.trim value)).
  - rewrite tracking_load.
    destruct (Tracked.timerOf _); apply advances_load.
  - destruct (Tracked.timerOf _); apply advances_refl.
Qed.

Lemma advances_debounceCallback (key : string) (w : World) :
  advances (tracking w) (tracking (Tracked.debounceCallback h cfg key w)).
Proof.
  unfold Tracked.debounceCallback, Tracked.setTimer.
  change (tracking (with_store _ ?x)) with (tracking x).
  rewrite tracking_load. apply advances_load.
Qed.

Lemma advances_runDue (queue : list Timeout) (w : World) :
  advances (tracking w) (tracking (Tracked.runDue h cfg queue w)).
Proof.
  revert w. induction queue as [|t rest IH]; intros w; cbn [Tracked.runDue].
  - apply advances_refl.
  - destruct (_ && _); [|apply IH].
    eapply advances_trans; [|apply IH].
    apply (advances_debounceCallback (filterKey t)
             (Tracked.clearTimeout (timerId t) w)).
Qed.

Lemma advances_elapse (ms : nat) (w : World) :
  advances (tracking w) (tracking (Tracked.elapse h cfg ms w)).
Proof.
  revert w. induction ms as [|ms IH]; intros w; cbn [Tracked.elapse].
  - apply advances_refl.
  - eapply advances_trans; [|apply IH].
    unfold Tracked.tick. apply (advances_runDue _ (with_now (S (now w)) w)).
Qed.

Lemma advances_step (w : World) (e : Tracked.Event) :
  advances (tracking w) (tracking (Tracked.step h cfg w e)).
Proof.
  destruct e; cbn [Tracked.step].
  - rewrite tracking_load. apply advances_load.
  - apply advances_applyFilters.
  - apply advances_clearFilters.
  - apply advances_nextPage.
  - apply advances_previousPage.
  - apply advances_handleDebouncedFilter.
  - rewrite tracking_settle. apply advances_refl.
  - apply advances_elapse.
Qed.

Lemma advances_run (es : list Tracked.Event) (w : World) :
  advances (tracking w) (tracking (Tracked.run h cfg w es)).
Proof.
  revert w. induction es as [|e es IH]; intros w; cbn [Tracked.run fold_left].
  - apply advances_refl.
  - eapply advances_trans; [apply advances_step | apply IH].
Qed.

End TrackingSteps.

(** ** What a settling load commits *)

Section Settling.

Variable h : Host.
Variable cfg : Config.

Ltac run_settle :=
  unfold Tracked.settle, Tracked.load_afterAwait, Tracked.load_catch,
    Tracked.load_finally, Tracked.currentAborted, tryFinally, tryCatch, andThen,
    assign, read, ret, throw;
  cbn [fst snd store aborted controllers inflight fetches now timeouts timerIds
       with_store with_inflight _currentRequestController set_items set_loading
       set_error set_nextCursor set_previousCursor].

(** A fulfilled load whose signal is aborted commits nothing: at most it
    clears [loading]. *)
Lemma settle_superseded_fulfilled (signal : nat) (r : Response) (w : World) :
  signal ∈ aborted w ->
  store (Tracked.settle h cfg signal (Fulfilled r) w) =
  if bool_decide (signal ∈ inflight w) then set_loading false (store w)
  else store w.
Proof.
  intros Hab. run_settle.
  destruct (bool_decide (signal ∈ inflight w)); [|reflexivity].
  cbn [aborted with_inflight].
  rewrite (bool_decide_eq_true_2 _ Hab).
  cbn.
  destruct (_ && _); reflexivity.
Qed.

Lemma settle_current_fulfilled (signal : nat) (r : Response) (w : World) :
  signal ∈ inflight w ->
  signal ∉ aborted w ->
  _currentRequestController (store w) = Some signal ->
  store (Tracked.settle h cfg signal (Fulfilled r) w) = committed h r (store w).
Proof.
  intros Hin Hab Hcur. run_settle.
  rewrite (bool_decide_eq_true_2 _ Hin).
  cbn [aborted with_inflight].
  rewrite (bool_decide_eq_false_2 _ Hab).
  rewrite !cursorOf_value. cbn.
  rewrite Hcur. rewrite (bool_decide_eq_false_2 _ Hab).
  reflexivity.
Qed.

(** The [catch] block asks whether the current controller is aborted, not
    whether the signal of the failing call is: while the current controller is
    not aborted, the rejection of any load in flight, superseded or not, is
    committed as a failure. *)
Lemma settle_rejected_commits (signal current : nat) (e : JS.Error) (w : World) :
  signal ∈ inflight w ->
  _currentRequestController (store w) = Some current ->
  current ∉ aborted w ->
  JS.name e <> "AbortError" ->
  store (Tracked.settle h cfg signal (Rejected e) w) = failed cfg e (store w).
Proof.
  intros Hin Hcur Hab Hname. run_settle.
  rewrite (bool_decide_eq_true_2 _ Hin).
  cbn. rewrite Hcur. rewrite (bool_decide_eq_false_2 _ Hab).
  apply String.eqb_neq in Hname. rewrite Hname. cbn.
  rewrite Hcur. rewrite (bool_decide_eq_false_2 _ Hab).
  reflexivity.
Qed.

Lemma settle_current_rejected (signal : nat) (e : JS.Error) (w : World) :
  signal ∈ inflight w ->
  signal ∉ aborted w ->
  _currentRequestController (store w) = Some signal ->
  JS.name e <> "AbortError" ->
  store (Tracked.settle h cfg signal (Rejected e) w) = failed cfg e (store w).
Proof.
  intros Hin Hab Hcur Hname. now apply (settle_rejected_commits signal signal).
Qed.

Lemma plain_settle_fulfilled (call : nat) (r : Response) (w : World) :
  call ∈ inflight w ->
  store (Plain.settle h cfg call (Fulfilled r) w) = committed h r (store w).
Proof.
  intros Hin.
  unfold Plain.settle, Plain.load_afterAwait, Plain.load_catch, Plain.load_finally,
    tryFinally, tryCatch, andThen, assign, read, ret, throw.
  rewrite (bool_decide_eq_true_2 _ Hin). rewrite !cursorOf_value. reflexivity.
Qed.

Lemma plain_settle_rejected (call : nat) (e : JS.Error) (w : World) :
  call ∈ inflight w ->
  store (Plain.settle h cfg call (Rejected e) w) = failed cfg e (store w).
Proof.
  intros Hin.
  unfold Plain.settle, Plain.load_afterAwait, Plain.load_catch, Plain.load_finally,
    tryFinally, tryCatch, andThen, assign, read, ret, throw.
  rewrite (bool_decide_eq_true_2 _ Hin). reflexivity.
Qed.

Lemma plain_settle_frame (call : nat) (outcome : Outcome) (w : World) :
  call ∈ inflight w ->
  fetches (Plain.settle h cfg call outcome w) = fetches w
  /\ inflight (Plain.settle h cfg call outcome w)
     = filter (fun c => c ≠ call) (inflight w).
Proof.
  intros Hin.
  unfold Plain.settle, Plain.load_afterAwait, Plain.load_catch, Plain.load_finally,
    tryFinally, tryCatch, andThen, assign, read, ret, throw.
  rewrite (bool_decide_eq_true_2 _ Hin).
  destruct outcome; rewrite ?cursorOf_value; split; reflexivity.
Qed.

End Settling.


Lemma tracking_fields (w w' : World) :
  tracking w' = tracking w ->
  aborted w' = aborted w
  /\ controllers w' = controllers w
  /\ _currentRequestController (store w') = _currentRequestController (store w).
Proof. unfold tracking. intros H. injection H. auto. Qed.

(** ** Supersession *)

(** C1, as the claim states it, fails: the runs list store of
    ingestion_runs/listStore.js keeps no track of the request it issued last.
    Two loads are issued, the second is fulfilled first and its page is
    committed; when the first is fulfilled afterwards, its page replaces it. *)
Lemma late_response_overwrites_untracked :
  let w := Plain.run Example.host runsList runsList_init
             [Plain.Load None; Plain.Load None;
              Plain.Settle 1 (Fulfilled Example.pageB)] in
  page w = (["MSFT"], None, Some "p1")
  /\ page (Plain.settle Example.host runsList 0 (Fulfilled Example.pageA) w)
     = (["AAPL"; "AMZN"], Some "n2", None).
Proof. vm_compute. split; reflexivity. Qed.

Section LatestWins.

Variable h : Host.
Variable cfg : Config.
Hypothesis registered : apiRegistered h = true.

(** Right after a load, the controller it allocated is current, in flight and
    not aborted. *)
Lemma load_is_current (cursor : option string) (w : World) :
  wellTracked (tracking w) ->
  let w' := Tracked.load h cfg cursor w in
  _currentRequestController (store w') = Some (controllers w)
  /\ controllers w ∈ inflight w'
  /\ controllers w ∉ aborted w'.
Proof.
  intros Hwt w'.
  assert (Hwt' : wellTracked (tracking w')).
  { unfold w'. rewrite tracking_load. now apply wellTracked_loadT. }
  assert (Hcur : _currentRequestController (store w') = Some (controllers w)).
  { unfold w'. rewrite tracked_load_registered by assumption. reflexivity. }
  split; [exact Hcur|]. split.
  - unfold w'. rewrite tracked_load_registered by assumption.
    cbn [inflight]. apply elem_of_app. right. now apply list_elem_of_singleton.
  - destruct Hwt' as [_ Hc]. apply (Hc _ Hcur).
Qed.

(** A load that was issued before a later load has its signal aborted from
    then on, whatever else happens to the store. *)
Lemma earlier_signal_is_aborted (w0 : World) (cA cB : option string)
    (es1 es2 : list Tracked.Event) :
  let w1 := Tracked.run h cfg (Tracked.load h cfg cA w0) es1 in
  let w2 := Tracked.run h cfg (Tracked.load h cfg cB w1) es2 in
  controllers w0 < controllers w1 /\ controllers w0 ∈ aborted w2.
Proof.
  intros w1 w2.
  assert (HA : currentOrAborted (controllers w0) (tracking (Tracked.load h cfg cA w0))).
  { rewrite tracking_load. split; cbn; [lia | now right]. }
  assert (H1 : currentOrAborted (controllers w0) (tracking w1)).
  { eapply currentOrAborted_advances; [apply advances_run | exact HA]. }
  split; [exact (proj1 H1)|].
  assert (HB : controllers w0 ∈ t_aborted (tracking (Tracked.load h cfg cB w1))).
  { rewrite tracking_load. apply currentOrAborted_loadT, H1. }
  exact (aborted_advances _ _ _ (advances_run h cfg es2 _) HB).
Qed.

Lemma page_superseded (signal : nat) (r : Response) (w : World) :
  signal ∈ aborted w ->
  page (Tracked.settle h cfg signal (Fulfilled r) w) = page w
  /\ error (store (Tracked.settle h cfg signal (Fulfilled r) w)) = error (store w).
Proof.
  intros Hab. unfold page. rewrite settle_superseded_fulfilled by assumption.
  destruct (bool_decide (signal ∈ inflight w)); split; reflexivity.
Qed.

(** C1, amended.  In the stores that track the current request, let load A be
    issued, anything happen, and load B be issued.  From then on a fulfilled A
    changes neither the list, nor the cursors, nor [error], whatever happened
    in between; and when A and B are both fulfilled, in either order, the list
    and the cursors are those of B's page. *)
Theorem latest_fetch_wins (w0 : World) (cA cB : option string)
    (es1 es2 : list Tracked.Event) (rA rB : Response) :
  wellTracked (tracking w0) ->
  let a := controllers w0 in
  let w1 := Tracked.run h cfg (Tracked.load h cfg cA w0) es1 in
  let b := controllers w1 in
  let wB := Tracked.load h cfg cB w1 in
  let w2 := Tracked.run h cfg wB es2 in
  (page (Tracked.settle h cfg a (Fulfilled rA) w2) = page w2
   /\ error (store (Tracked.settle h cfg a (Fulfilled rA) w2)) = error (store w2))
  /\ page (Tracked.settle h cfg a (Fulfilled rA)
             (Tracked.settle h cfg b (Fulfilled rB) wB)) = pageOf h rB
  /\ page (Tracked.settle h cfg b (Fulfilled rB)
             (Tracked.settle h cfg a (Fulfilled rA) wB)) = pageOf h rB.
Proof.
  intros Hwt a w1 b wB w2.
  destruct (earlier_signal_is_aborted w0 cA cB es1 es2) as [Hlt Hab2].
  destruct (earlier_signal_is_aborted w0 cA cB es1 []) as [_ HabB].
  fold a w1 in Hlt, Hab2, HabB. fold wB in Hab2, HabB. fold w2 in Hab2.
  cbn [Tracked.run fold_left] in HabB.
  assert (Hwt1 : wellTracked (tracking w1)).
  { eapply wellTracked_advances; [|exact Hwt].
    eapply advances_trans; [|apply advances_run].
    rewrite tracking_load. apply advances_load. }
  destruct (load_is_current cB w1 Hwt1) as [Hcur [Hin Hnab]].
  fold b wB in Hcur, Hin, Hnab.
  split; [now apply page_superseded|]. split.
  - (* B first, then A *)
    set (w' := Tracked.settle h cfg b (Fulfilled rB) wB).
    assert (Hab' : a ∈ aborted w').
    { unfold w'.
      destruct (tracking_fields _ _ (tracking_settle h cfg b (Fulfilled rB) wB))
        as [-> _]. exact HabB. }
    rewrite (proj1 (page_superseded a rA w' Hab')).
    unfold page, w'. rewrite settle_current_fulfilled by assumption. reflexivity.
  - (* A first, then B *)
    set (w' := Tracked.settle h cfg a (Fulfilled rA) wB).
    destruct (tracking_fields _ _ (tracking_settle h cfg a (Fulfilled rA) wB))
      as [Hab' [_ Hcur']].
    fold w' in Hab', Hcur'.
    assert (Hin' : b ∈ inflight w').
    { apply inflight_settle; [lia | exact Hin]. }
    unfold page. rewrite settle_current_fulfilled.
    + reflexivity.
    + exact Hin'.
    + rewrite Hab'. exact Hnab.
    + rewrite Hcur'. exact Hcur.
Qed.

End LatestWins.

Lemma latest_fetch_wins_witness :
  let w0 := stocksList_init in
  let a := controllers w0 in
  let w1 := Tracked.run Example.host stocksList
              (Tracked.load Example.host stocksList None w0)
              [Tracked.HandleDebouncedFilter "ticker__icontains" "ms"] in
  let b := controllers w1 in
  let wB := Tracked.load Example.host stocksList None w1 in
  let w2 := Tracked.run Example.host stocksList wB [Tracked.Elapse 500] in
  (page (Tracked.settle Example.host stocksList a (Fulfilled Example.pageA) w2)
   = page w2
   /\ error (store (Tracked.settle Example.host stocksList a
                      (Fulfilled Example.pageA) w2)) = error (store w2))
  /\ page (Tracked.settle Example.host stocksList a (Fulfilled Example.pageA)
             (Tracked.settle Example.host stocksList b (Fulfilled Example.pageB) wB))
     = pageOf Example.host Example.pageB
  /\ page (Tracked.settle Example.host stocksList b (Fulfilled Example.pageB)
             (Tracked.settle Example.host stocksList a (Fulfilled Example.pageA) wB))
     = pageOf Example.host Example.pageB.
Proof.
  assert (Hwt : wellTracked (tracking stocksList_init)).
  { split.
    - intros x Hx. cbn in Hx. apply not_elem_of_empty in Hx. destruct Hx.
    - intros c Hc. discriminate Hc. }
  exact (latest_fetch_wins Example.host stocksList eq_refl stocksList_init
           None None [Tracked.HandleDebouncedFilter "ticker__icontains" "ms"]
           [Tracked.Elapse 500] Example.pageA Example.pageB Hwt).
Defined.

(** C2.  The stocks list store on a concrete run: two loads are issued, so the
    first is superseded.  When the superseded load is fulfilled while the
    second is still in flight, [loading] goes from true to false.  When the
    second has committed its page and the superseded load is then rejected
    with an ordinary error, the [catch] block, which tests the signal of the
    current controller and not the signal of the failing call, sets [error]
    and empties the list and the cursors. *)
Theorem superseded_outcome_reaches_store :
  let issued := Tracked.run Example.host stocksList stocksList_init
                  [Tracked.Load None; Tracked.Load None] in
  let shown := Tracked.settle Example.host stocksList 1 (Fulfilled Example.pageB)
                 issued in
  let late := Tracked.settle Example.host stocksList 0 (Rejected Example.serverError)
                shown in
  (_currentRequestController (store issued) = Some 1
   /\ bool_decide (0 ∈ aborted issued) = true
   /\ inflight issued = [0; 1])
  /\ (loading (store issued) = true
      /\ loading (store (Tracked.settle Example.host stocksList 0
                           (Fulfilled Example.pageA) issued)) = false)
  /\ (page shown = (["MSFT"], None, Some "p1") /\ error (store shown) = None)
  /\ (page late = ([], None, None)
      /\ error (store late) = Some "Request failed with status 500").
Proof. vm_compute. repeat split; reflexivity. Qed.

(** ** Failure of the current load *)



(** *** What rewrites the message *)





Section ErrorKept.

Variable h : Host.
Variable cfg : Config.
Hypothesis registered : apiRegistered h = true.












End ErrorKept.



(** ** Debounce *)

Section Debounce.

Variable h : Host.
Variable cfg : Config.
Hypothesis registered : apiRegistered h = true.

Lemma lastValue_cons (first : string) (gap : nat) (value : string)
    (rest : list (nat * string)) :
  lastValue first ((gap, value) :: rest) = lastValue value rest.
Proof.
  unfold lastValue. cbn [map snd]. generalize (map snd rest) as l.
  intros l. revert value first.
  induction l as [|x l IH]; intros value first; [reflexivity|].
  change (List.last (value :: x :: l) first) with (List.last (x :: l) first).
  rewrite (IH x first), (IH x value). reflexivity.
Qed.

Lemma is_empty_false (s : string) : s <> "" -> JS.is_empty s = false.
Proof. destruct s; [done | reflexivity]. Qed.

Lemma runDue_none (queue : list Timeout) (w : World) :
  Forall (fun t => now w < due t) queue -> Tracked.runDue h cfg queue w = w.
Proof.
  induction 1 as [|t rest Ht _ IH]; cbn [Tracked.runDue]; [reflexivity|].
  assert (E : Nat.leb (due t) (now w) = false) by (apply Nat.leb_gt; lia).
  rewrite E. cbn [andb]. exact IH.
Qed.

Lemma elapse_quiet (ms : nat) (w : World) :
  Forall (fun t => now w + ms < due t) (timeouts w) ->
  Tracked.elapse h cfg ms w = with_now (now w + ms) w.
Proof.
  revert w. induction ms as [|ms IH]; intros w Hq; cbn [Tracked.elapse].
  - rewrite Nat.add_0_r. destruct w; reflexivity.
  - unfold Tracked.tick. rewrite runDue_none.
    + rewrite IH.
      * cbn [now with_now]. replace (S (now w) + ms) with (now w + S ms) by lia.
        reflexivity.
      * cbn [now with_now timeouts]. eapply Forall_impl; [exact Hq|].
        intros t Ht. cbn beta in *. lia.
    + cbn [now with_now timeouts]. eapply Forall_impl; [exact Hq|].
      intros t Ht. cbn beta in *. lia.
Qed.

Lemma handle_installs (key value : string) (w0 w : World) :
  JS.trim value <> "" ->
  fetches w = fetches w0 ->
  debounceDelay (store w) = debounceDelay (store w0) ->
  (exists v, filters (store w) = <[key := v]> (filters (store w0))
   \/ filters (store w) = filters (store w0)) ->
  (timeouts w = []
   \/ (exists d, timeouts w = [mkTimeout (timerIds w) d key])
      /\ _debounceTimers (store w) !! key = Some (Some (timerIds w))
      /\ 0 < timerIds w) ->
  pending key w0 (Tracked.handleDebouncedFilter h cfg key value w) value.
Proof.
  intros Hv Hf Hd [v Hfs] Hq.
  unfold Tracked.handleDebouncedFilter.
  rewrite (is_empty_false _ Hv).
  assert (Hfilters : <[key := value]> (filters (store w))
                     = <[key := value]> (filters (store w0))).
  { destruct Hfs as [-> | ->]; [apply insert_insert_eq | reflexivity]. }
  destruct Hq as [Hq | [[d Hq] [Hm Hpos]]].
  - destruct (Tracked.timerOf (_debounceTimers (store w) !! key)) as [id|];
      unfold pending, Tracked.setTimeout, Tracked.setTimer, Tracked.clearTimeout; cbn;
      rewrite Hq, Hf, Hd, Hfilters, lookup_insert_eq; cbn;
      repeat split; lia.
  - rewrite Hm. destruct (timerIds w) as [|n] eqn:Hn; [lia|].
    cbn [Tracked.timerOf].
    unfold pending, Tracked.setTimeout, Tracked.setTimer, Tracked.clearTimeout; cbn.
    rewrite Hq, Hf, Hd, Hfilters, lookup_insert_eq, Hn. cbn.
    rewrite decide_False by (intros Hne; now apply Hne).
    cbn. repeat split; lia.
Qed.

Lemma burst_pending (key : string) (w0 : World) (rest : list (nat * string))
    (w : World) (value : string) :
  pending key w0 w value ->
  Forall (fun gv => fst gv < debounceDelay (store w0) /\ JS.trim (snd gv) <> "") rest ->
  pending key w0 (burst h cfg key rest w) (lastValue value rest).
Proof.
  intros Hp Hrest. revert w value Hp.
  induction Hrest as [|[gap v] rest [Hgap Hv] _ IH]; intros w value Hp;
    cbn [burst]; [exact Hp|].
  cbn [fst snd] in Hgap, Hv.
  rewrite lastValue_cons.
  apply IH.
  destruct Hp as [Hf [Hq [Hm [Hpos [Hfs Hd]]]]].
  rewrite elapse_quiet.
  - apply handle_installs; cbn [fetches store with_now timeouts timerIds now].
    + exact Hv.
    + exact Hf.
    + exact Hd.
    + exists value. now left.
    + right. split; [eexists; exact Hq | split; assumption].
  - rewrite Hq. constructor; [cbn; lia | constructor].
Qed.

Lemma elapse_add (a b : nat) (w : World) :
  Tracked.elapse h cfg (a + b) w = Tracked.elapse h cfg b (Tracked.elapse h cfg a w).
Proof.
  revert w. induction a as [|a IH]; intros w; cbn [Nat.add Tracked.elapse];
    [reflexivity | apply IH].
Qed.

(** When the window closes on a pending timer, its callback makes the one
    fetch, from the first page and with the filters as the last call left
    them. *)
Lemma pending_fires (key : string) (w0 w : World) (value : string) (wait : nat) :
  pending key w0 w value ->
  0 < debounceDelay (store w0) ->
  debounceDelay (store w0) <= wait ->
  let w' := Tracked.elapse h cfg wait w in
  timeouts w' = []
  /\ exists f,
       fetches w' = f :: fetches w0
       /\ fromFirstPage f
       /\ f_filters f = activeFiltersOf cfg h (<[key := value]> (filters (store w0))).
Proof.
  intros [Hf [Hq [Hm [Hpos [Hfs Hd]]]]] Hdelay Hwait w'.
  unfold w'.
  replace wait with ((debounceDelay (store w0) - 1) + (1 + (wait - debounceDelay (store w0))))
    by lia.
  rewrite elapse_add, elapse_add.
  rewrite (elapse_quiet (debounceDelay (store w0) - 1) w)
    by (rewrite Hq; constructor; [cbn; lia | constructor]).
  cbn [Tracked.elapse]. unfold Tracked.tick.
  cbn [timeouts with_now now]. rewrite Hq. cbn [Tracked.runDue due timerId filterKey].
  cbn [timeouts with_now now].
  assert (Edue : Nat.leb (now w + debounceDelay (store w0))
                   (S (now w + (debounceDelay (store w0) - 1))) = true)
    by (apply Nat.leb_le; lia).
  rewrite Edue, Hq. cbn [existsb timerId andb orb]. rewrite Nat.eqb_refl. cbn [orb andb].
  unfold Tracked.debounceCallback.
  rewrite tracked_load_registered by assumption.
  rewrite elapse_quiet.
  - unfold Tracked.setTimer, Tracked.clearTimeout, Tracked.resetCursors, andThen, assign.
    cbn. rewrite Hq, Hf, Hfs. cbn.
    rewrite decide_False by (intros Hne; now apply Hne).
    split; [reflexivity|].
    eexists. split; [reflexivity|]. split; [|reflexivity].
    repeat split.
  - unfold Tracked.setTimer, Tracked.clearTimeout, Tracked.resetCursors, andThen, assign.
    cbn. rewrite Hq. cbn.
    rewrite decide_False by (intros Hne; now apply Hne).
    constructor.
Qed.

Lemma lastValue_nonblank (first : string) (rest : list (nat * string)) (d : nat) :
  JS.trim first <> "" ->
  Forall (fun gv => fst gv < d /\ JS.trim (snd gv) <> "") rest ->
  JS.trim (lastValue first rest) <> "".
Proof.
  intros Hfirst Hrest. revert first Hfirst.
  induction Hrest as [|[gap v] rest [_ Hv] _ IH]; intros first Hfirst;
    [exact Hfirst|].
  rewrite lastValue_cons. apply IH. exact Hv.
Qed.

(** C4, amended.  In the stores with debounce, start with no timer pending
    and call the handler for one key with a value that is not blank (not empty
    after trimming), and then again, each time sooner than the debounce delay
    after the call before, with further values that are not blank.  While this
    goes on nothing is fetched and the queue holds exactly one timer, the one
    the last call installed (the one before it has been cleared).  Once the
    delay has passed after the last call, exactly one call to the API client
    has been made, from the first page and with the filters built from the
    store's filters with the key set to the last value; the stocks list store
    sends that value trimmed. *)
Theorem debounced_burst_fetches_once (key first : string)
    (rest : list (nat * string)) (w : World) (wait : nat) :
  timeouts w = [] ->
  0 < debounceDelay (store w) ->
  JS.trim first <> "" ->
  Forall (fun gv => fst gv < debounceDelay (store w) /\ JS.trim (snd gv) <> "") rest ->
  debounceDelay (store w) <= wait ->
  let typed := burst h cfg key rest (Tracked.handleDebouncedFilter h cfg key first w) in
  let settled := Tracked.elapse h cfg wait typed in
  let sent := <[key := lastValue first rest]> (filters (store w)) in
  (fetches typed = fetches w
   /\ timeouts typed
      = [mkTimeout (timerIds typed) (now typed + debounceDelay (store w)) key])
  /\ oneFetch w settled
       (fun f => fromFirstPage f /\ f_filters f = activeFiltersOf cfg h sent)
  /\ timeouts settled = []
  /\ stocks_activeFilters sent !! key = Some (TString (JS.trim (lastValue first rest))).
Proof.
  intros Hq Hdelay Hfirst Hrest Hwait typed settled sent.
  assert (Hstart : pending key w (Tracked.handleDebouncedFilter h cfg key first w) first).
  { apply handle_installs; try reflexivity; [exact Hfirst | | now left].
    exists first. now right. }
  pose proof (burst_pending key w rest _ first Hstart Hrest) as Hp.
  fold typed in Hp.
  destruct (pending_fires key w typed _ wait Hp Hdelay Hwait) as [Hempty [f [Hf [H1 H2]]]].
  fold settled in Hempty, Hf.
  split; [|split; [|split]].
  - destruct Hp as [Hfetch [Htimer _]]. split; assumption.
  - exists f. split; [exact Hf | split; assumption].
  - exact Hempty.
  - unfold sent. rewrite stocks_activeFilters_lookup, lookup_insert_eq.
    rewrite (is_empty_false _ (lastValue_nonblank first rest _ Hfirst Hrest)).
    reflexivity.
Qed.

End Debounce.

Lemma debounced_burst_fetches_once_witness :
  let w := stocksList_init in
  let key := "ticker__icontains" in
  let rest := [(120, "aa"); (399, "aap"); (80, " aapl ")] in
  let typed := burst Example.host stocksList key rest
                 (Tracked.handleDebouncedFilter Example.host stocksList key "a" w) in
  let settled := Tracked.elapse Example.host stocksList 400 typed in
  let sent := <[key := lastValue "a" rest]> (filters (store w)) in
  (fetches typed = fetches w
   /\ timeouts typed
      = [mkTimeout (timerIds typed) (now typed + debounceDelay (store w)) key])
  /\ oneFetch w settled
       (fun f => fromFirstPage f
                 /\ f_filters f = activeFiltersOf stocksList Example.host sent)
  /\ timeouts settled = []
  /\ stocks_activeFilters sent !! key = Some (TString (JS.trim (lastValue "a" rest))).
Proof.
  intros w key rest.
  assert (Hrest : Forall (fun gv => fst gv < debounceDelay (store w)
                                    /\ JS.trim (snd gv) <> "") rest).
  { repeat constructor; cbn; (lia || done). }
  assert (Hfirst : JS.trim "a" <> "") by done.
  assert (Hdelay : 0 < debounceDelay (store w)) by (cbn; lia).
  assert (Hwait : debounceDelay (store w) <= 400) by (cbn; lia).
  exact (debounced_burst_fetches_once Example.host stocksList eq_refl key "a" rest w
           400 eq_refl Hdelay Hfirst Hrest Hwait).
Defined.

(** C4, as the claim states it, fails for values that are not empty but
    blank: a single space takes the branch of the handler that loads at once,
    so a burst of " " followed 100 ms later by "a" ends with two calls to the
    API client, the first made during the burst. *)
Lemma blank_value_in_burst_fetches_twice :
  let w := stocksList_init in
  let key := "ticker__icontains" in
  let typed := burst Example.host stocksList key [(100, "a")]
                 (Tracked.handleDebouncedFilter Example.host stocksList key " " w) in
  let settled := Tracked.elapse Example.host stocksList 400 typed in
  " " <> "" /\ "a" <> "" /\ 100 < debounceDelay (store w)
  /\ timeouts w = []
  /\ length (fetches w) = 0
  /\ length (fetches typed) = 1
  /\ length (fetches settled) = 2.
Proof.
  cbv zeta. split; [done|]. split; [done|]. split; [cbn; lia|].
  vm_compute. repeat split; reflexivity.
Qed.

(** ** Trimming *)

Lemma trimEnd_idempotent (s : string) : JS.trimEnd (JS.trimEnd s) = JS.trimEnd s.
Proof.
  induction s as [|c s IH]; [reflexivity|].
  cbn [JS.trimEnd].
  destruct (JS.is_whitespace c && JS.is_empty (JS.trimEnd s)) eqn:E; [reflexivity|].
  cbn [JS.trimEnd]. rewrite IH, E. reflexivity.
Qed.

Lemma trimStart_headTrimmed (s : string) : headTrimmed (JS.trimStart s).
Proof.
  induction s as [|c s IH]; [exact I|].
  cbn [JS.trimStart]. destruct (JS.is_whitespace c) eqn:E; [exact IH | exact E].
Qed.

Lemma trimStart_fixed (s : string) : headTrimmed s -> JS.trimStart s = s.
Proof.
  destruct s as [|c s]; [reflexivity|]. cbn. intros ->. reflexivity.
Qed.

Lemma trimEnd_headTrimmed (s : string) : headTrimmed s -> headTrimmed (JS.trimEnd s).
Proof.
  destruct s as [|c s]; [intros _; exact I|]. cbn [headTrimmed JS.trimEnd].
  intros E. rewrite E. cbn [andb]. exact E.
Qed.

Lemma trim_idempotent (s : string) : JS.trim (JS.trim s) = JS.trim s.
Proof.
  unfold JS.trim.
  rewrite (trimStart_fixed (JS.trimEnd (JS.trimStart s))).
  - apply trimEnd_idempotent.
  - apply trimEnd_headTrimmed, trimStart_headTrimmed.
Qed.

(** ** Initial filters *)

(** X1.  [setInitialFilters] changes only filters the store declares: the
    keys of [this.filters] are the same before and after, a key of the argument
    that the store does not have is ignored, a key given as [null] or
    [undefined] or not given keeps its value, and every other given value is
    stored as [String(value)] trimmed. *)
Theorem setInitialFilters_declared_keys_only (given : gmap string JSValue)
    (filters : gmap string string) (key : string) :
  dom (setInitialFilters (Some given) filters) = dom filters
  /\ setInitialFilters (Some given) filters !! key =
     match filters !! key with
     | None => None
     | Some old =>
         match given !! key with
         | Some VNull | Some VUndefined | None => Some old
         | Some v => Some (JS.trim (String_of v))
         end
     end.
Proof.
  split.
  - apply set_eq. intros k. rewrite !elem_of_dom.
    unfold setInitialFilters. rewrite map_lookup_imap.
    destruct (filters !! k) as [old|]; cbn.
    + unfold initialFilter.
      split; intros _; [eauto|].
      destruct (given !! k) as [[]|]; eauto.
    + split; intros [x Hx]; discriminate Hx.
  - unfold setInitialFilters. rewrite map_lookup_imap.
    destruct (filters !! key) as [old|]; reflexivity.
Qed.

(** X2.  [setInitialFilters] is idempotent: applying the same initial filters
    a second time, as [init(initialFilters)] does on every call, changes
    nothing, because what the first application stored is already trimmed. *)
Theorem setInitialFilters_idempotent (given : option (gmap string JSValue))
    (filters : gmap string string) :
  setInitialFilters given (setInitialFilters given filters)
  = setInitialFilters given filters.
Proof.
  destruct given as [g|]; [|reflexivity].
  apply map_eq. intros k. cbn [setInitialFilters].
  rewrite !map_lookup_imap.
  destruct (filters !! k) as [old|]; [|reflexivity]. cbn.
  unfold initialFilter.
  destruct (g !! k) as [[]|]; cbn; try reflexivity;
    rewrite trim_idempotent; reflexivity.
Qed.

(** ** Counting active filters *)

Lemma count_permutation (p : string -> bool) (l l' : list string) :
  Permutation l l' -> length (List.filter p l) = length (List.filter p l').
Proof.
  induction 1 as [|x l l' _ IH|x y l|l1 l2 l3 _ IH1 _ IH2]; cbn.
  - reflexivity.
  - destruct (p x); cbn; congruence.
  - destruct (p x), (p y); reflexivity.
  - congruence.
Qed.

Lemma string_filter_isActive (value : string) :
  string_filter value
  = if isActive value then Some (TString (JS.trim value)) else None.
Proof. reflexivity. Qed.

Lemma count_insert (filters : gmap string string) (key value : string) :
  filters !! key = None ->
  getActiveFilterCount (<[key := value]> filters)
  = (if isActive value then 1 else 0) + getActiveFilterCount filters.
Proof.
  intros Hnone. unfold getActiveFilterCount, Object_values.
  rewrite (count_permutation isActive _ (map snd ((key, value) :: map_to_list filters))).
  - cbn. destruct (isActive value); reflexivity.
  - apply Permutation_map, map_to_list_insert, Hnone.
Qed.

Lemma exists_count (p : string -> bool) (l : list string) :
  existsb p l = negb (Nat.eqb (length (List.filter p l)) 0).
Proof.
  induction l as [|x l IH]; [reflexivity|]. cbn.
  destruct (p x); [reflexivity | exact IH].
Qed.

(** X3.  [hasActiveFilters()] is true exactly when [getActiveFilterCount()]
    is not 0, and in the stocks list store the count shown is the number of
    filters the load puts into [activeFilters]. *)
Theorem active_filter_count_is_what_is_sent (filters : gmap string string) :
  hasActiveFilters filters = negb (Nat.eqb (getActiveFilterCount filters) 0)
  /\ getActiveFilterCount filters = size (stocks_activeFilters filters).
Proof.
  split; [apply exists_count|].
  induction filters as [|key value filters Hnone _ IH] using map_first_key_ind.
  - reflexivity.
  - rewrite count_insert by assumption. rewrite IH.
    unfold stocks_activeFilters. rewrite omap_insert, string_filter_isActive.
    destruct (isActive value).
    + rewrite map_size_insert_None; [reflexivity|].
      rewrite lookup_omap, Hnone. reflexivity.
    + rewrite delete_id; [reflexivity|].
      rewrite lookup_omap, Hnone. reflexivity.
Qed.

(** ** Clearing the filters *)

Lemma imap_all_empty (f : string -> string -> option TransportValue)
    (filters : gmap string string) :
  (forall key, f key "" = None) ->
  map_Forall (fun _ value => value = "") filters ->
  map_imap f filters = ∅.
Proof.
  intros Hf Hall. apply map_eq. intros key.
  rewrite map_lookup_imap, lookup_empty.
  destruct (filters !! key) as [value|] eqn:E; [|reflexivity].
  rewrite (Hall key value E). cbn. apply Hf.
Qed.

Lemma clearedFilters_all_empty (cfg : Config) :
  In cfg listStores -> map_Forall (fun _ value => value = "") (clearedFilters cfg).
Proof.
  intros [<- | [<- | [<- | [<- | []]]]]; cbn [clearedFilters stocksList trackedRunsList
    runsList bulkQueueRunsList];
    unfold stocks_filters, trackedRuns_filters, runs_filters, bulk_filters;
    repeat (apply map_Forall_insert_2; [reflexivity|]); apply map_Forall_empty.
Qed.

Lemma cleared_sends_nothing (h : Host) (cfg : Config) :
  In cfg listStores -> activeFiltersOf cfg h (clearedFilters cfg) = ∅.
Proof.
  intros Hin. pose proof (clearedFilters_all_empty cfg Hin) as Hall.
  destruct Hin as [<- | [<- | [<- | [<- | []]]]];
    cbn [activeFiltersOf clearedFilters stocksList trackedRunsList runsList
         bulkQueueRunsList] in *.
  - apply map_eq. intros key. rewrite stocks_activeFilters_lookup, lookup_empty.
    destruct (stocks_filters !! key) as [value|] eqn:E; [|reflexivity].
    rewrite (Hall key value E). reflexivity.
  - apply imap_all_empty; [|exact Hall]. intros key.
    destruct (is_runs_boolean_key key), (is_runs_date_key key); reflexivity.
  - apply imap_all_empty; [|exact Hall]. intros key.
    destruct (is_runs_boolean_key key), (is_runs_date_key key); reflexivity.
  - apply imap_all_empty; [|exact Hall]. intros key.
    destruct (is_bulk_boolean_key key), (is_bulk_date_key key); reflexivity.
Qed.

Lemma all_empty_none_active (filters : gmap string string) :
  map_Forall (fun _ value => value = "") filters -> hasActiveFilters filters = false.
Proof.
  intros Hall. unfold hasActiveFilters, Object_values.
  destruct (existsb isActive (map snd (map_to_list filters))) eqn:E; [|reflexivity].
  apply existsb_exists in E. destruct E as [value [Hin Hact]].
  apply in_map_iff in Hin. destruct Hin as [[key value'] [Heq Hin]].
  cbn in Heq. subst value'.
  apply list_elem_of_In, elem_of_map_to_list in Hin.
  rewrite (Hall key value Hin) in Hact. discriminate Hact.
Qed.

Lemma tracked_clearFilters_fetch (h : Host) (cfg : Config) (w : World) :
  In cfg listStores ->
  apiRegistered h = true ->
  oneFetch w (Tracked.clearFilters h cfg w) unfiltered.
Proof.
  intros Hin Hapi.
  pose proof (cleared_sends_nothing h cfg Hin) as Hnone.
  unfold Tracked.clearFilters, Tracked.applyFilters.
  set (w2 := with_store (set_filters (clearedFilters cfg)
                           (store (Tracked.clearAllTimers w)))
               (Tracked.clearAllTimers w)).
  destruct (tracked_reset_then_load h cfg w2 Hapi) as [f [Hf [Hfirst Hfilters]]].
  exists f. split; [exact Hf|]. split; [exact Hfirst|].
  rewrite Hfilters. exact Hnone.
Qed.

(** X4.  In each of the four list stores [clearFilters()] sets the filters to
    the store's empty set, after which no filter is active, and makes exactly
    one call to the API client: for the first page and with an empty
    [activeFilters] object, the same request as a load on a store whose
    filters were never touched. *)
Theorem clearFilters_loads_unfiltered (h : Host) (cfg : Config) (w : World) :
  In cfg listStores ->
  apiRegistered h = true ->
  (let w' := Tracked.clearFilters h cfg w in
   oneFetch w w' unfiltered
   /\ filters (store w') = clearedFilters cfg
   /\ hasActiveFilters (filters (store w')) = false)
  /\ (let w' := Plain.clearFilters h cfg w in
      oneFetch w w' unfiltered
      /\ filters (store w') = clearedFilters cfg
      /\ hasActiveFilters (filters (store w')) = false).
Proof.
  intros Hin Hapi.
  pose proof (cleared_sends_nothing h cfg Hin) as Hnone.
  pose proof (all_empty_none_active _ (clearedFilters_all_empty cfg Hin)) as Hinactive.
  split; intros w'.
  - split; [now apply tracked_clearFilters_fetch|].
    unfold w', Tracked.clearFilters, Tracked.applyFilters.
    set (w2 := with_store (set_filters (clearedFilters cfg)
                             (store (Tracked.clearAllTimers w)))
                 (Tracked.clearAllTimers w)).
    split.
    + rewrite tracked_load_registered by assumption. reflexivity.
    + rewrite tracked_load_registered by assumption. exact Hinactive.
  - unfold w', Plain.clearFilters, Plain.applyFilters.
    set (w2 := with_store (set_filters (clearedFilters cfg) (store w)) w).
    destruct (plain_reset_then_load h cfg w2 Hapi) as [f [Hf [Hfirst Hfilters]]].
    split; [|split].
    + exists f. split; [exact Hf|]. split; [exact Hfirst|].
      rewrite Hfilters. exact Hnone.
    + rewrite plain_load_registered by assumption. reflexivity.
    + rewrite plain_load_registered by assumption. exact Hinactive.
Qed.

Lemma clearFilters_loads_unfiltered_witness :
  let w := Tracked.handleDebouncedFilter Example.host trackedRunsList
             "ticker__icontains" "aapl" trackedRunsList_init in
  (let w' := Tracked.clearFilters Example.host trackedRunsList w in
   oneFetch w w' unfiltered
   /\ filters (store w') = clearedFilters trackedRunsList
   /\ hasActiveFilters (filters (store w')) = false)
  /\ (let w' := Plain.clearFilters Example.host trackedRunsList w in
      oneFetch w w' unfiltered
      /\ filters (store w') = clearedFilters trackedRunsList
      /\ hasActiveFilters (filters (store w')) = false).
Proof.
  intros w.
  assert (Hin : In trackedRunsList listStores) by (right; left; reflexivity).
  exact (clearFilters_loads_unfiltered Example.host trackedRunsList w Hin eq_refl).
Defined.

(** ** Clearing the filters while a debounce timer is pending *)

Lemma clearAllTimers_pending (key : string) (w0 w : World) (value : string) :
  pending key w0 w value ->
  timeouts (Tracked.clearAllTimers w) = []
  /\ fetches (Tracked.clearAllTimers w) = fetches w0.
Proof.
  intros [Hf [Hq [Hm [Hpos _]]]].
  unfold Tracked.clearAllTimers. cbn [timeouts fetches with_store with_timeouts].
  split; [|exact Hf].
  rewrite Hq. rewrite filter_cons_False; [reflexivity|].
  cbn [timerId]. intros Hnot. apply Hnot.
  apply list_elem_of_omap. exists (key, Some (timerIds w)). split.
  - apply elem_of_map_to_list. exact Hm.
  - cbn. destruct (timerIds w); [lia | reflexivity].
Qed.

(** X5.  [clearFilters()] cancels a pending debounce.  After a burst of
    non-blank values typed into one filter of a store with debounce,
    [clearFilters()] leaves no timer in the queue and makes the only call to
    the API client of the whole episode, an unfiltered one; however long one
    waits afterwards, no further call is made. *)
Theorem clearFilters_cancels_debounce (h : Host) (cfg : Config) (key first : string)
    (rest : list (nat * string)) (w : World) (ms : nat) :
  In cfg listStores ->
  apiRegistered h = true ->
  timeouts w = [] ->
  JS.trim first <> "" ->
  Forall (fun gv => fst gv < debounceDelay (store w) /\ JS.trim (snd gv) <> "") rest ->
  let typed := burst h cfg key rest (Tracked.handleDebouncedFilter h cfg key first w) in
  let cleared := Tracked.clearFilters h cfg typed in
  timeouts cleared = []
  /\ oneFetch w cleared unfiltered
  /\ fetches (Tracked.elapse h cfg ms cleared) = fetches cleared.
Proof.
  intros Hin Hapi Hq Hfirst Hrest typed cleared.
  assert (Hstart : pending key w (Tracked.handleDebouncedFilter h cfg key first w) first).
  { apply handle_installs; try reflexivity; [exact Hfirst | | now left].
    exists first. now right. }
  pose proof (burst_pending h cfg key w rest _ first Hstart Hrest) as Hp.
  fold typed in Hp.
  destruct (clearAllTimers_pending key w typed _ Hp) as [Hnone Hfetches].
  destruct (tracked_clearFilters_fetch h cfg typed Hin Hapi) as [f [Hf Hu]].
  fold cleared in Hf.
  assert (Hempty : timeouts cleared = []).
  { unfold cleared, Tracked.clearFilters, Tracked.applyFilters.
    rewrite tracked_load_registered by assumption. cbn. exact Hnone. }
  assert (Hsame : fetches typed = fetches w) by (destruct Hp as [Hp _]; exact Hp).
  split; [exact Hempty|]. split.
  - exists f. split; [rewrite Hf, Hsame; reflexivity | exact Hu].
  - rewrite elapse_quiet; [reflexivity|]. rewrite Hempty. constructor.
Qed.

Lemma clearFilters_cancels_debounce_witness :
  let w := stocksList_init in
  let key := "ticker__icontains" in
  let rest := [(120, "aa"); (300, "aap")] in
  let typed := burst Example.host stocksList key rest
                 (Tracked.handleDebouncedFilter Example.host stocksList key "a" w) in
  let cleared := Tracked.clearFilters Example.host stocksList typed in
  timeouts cleared = []
  /\ oneFetch w cleared unfiltered
  /\ fetches (Tracked.elapse Example.host stocksList 1000 cleared) = fetches cleared.
Proof.
  intros w key rest.
  assert (Hin : In stocksList listStores) by (left; reflexivity).
  assert (Hrest : Forall (fun gv => fst gv < debounceDelay (store w)
                                    /\ JS.trim (snd gv) <> "") rest).
  { repeat constructor; cbn; (lia || done). }
  assert (Hfirst : JS.trim "a" <> "") by done.
  exact (clearFilters_cancels_debounce Example.host stocksList key "a" rest w 1000
           Hin eq_refl eq_refl Hfirst Hrest).
Defined.

(** ** Paging with the cursor of the last page *)

Lemma plain_settle_keeps (h : Host) (cfg : Config) (call : nat) (outcome : Outcome)
    (w : World) :
  call ∈ inflight w ->
  let w' := Plain.settle h cfg call outcome w in
  fetches w' = fetches w
  /\ filters (store w') = filters (store w)
  /\ pageSize (store w') = pageSize (store w).
Proof.
  intros Hin.
  unfold Plain.settle, Plain.load_afterAwait, Plain.load_catch, Plain.load_finally,
    tryFinally, tryCatch, andThen, assign, read, ret, throw.
  rewrite (bool_decide_eq_true_2 _ Hin).
  destruct outcome; rewrite ?cursorOf_value; repeat split; reflexivity.
Qed.

Lemma tracked_settle_keeps (h : Host) (cfg : Config) (signal : nat)
    (outcome : Outcome) (w : World) :
  let w' := Tracked.settle h cfg signal outcome w in
  fetches w' = fetches w
  /\ filters (store w') = filters (store w)
  /\ pageSize (store w') = pageSize (store w).
Proof.
  intros w'. pose proof (frame_settle h cfg signal outcome w) as H.
  fold w' in H. unfold frame in H.
  destruct (bool_decide (signal ∈ inflight w)); injection H; intros; repeat split;
    assumption.
Qed.

(** X6.  The cursor of a page link comes back on the next request.  When the
    load whose outcome is committed is fulfilled with a [next] link whose
    [cursor] parameter is a non-empty string, [nextPage()] makes exactly one
    call to the API client, with that cursor and with the filters and page
    size of the store, whatever the [previous] link is; and when it is
    fulfilled with a [previous] link whose [cursor] parameter is a non-empty
    string, [previousPage()] does so with that cursor, whatever the [next]
    link is.  [wp] is a store without request tracking, [wt] one with it whose
    current load is [signal]. *)
Theorem page_link_cursor_round_trip (h : Host) (cfg : Config) (r : Response)
    (wp : World) (call : nat) (wt : World) (signal : nat) :
  apiRegistered h = true ->
  call ∈ inflight wp ->
  signal ∈ inflight wt ->
  _currentRequestController (store wt) = Some signal ->
  signal ∉ aborted wt ->
  (let w1 := Plain.settle h cfg call (Fulfilled r) wp in
   (forall n, cursorValue h (next r) = Some n -> n <> "" ->
              oneFetch w1 (Plain.nextPage h cfg w1) (fetchAt h cfg wp n))
   /\ (forall p, cursorValue h (previous r) = Some p -> p <> "" ->
                 oneFetch w1 (Plain.previousPage h cfg w1) (fetchAt h cfg wp p)))
  /\ (let w1 := Tracked.settle h cfg signal (Fulfilled r) wt in
      (forall n, cursorValue h (next r) = Some n -> n <> "" ->
                 oneFetch w1 (Tracked.nextPage h cfg w1) (fetchAt h cfg wt n))
      /\ (forall p, cursorValue h (previous r) = Some p -> p <> "" ->
                    oneFetch w1 (Tracked.previousPage h cfg w1) (fetchAt h cfg wt p))).
Proof.
  intros Hapi Hcall Hsig Hcur Hnab.
  assert (T : forall c : string, c <> "" -> JS.truthy_opt (Some c) = true)
    by (intros c Hc; destruct c; [congruence | reflexivity]).
  split; intros w1.
  - destruct (plain_settle_keeps h cfg call (Fulfilled r) wp Hcall) as [_ [Hfs Hps]].
    fold w1 in Hfs, Hps.
    assert (Hs : store w1 = committed h r (store wp))
      by (apply plain_settle_fulfilled; assumption).
    split.
    + intros n Hn Hn'.
      assert (Hnext : nextCursor (store w1) = Some n) by (rewrite Hs; exact Hn).
      unfold Plain.nextPage. rewrite Hnext, (T n Hn').
      rewrite plain_load_registered by assumption.
      eexists; split; [reflexivity|]; unfold fetchAt;
        cbn [f_cursor f_filters f_pageSize]; rewrite Hfs, Hps; repeat split.
    + intros p Hp Hp'.
      assert (Hprev : previousCursor (store w1) = Some p) by (rewrite Hs; exact Hp).
      unfold Plain.previousPage. rewrite Hprev, (T p Hp').
      rewrite plain_load_registered by assumption.
      eexists; split; [reflexivity|]; unfold fetchAt;
        cbn [f_cursor f_filters f_pageSize]; rewrite Hfs, Hps; repeat split.
  - destruct (tracked_settle_keeps h cfg signal (Fulfilled r) wt) as [_ [Hfs Hps]].
    fold w1 in Hfs, Hps.
    assert (Hs : store w1 = committed h r (store wt))
      by (apply settle_current_fulfilled; assumption).
    split.
    + intros n Hn Hn'.
      assert (Hnext : nextCursor (store w1) = Some n) by (rewrite Hs; exact Hn).
      unfold Tracked.nextPage. rewrite Hnext, (T n Hn').
      rewrite tracked_load_registered by assumption.
      eexists; split; [reflexivity|]; unfold fetchAt;
        cbn [f_cursor f_filters f_pageSize]; rewrite Hfs, Hps; repeat split.
    + intros p Hp Hp'.
      assert (Hprev : previousCursor (store w1) = Some p) by (rewrite Hs; exact Hp).
      unfold Tracked.previousPage. rewrite Hprev, (T p Hp').
      rewrite tracked_load_registered by assumption.
      eexists; split; [reflexivity|]; unfold fetchAt;
        cbn [f_cursor f_filters f_pageSize]; rewrite Hfs, Hps; repeat split.
Qed.

Lemma page_link_cursor_round_trip_witness :
  let cfg := stocksList in
  let wp := Plain.load Example.host cfg None stocksList_init in
  let wt := Tracked.load Example.host cfg None stocksList_init in
  (let first := Plain.settle Example.host cfg 0 (Fulfilled Example.pageA) wp in
   let last := Plain.settle Example.host cfg 0 (Fulfilled Example.pageB) wp in
   oneFetch first (Plain.nextPage Example.host cfg first)
     (fetchAt Example.host cfg wp "n2")
   /\ oneFetch last (Plain.previousPage Example.host cfg last)
        (fetchAt Example.host cfg wp "p1"))
  /\ (let first := Tracked.settle Example.host cfg 0 (Fulfilled Example.pageA) wt in
      let last := Tracked.settle Example.host cfg 0 (Fulfilled Example.pageB) wt in
      oneFetch first (Tracked.nextPage Example.host cfg first)
        (fetchAt Example.host cfg wt "n2")
      /\ oneFetch last (Tracked.previousPage Example.host cfg last)
           (fetchAt Example.host cfg wt "p1")).
Proof.
  intros cfg wp wt.
  assert (Hn : "n2" <> "") by done.
  assert (Hp : "p1" <> "") by done.
  assert (Hcall : 0 ∈ inflight wp) by apply list_elem_of_here.
  assert (Hsig : 0 ∈ inflight wt) by apply list_elem_of_here.
  assert (Hnab : 0 ∉ aborted wt) by (cbn; apply not_elem_of_empty).
  destruct (page_link_cursor_round_trip Example.host cfg Example.pageA wp 0 wt 0
              eq_refl Hcall Hsig eq_refl Hnab) as [[PA _] [TA _]].
  destruct (page_link_cursor_round_trip Example.host cfg Example.pageB wp 0 wt 0
              eq_refl Hcall Hsig eq_refl Hnab) as [[_ PB] [_ TB]].
  split; (split; [first [apply PA | apply TA] | first [apply PB | apply TB]]);
    first [reflexivity | assumption].
Defined.

(** X7.  A page link the store cannot use does not fail the load.  When the
    committed load is fulfilled with a [next] link that is [null] or empty,
    that the URL constructor rejects, that has no [cursor] parameter or has an
    empty one, the list is still replaced by the results, [error] is left as
    the load set it, and [nextPage()] afterwards does nothing. *)
Theorem unusable_next_link_stops_paging (h : Host) (cfg : Config) (r : Response)
    (wp : World) (call : nat) (wt : World) (signal : nat) :
  cursorValue h (next r) = None \/ cursorValue h (next r) = Some "" ->
  call ∈ inflight wp ->
  signal ∈ inflight wt ->
  _currentRequestController (store wt) = Some signal ->
  signal ∉ aborted wt ->
  (let w1 := Plain.settle h cfg call (Fulfilled r) wp in
   items (store w1) = default [] (results r)
   /\ error (store w1) = error (store wp)
   /\ Plain.nextPage h cfg w1 = w1)
  /\ (let w1 := Tracked.settle h cfg signal (Fulfilled r) wt in
      items (store w1) = default [] (results r)
      /\ error (store w1) = error (store wt)
      /\ Tracked.nextPage h cfg w1 = w1).
Proof.
  intros Hlink Hcall Hsig Hcur Hnab.
  assert (T : JS.truthy_opt (cursorValue h (next r)) = false)
    by (destruct Hlink as [-> | ->]; reflexivity).
  split; intros w1.
  - assert (Hs : store w1 = committed h r (store wp))
      by (apply plain_settle_fulfilled; assumption).
    unfold Plain.nextPage. rewrite Hs. cbn [committed nextCursor set_loading
      set_previousCursor set_nextCursor]. rewrite T. repeat split.
  - assert (Hs : store w1 = committed h r (store wt))
      by (apply settle_current_fulfilled; assumption).
    unfold Tracked.nextPage. rewrite Hs. cbn [committed nextCursor set_loading
      set_previousCursor set_nextCursor]. rewrite T. repeat split.
Qed.

Lemma unusable_next_link_stops_paging_witness :
  let cfg := stocksList in
  let wp := Plain.load Example.host cfg None stocksList_init in
  let wt := Tracked.load Example.host cfg None stocksList_init in
  (let w1 := Plain.settle Example.host cfg 0 (Fulfilled pageBrokenLink) wp in
   items (store w1) = default [] (results pageBrokenLink)
   /\ error (store w1) = error (store wp)
   /\ Plain.nextPage Example.host cfg w1 = w1)
  /\ (let w1 := Tracked.settle Example.host cfg 0 (Fulfilled pageBrokenLink) wt in
      items (store w1) = default [] (results pageBrokenLink)
      /\ error (store w1) = error (store wt)
      /\ Tracked.nextPage Example.host cfg w1 = w1).
Proof.
  intros cfg wp wt.
  assert (Hcall : 0 ∈ inflight wp) by apply list_elem_of_here.
  assert (Hsig : 0 ∈ inflight wt) by apply list_elem_of_here.
  assert (Hnab : 0 ∉ aborted wt) by (cbn; apply not_elem_of_empty).
  exact (unusable_next_link_stops_paging Example.host cfg pageBrokenLink wp 0 wt 0
           (or_introl eq_refl) Hcall Hsig eq_refl Hnab).
Defined.

(** ** A page without the API store *)

Lemma tracked_load_without_api (h : Host) (cfg : Config)
    (cursor : option string) (w : World) :
  apiRegistered h = false ->
  wellTracked (tracking w) ->
  let e := JS.mkError "Error" (apiMissingMessage cfg) in
  let w' := Tracked.load h cfg cursor w in
  store w'
  = failed cfg e (set__currentRequestController (Some (controllers w)) (store w))
  /\ fetches w' = fetches w
  /\ inflight w' = inflight w.
Proof.
  intros Hapi Hwt e w'.
  assert (Hwt' : wellTracked (loadT (tracking w))) by now apply wellTracked_loadT.
  destruct Hwt' as [_ Hc]. destruct (Hc _ eq_refl) as [_ Hnab]. cbn in Hnab.
  unfold w', Tracked.load. rewrite tracked_load_unregistered by assumption.
  unfold Tracked.load_catch, Tracked.load_finally, Tracked.currentAborted,
    tryFinally, andThen, assign, read, ret, throw.
  cbn. change (abortedAfterLoad w) with
    (match _currentRequestController (store w) with
     | Some c => {[c]} ∪ aborted w | None => aborted w end).
  rewrite (bool_decide_eq_false_2 _ Hnab). cbn.
  rewrite (bool_decide_eq_false_2 _ Hnab). cbn.
  repeat split.
Qed.

(** X8.  When the API store is not registered a load fails at once: no call
    is made, nothing is left in flight, and the load ends with the list and
    the cursors cleared, [loading] false and [error] set to the message of the
    error thrown (the store's "... API store is not available").  In a store
    with request tracking the load has still allocated its controller. *)
Theorem load_without_api_fails_at_once (h : Host) (cfg : Config)
    (cursor : option string) (w : World) :
  apiRegistered h = false ->
  wellTracked (tracking w) ->
  let e := JS.mkError "Error" (apiMissingMessage cfg) in
  Plain.load h cfg cursor w = with_store (failed cfg e (store w)) w
  /\ (let w' := Tracked.load h cfg cursor w in
      store w'
      = failed cfg e (set__currentRequestController (Some (controllers w)) (store w))
      /\ fetches w' = fetches w
      /\ inflight w' = inflight w).
Proof.
  intros Hapi Hwt e. split.
  - unfold Plain.load, Plain.load_untilAwait, Plain.load_catch, Plain.load_finally,
      tryFinally, andThen, assign, read, ret, throw, callApi.
    rewrite Hapi. destruct w as [s ? ? ? ? ? ? ?]. reflexivity.
  - now apply tracked_load_without_api.
Qed.

Lemma load_without_api_fails_at_once_witness :
  let h := mkHost Example.url false 0 in
  let e := JS.mkError "Error" (apiMissingMessage runsList) in
  let w := runsList_init in
  Plain.load h runsList None w = with_store (failed runsList e (store w)) w
  /\ (let w' := Tracked.load h runsList None w in
      store w'
      = failed runsList e (set__currentRequestController (Some (controllers w)) (store w))
      /\ fetches w' = fetches w
      /\ inflight w' = inflight w).
Proof.
  intros h e w.
  assert (Hwt : wellTracked (tracking w)).
  { split.
    - intros x Hx. cbn in Hx. apply not_elem_of_empty in Hx. destruct Hx.
    - intros c Hc. discriminate Hc. }
  exact (load_without_api_fails_at_once h runsList None w eq_refl Hwt).
Defined.

(** ** The spinner is never left on *)

Section Spinner.

Variable h : Host.
Variable cfg : Config.

Lemma invariant_load (cursor : option string) (w : World) :
  wellTracked (tracking w) -> trackedInvariant (Tracked.load h cfg cursor w).
Proof.
  intros Hwt. split; [|split].
  - rewrite tracking_load. now apply wellTracked_loadT.
  - intros _. destruct (apiRegistered h) eqn:Hapi.
    + rewrite tracked_load_registered by assumption. cbn. eauto.
    + rewrite (proj1 (tracked_load_without_api h cfg cursor w Hapi Hwt)).
      cbn. eauto.
  - intros Hloading. destruct (apiRegistered h) eqn:Hapi.
    + rewrite tracked_load_registered by assumption. cbn.
      destruct (inflight w); discriminate.
    + rewrite (proj1 (tracked_load_without_api h cfg cursor w Hapi Hwt))
        in Hloading.
      discriminate Hloading.
Qed.

Lemma settle_clears_loading (signal : nat) (outcome : Outcome) (w : World) :
  wellTracked (tracking w) ->
  is_Some (_currentRequestController (store w)) ->
  signal ∈ inflight w ->
  loading (store (Tracked.settle h cfg signal outcome w)) = false.
Proof.
  intros [_ Hwt] [c Hc] Hin. destruct (Hwt c Hc) as [_ Hnab]. cbn in Hc, Hnab.
  unfold Tracked.settle, Tracked.load_afterAwait, Tracked.load_catch,
    Tracked.load_finally, Tracked.currentAborted, tryFinally, tryCatch, andThen,
    assign, read, ret, throw.
  rewrite (bool_decide_eq_true_2 _ Hin).
  destruct outcome as [r | e]; cbn.
  - destruct (bool_decide (signal ∈ aborted w)); cbn;
      rewrite ?cursorOf_value; cbn; rewrite Hc, (bool_decide_eq_false_2 _ Hnab);
      reflexivity.
  - rewrite Hc, (bool_decide_eq_false_2 _ Hnab).
    destruct (String.eqb (JS.name e) "AbortError"); cbn;
      rewrite Hc, (bool_decide_eq_false_2 _ Hnab); reflexivity.
Qed.

Lemma invariant_settle (signal : nat) (outcome : Outcome) (w : World) :
  trackedInvariant w -> trackedInvariant (Tracked.settle h cfg signal outcome w).
Proof.
  intros [Hwt [Hcur Hspin]].
  destruct (decide (signal ∈ inflight w)) as [Hin | Hnin].
  - assert (Hne : inflight w <> []) by (intros E; rewrite E in Hin; inversion Hin).
    split; [|split].
    + rewrite tracking_settle. exact Hwt.
    + intros _.
      destruct (tracking_fields _ _ (tracking_settle h cfg signal outcome w))
        as [_ [_ ->]].
      exact (Hcur Hne).
    + intros Hloading.
      rewrite settle_clears_loading in Hloading; [discriminate | auto..].
  - unfold Tracked.settle. rewrite (bool_decide_eq_false_2 _ Hnin).
    split; [|split]; assumption.
Qed.

Lemma invariant_quiet (w w' : World) :
  quiet w w' -> trackedInvariant w -> trackedInvariant w'.
Proof.
  intros [Ht [Hi Hl]] [Hwt [Hcur Hspin]].
  destruct (tracking_fields _ _ Ht) as [_ [_ Hc]].
  unfold trackedInvariant, noIdleSpinner. rewrite Ht, Hi, Hl, Hc. auto.
Qed.

Lemma wellTracked_quiet (w w' : World) :
  quiet w w' -> wellTracked (tracking w) -> wellTracked (tracking w').
Proof. intros [-> _]. auto. Qed.

Lemma invariant_debounceCallback (key : string) (w : World) :
  wellTracked (tracking w) -> trackedInvariant (Tracked.debounceCallback h cfg key w).
Proof.
  intros Hwt. unfold Tracked.debounceCallback.
  eapply invariant_quiet; [|apply (invariant_load None (snd (Tracked.resetCursors w)))].
  - repeat split.
  - exact Hwt.
Qed.

Lemma invariant_runDue (queue : list Timeout) (w : World) :
  trackedInvariant w -> trackedInvariant (Tracked.runDue h cfg queue w).
Proof.
  revert w. induction queue as [|t rest IH]; intros w Hinv; cbn [Tracked.runDue];
    [exact Hinv|].
  destruct (_ && _); [|apply IH, Hinv].
  apply IH. apply invariant_debounceCallback. exact (proj1 Hinv).
Qed.

Lemma invariant_elapse (ms : nat) (w : World) :
  trackedInvariant w -> trackedInvariant (Tracked.elapse h cfg ms w).
Proof.
  revert w. induction ms as [|ms IH]; intros w Hinv; cbn [Tracked.elapse];
    [exact Hinv|].
  apply IH. unfold Tracked.tick. apply invariant_runDue.
  eapply invariant_quiet; [|exact Hinv]. repeat split.
Qed.

Lemma invariant_step (w : World) (e : Tracked.Event) :
  trackedInvariant w -> trackedInvariant (Tracked.step h cfg w e).
Proof.
  intros Hinv. pose proof (proj1 Hinv) as Hwt.
  destruct e; cbn [Tracked.step].
  - now apply invariant_load.
  - unfold Tracked.applyFilters. now apply invariant_load.
  - unfold Tracked.clearFilters, Tracked.applyFilters. now apply invariant_load.
  - unfold Tracked.nextPage. destruct (JS.truthy_opt _);
      [now apply invariant_load | exact Hinv].
  - unfold Tracked.previousPage. destruct (JS.truthy_opt _);
      [now apply invariant_load | exact Hinv].
  - unfold Tracked.handleDebouncedFilter.
    destruct (JS.is_empty (JS.trim value)).
    + apply invariant_load.
      destruct (Tracked.timerOf _); exact Hwt.
    + eapply invariant_quiet; [|exact Hinv].
      destruct (Tracked.timerOf _); repeat split.
  - now apply invariant_settle.
  - now apply invariant_elapse.
Qed.

Lemma plain_step_spinner (w : World) (e : Plain.Event) :
  noIdleSpinner w -> noIdleSpinner (Plain.step h cfg w e).
Proof.
  assert (Hload : forall c w0, noIdleSpinner (Plain.load h cfg c w0)).
  { intros c w0 Hloading. destruct (apiRegistered h) eqn:Hapi.
    - rewrite plain_load_registered by assumption. cbn.
      destruct (inflight w0); discriminate.
    - unfold Plain.load, Plain.load_untilAwait, Plain.load_catch, Plain.load_finally,
        tryFinally, andThen, assign, read, ret, throw, callApi in Hloading.
      rewrite Hapi in Hloading. discriminate Hloading. }
  intros Hspin. destruct e; cbn [Plain.step].
  - apply Hload.
  - apply Hload.
  - apply Hload.
  - unfold Plain.nextPage. destruct (JS.truthy_opt _); [apply Hload | exact Hspin].
  - unfold Plain.previousPage. destruct (JS.truthy_opt _); [apply Hload | exact Hspin].
  - destruct (decide (call ∈ inflight w)) as [Hin | Hnin].
    + intros Hloading.
      assert (Hs : loading (store (Plain.settle h cfg call outcome w)) = false).
      { destruct outcome.
        - rewrite plain_settle_fulfilled by assumption. reflexivity.
        - rewrite plain_settle_rejected by assumption. reflexivity. }
      rewrite Hs in Hloading. discriminate Hloading.
    + unfold Plain.settle. rewrite (bool_decide_eq_false_2 _ Hnin). exact Hspin.
Qed.

End Spinner.

(** X9.  The spinner is never left on.  From the state the page defines, and
    after any sequence of commands, settling promises and passing time,
    [loading] is true only while a load is in flight; in the stores with
    request tracking, moreover, the current controller is never aborted and
    every aborted controller was allocated before it. *)
Theorem loading_only_while_in_flight (h : Host) (cfg : Config) (s : Store)
    (tracked : list Tracked.Event) (plain : list Plain.Event) :
  loading s = false ->
  _currentRequestController s = None ->
  (let w := Tracked.run h cfg (initialWorld s) tracked in
   noIdleSpinner w /\ wellTracked (tracking w))
  /\ noIdleSpinner (Plain.run h cfg (initialWorld s) plain).
Proof.
  intros Hloading Hcur.
  assert (H0 : trackedInvariant (initialWorld s)).
  { split; [|split].
    - split.
      + intros x Hx. cbn in Hx. apply not_elem_of_empty in Hx. destruct Hx.
      + intros c Hc. cbn in Hc. congruence.
    - intros Hne. cbn in Hne. congruence.
    - intros Hl. cbn in Hl. congruence. }
  split.
  - assert (Hall : forall es w, trackedInvariant w ->
                                trackedInvariant (Tracked.run h cfg w es)).
    { induction es as [|e es IH]; intros w Hw; cbn [Tracked.run fold_left];
        [exact Hw|]. apply IH, invariant_step, Hw. }
    destruct (Hall tracked _ H0) as [Hwt [_ Hspin]]. split; assumption.
  - assert (Hall : forall es w, noIdleSpinner w ->
                                noIdleSpinner (Plain.run h cfg w es)).
    { induction es as [|e es IH]; intros w Hw; cbn [Plain.run fold_left];
        [exact Hw|]. apply IH, plain_step_spinner, Hw. }
    apply Hall. exact (proj2 (proj2 H0)).
Qed.

Lemma loading_only_while_in_flight_witness :
  let s := initialStore stocks_filters stocks_timers in
  (let w := Tracked.run Example.host stocksList (initialWorld s)
              [Tracked.HandleDebouncedFilter "ticker__icontains" "a";
               Tracked.Elapse 400; Tracked.ApplyFilters;
               Tracked.Settle 0 (Rejected Example.serverError)] in
   noIdleSpinner w /\ wellTracked (tracking w))
  /\ noIdleSpinner
       (Plain.run Example.host stocksList (initialWorld s)
          [Plain.ApplyFilters; Plain.Settle 0 (Fulfilled Example.pageA)]).
Proof.
  intros s.
  exact (loading_only_while_in_flight Example.host stocksList s _ _ eq_refl eq_refl).
Defined.

(** ** What reaches the query *)

Lemma in_append_string_filter (filters : gmap string TransportValue)
    (key k v : string) :
  In (k, v) (append_string_filter filters key) <->
  k = key /\ exists value, filters !! key = Some value
                           /\ value <> TString "" /\ v = toString value.
Proof.
  unfold append_string_filter.
  destruct (filters !! key) as [[[|a s]|b]|]; cbn; split.
  - intros [].
  - intros [_ [value [[= <-] [Hne _]]]]. now apply Hne.
  - intros [[= <- <-] | []]. split; [reflexivity|]. eexists. repeat split. done.
  - intros [-> [value [[= <-] [_ ->]]]]. now left.
  - intros [[= <- <-] | []]. split; [reflexivity|]. eexists. repeat split. done.
  - intros [-> [value [[= <-] [_ ->]]]]. now left.
  - intros [].
  - intros [_ [value [[=] _]]].
Qed.

Lemma in_append_boolean_filter (filters : gmap string TransportValue)
    (key k v : string) :
  In (k, v) (append_boolean_filter filters key) <->
  k = key /\ exists value, filters !! key = Some value /\ v = toString value.
Proof.
  unfold append_boolean_filter.
  destruct (filters !! key) as [value|]; cbn; split.
  - intros [[= <- <-] | []]. split; [reflexivity|]. eauto.
  - intros [-> [value' [[= <-] ->]]]. now left.
  - intros [].
  - intros [_ [value [[=] _]]].
Qed.

Lemma in_filterParams (filters : gmap string TransportValue)
    (stringFilterKeys booleanFilterKeys : list string) (k v : string) :
  In (k, v) (filterParams filters stringFilterKeys booleanFilterKeys) <->
  exists value, filters !! k = Some value /\ v = toString value
                /\ ((In k stringFilterKeys /\ value <> TString "")
                    \/ In k booleanFilterKeys).
Proof.
  unfold filterParams. rewrite in_app_iff, !in_flat_map. split.
  - intros [[key [Hkey Hin]] | [key [Hkey Hin]]].
    + apply in_append_string_filter in Hin.
      destruct Hin as [-> [value [Hv [Hne ->]]]]. exists value. auto.
    + apply in_append_boolean_filter in Hin.
      destruct Hin as [-> [value [Hv ->]]]. exists value. auto.
  - intros [value [Hv [-> [[Hkey Hne] | Hkey]]]].
    + left. exists k. split; [exact Hkey|]. apply in_append_string_filter. eauto.
    + right. exists k. split; [exact Hkey|]. apply in_append_boolean_filter. eauto.
Qed.

Lemma buildQueryParams_split (pageSize : nat) (cursor : option string)
    (filters : gmap string TransportValue)
    (stringFilterKeys booleanFilterKeys : list string) :
  exists paging,
    buildQueryParams pageSize cursor filters stringFilterKeys booleanFilterKeys
    = (paging ++ filterParams filters stringFilterKeys booleanFilterKeys)%list
    /\ Forall (fun kv => fst kv = "page_size" \/ fst kv = "cursor") paging.
Proof.
  unfold buildQueryParams, filterParams.
  exists ((if Nat.eqb pageSize 0 then []
           else [("page_size", number_toString pageSize)])
          ++ (match cursor with
              | Some c => if JS.truthy c then [("cursor", c)] else []
              | None => []
              end))%list.
  split; [now rewrite <- app_assoc|].
  apply Forall_app. split.
  - destruct (Nat.eqb pageSize 0); repeat constructor.
  - destruct cursor as [c|]; [destruct (JS.truthy c)|]; try constructor;
      [now right | constructor].
Qed.

(** X10.  [buildQueryParams] sends nothing but what it is told to.  Every
    parameter it appends is [page_size], [cursor], or a key of the two lists
    it is given, and a listed key is sent exactly when the filters object has
    it (for a string key: with a value other than the empty string).  A key of
    the filters object that is in neither list never reaches the query. *)
Theorem query_has_listed_keys_only (pageSize : nat) (cursor : option string)
    (filters : gmap string TransportValue)
    (stringFilterKeys booleanFilterKeys : list string) (k v : string) :
  k <> "page_size" -> k <> "cursor" ->
  (In (k, v) (buildQueryParams pageSize cursor filters stringFilterKeys
                booleanFilterKeys)
   <-> exists value, filters !! k = Some value /\ v = toString value
                     /\ ((In k stringFilterKeys /\ value <> TString "")
                         \/ In k booleanFilterKeys)).
Proof.
  intros Hps Hc.
  destruct (buildQueryParams_split pageSize cursor filters stringFilterKeys
              booleanFilterKeys) as [paging [-> Hpaging]].
  rewrite in_app_iff, in_filterParams. split.
  - intros [Hin | H]; [|exact H].
    rewrite List.Forall_forall in Hpaging.
    destruct (Hpaging _ Hin) as [E | E]; cbn in E; congruence.
  - auto.
Qed.

Lemma query_has_listed_keys_only_witness :
  let filters : gmap string TransportValue :=
    <["state" := TString "FAILED"]> (<["is_terminal" := TBool true]>
      (<["colour" := TString "red"]> ∅)) in
  (In ("colour", "red") (listRuns_params 50 None filters)
   <-> exists value, filters !! "colour" = Some value /\ "red" = toString value
                     /\ ((In "colour" runs_stringFilterKeys /\ value <> TString "")
                         \/ In "colour" runs_booleanFilterKeys)).
Proof.
  intros filters.
  assert (H1 : "colour" <> "page_size") by done.
  assert (H2 : "colour" <> "cursor") by done.
  exact (query_has_listed_keys_only 50 None filters runs_stringFilterKeys
           runs_booleanFilterKeys "colour" "red" H1 H2).
Defined.

Lemma flat_map_ext_in {A B} (f g : A -> list B) (l : list A) :
  (forall x, In x l -> f x = g x) -> flat_map f l = flat_map g l.
Proof.
  induction l as [|x l IH]; intros H; [reflexivity|]. cbn.
  rewrite (H x (or_introl eq_refl)), IH; [reflexivity|].
  intros y Hy. apply H. now right.
Qed.

(** X11.  The sector filters of the stocks list stores never reach the
    server.  [listTickers] forwards the keys ticker, ticker__icontains,
    sector, sector__icontains, exchange__name and country; the stores keep
    their sector filters under sector__name and sector__name__icontains.  So
    whatever such a filter holds, the parameters of the request are the same
    as without it. *)
Theorem sector_filter_is_never_sent (pageSize : nat) (cursor : option string)
    (filters : gmap string string) (key value : string) :
  key = "sector__name" \/ key = "sector__name__icontains" ->
  listTickers_params pageSize cursor (stocks_activeFilters (<[key := value]> filters))
  = listTickers_params pageSize cursor (stocks_activeFilters (delete key filters)).
Proof.
  intros Hkey.
  unfold listTickers_params. do 2 f_equal.
  apply flat_map_ext_in. intros key' Hkey'.
  unfold append_string_filter.
  rewrite !stocks_activeFilters_lookup.
  assert (Hne : key <> key').
  { unfold tickers_stringFilterKeys in Hkey'. cbn in Hkey'.
    intuition (subst; discriminate). }
  rewrite lookup_insert_ne, lookup_delete_ne by exact Hne. reflexivity.
Qed.

Lemma sector_filter_is_never_sent_witness :
  listTickers_params 50 None
    (stocks_activeFilters (<["sector__name__icontains" := "Energy"]> stocks_filters))
  = listTickers_params 50 None
      (stocks_activeFilters (delete "sector__name__icontains" stocks_filters)).
Proof.
  apply (sector_filter_is_never_sent 50 None stocks_filters
           "sector__name__icontains" "Energy").
  right. reflexivity.
Defined.

(** No list store puts an empty string among the active filters. *)
Lemma string_filter_nonempty (raw : string) (value : TransportValue) :
  string_filter raw = Some value -> value <> TString "".
Proof.
  rewrite string_filter_trim.
  destruct (JS.is_empty (JS.trim raw)) eqn:E; [discriminate|].
  intros [= <-] [= H]. apply is_empty_true in H. congruence.
Qed.

Lemma boolean_filter_nonempty (raw : string) (value : TransportValue) :
  boolean_filter raw = Some value -> value <> TString "".
Proof.
  unfold boolean_filter. destruct (negb (JS.is_empty raw)); [|discriminate].
  intros [= <-]. discriminate.
Qed.

Lemma date_filter_startOfDay_nonempty (raw : string) (value : TransportValue) :
  date_filter_startOfDay raw = Some value -> value <> TString "".
Proof.
  unfold date_filter_startOfDay.
  destruct (JS.truthy raw && negb (JS.is_empty (JS.trim raw))); [|discriminate].
  cbn zeta. destruct (isDateOnly (JS.trim raw)); [|discriminate].
  intros [= <-] [= H]. destruct (JS.trim raw); discriminate H.
Qed.

Lemma date_filter_localMidnight_nonempty (h : Host) (raw : string)
    (value : TransportValue) :
  date_filter_localMidnight h raw = Some value -> value <> TString "".
Proof.
  unfold date_filter_localMidnight.
  destruct (JS.truthy raw && negb (JS.is_empty (JS.trim raw))); [|discriminate].
  cbn zeta. destruct (DateUtils.dateToUTCISO _ _) as [utcISO|]; [|discriminate].
  destruct (JS.truthy utcISO) eqn:E; [|discriminate].
  intros [= <-] [= ->]. discriminate E.
Qed.

Lemma runs_activeFilters_nonempty (filters : gmap string string) (key : string)
    (value : TransportValue) :
  runs_activeFilters filters !! key = Some value -> value <> TString "".
Proof.
  unfold runs_activeFilters. rewrite map_lookup_imap.
  destruct (filters !! key) as [raw|]; [|discriminate]. cbn.
  destruct (is_runs_boolean_key key); [apply boolean_filter_nonempty|].
  destruct (is_runs_date_key key);
    [apply date_filter_startOfDay_nonempty | apply string_filter_nonempty].
Qed.

Lemma trackedRuns_activeFilters_nonempty (h : Host) (filters : gmap string string)
    (key : string) (value : TransportValue) :
  trackedRuns_activeFilters h filters !! key = Some value -> value <> TString "".
Proof.
  unfold trackedRuns_activeFilters. rewrite map_lookup_imap.
  destruct (filters !! key) as [raw|]; [|discriminate]. cbn.
  destruct (is_runs_boolean_key key); [apply boolean_filter_nonempty|].
  destruct (is_runs_date_key key);
    [apply date_filter_localMidnight_nonempty | apply string_filter_nonempty].
Qed.

Lemma bulk_activeFilters_nonempty (h : Host) (filters : gmap string string)
    (key : string) (value : TransportValue) :
  bulk_activeFilters h filters !! key = Some value -> value <> TString "".
Proof.
  unfold bulk_activeFilters. rewrite map_lookup_imap.
  destruct (filters !! key) as [raw|]; [|discriminate]. cbn.
  destruct (is_bulk_boolean_key key); [apply boolean_filter_nonempty|].
  destruct (is_bulk_date_key key);
    [apply date_filter_localMidnight_nonempty | apply string_filter_nonempty].
Qed.

Lemma forwards_listed (pageSize : nat) (cursor : option string)
    (activeFilters : gmap string TransportValue)
    (stringFilterKeys booleanFilterKeys : list string) (key : string) :
  key <> "page_size" -> key <> "cursor" ->
  (forall value, activeFilters !! key = Some value -> value <> TString "") ->
  In key stringFilterKeys \/ In key booleanFilterKeys ->
  forwards (buildQueryParams pageSize cursor activeFilters stringFilterKeys
              booleanFilterKeys) activeFilters key.
Proof.
  intros Hps Hc Hne Hlisted v.
  destruct (buildQueryParams_split pageSize cursor activeFilters stringFilterKeys
              booleanFilterKeys) as [paging [-> Hpaging]].
  rewrite in_app_iff, in_filterParams. split.
  - intros [Hin | [value [Hv [-> _]]]]; [|eauto].
    rewrite List.Forall_forall in Hpaging.
    destruct (Hpaging _ Hin) as [E | E]; cbn in E; congruence.
  - intros [value [Hv ->]]. right. exists value. repeat split; [exact Hv|].
    destruct Hlisted as [H | H]; [left; split; [exact H | now apply Hne] | now right].
Qed.

(** X12.  The three lists of runs forward every filter they declare.  For
    each key of the filters object of the runs list store (with or without
    request tracking) and of the bulk queue runs list store, [listRuns] or
    [listBulkQueueRuns] puts the key in the query exactly when the store made
    it an active filter, with the value the store gave it: the key lists of the
    API client cover the filters of these stores, unlike those of the stocks
    list. *)
Theorem runs_filters_all_forwarded (h : Host) (pageSize : nat)
    (cursor : option string) (filters : gmap string string) (key : string) :
  (key ∈ dom runs_filters ->
   forwards (listRuns_params pageSize cursor (runs_activeFilters filters))
     (runs_activeFilters filters) key)
  /\ (key ∈ dom trackedRuns_filters ->
      forwards (listRuns_params pageSize cursor (trackedRuns_activeFilters h filters))
        (trackedRuns_activeFilters h filters) key)
  /\ (key ∈ dom bulk_filters ->
      forwards (listBulkQueueRuns_params pageSize cursor (bulk_activeFilters h filters))
        (bulk_activeFilters h filters) key).
Proof.
  split; [|split]; intros Hkey.
  - apply forwards_listed;
      [ | | apply runs_activeFilters_nonempty | ];
      unfold runs_filters in Hkey; set_unfold in Hkey;
      unfold runs_stringFilterKeys, runs_booleanFilterKeys; cbn [In];
      intuition (subst; first [discriminate | tauto]).
  - apply forwards_listed;
      [ | | apply trackedRuns_activeFilters_nonempty | ];
      unfold trackedRuns_filters in Hkey; set_unfold in Hkey;
      unfold runs_stringFilterKeys, runs_booleanFilterKeys; cbn [In];
      intuition (subst; first [discriminate | tauto]).
  - apply forwards_listed;
      [ | | apply bulk_activeFilters_nonempty | ];
      unfold bulk_filters in Hkey; set_unfold in Hkey;
      unfold bulk_stringFilterKeys, bulk_booleanFilterKeys; cbn [In];
      intuition (subst; first [discriminate | tauto]).
Qed.

Lemma runs_filters_all_forwarded_witness :
  let active := runs_activeFilters (<["state" := " FAILED "]> runs_filters) in
  forwards (listRuns_params 50 None active) active "state".
Proof.
  intros active.
  destruct (runs_filters_all_forwarded Example.host 50 None
              (<["state" := " FAILED "]> runs_filters) "state") as [H _].
  apply H. unfold runs_filters. set_solver.
Defined.

(** X13.  A boolean filter of the runs list store is sent for every value but
    the empty string, whitespace included, and as false for everything that is
    not the word true in some capitalisation: the value is tested with
    [value !== ''] and compared after [toLowerCase] without being trimmed. *)
Theorem boolean_filter_sent_untrimmed (pageSize : nat) (cursor : option string)
    (filters : gmap string string) (key raw : string) :
  key = "is_terminal" \/ key = "is_in_progress" ->
  filters !! key = Some raw ->
  forall v,
    In (key, v) (listRuns_params pageSize cursor (runs_activeFilters filters))
    <-> raw <> ""
        /\ v = (if String.eqb (JS.toLowerCase raw) "true" then "true" else "false").
Proof.
  intros Hkey Hraw v.
  assert (Hlookup : runs_activeFilters filters !! key = boolean_filter raw).
  { unfold runs_activeFilters. rewrite map_lookup_imap, Hraw. cbn.
    destruct Hkey as [-> | ->]; reflexivity. }
  assert (Hfw : forwards (listRuns_params pageSize cursor (runs_activeFilters filters))
                  (runs_activeFilters filters) key).
  { apply forwards_listed;
      [ | | apply runs_activeFilters_nonempty
        | right; unfold runs_booleanFilterKeys; cbn [In] ];
      destruct Hkey as [-> | ->]; first [discriminate | tauto]. }
  rewrite (Hfw v), Hlookup. unfold boolean_filter.
  destruct (JS.is_empty raw) eqn:E; cbn [negb].
  - apply is_empty_true in E. subst raw.
    split; [intros [value [[=] _]] | intros [H _]; now elim H].
  - assert (Hne : raw <> "") by (intros ->; discriminate E).
    split.
    + intros [value [Hv ->]]. injection Hv as <-. split; [exact Hne|].
      cbn [toString]. now destruct (String.eqb _ _).
    + intros [_ ->]. eexists. split; [reflexivity|].
      cbn [toString]. now destruct (String.eqb _ _).
Qed.

Lemma boolean_filter_sent_untrimmed_witness :
  In ("is_terminal", "false")
    (listRuns_params 50 None (runs_activeFilters (<["is_terminal" := " true"]> ∅))).
Proof.
  apply (boolean_filter_sent_untrimmed 50 None (<["is_terminal" := " true"]> ∅)
           "is_terminal" " true").
  - left. reflexivity.
  - reflexivity.
  - split; [discriminate | reflexivity].
Defined.

(** ** From the HTTP response to the store *)

Lemma orElse_nonempty (a : option string) (b : string) :
  b <> "" -> orElse a b <> "".
Proof.
  intros Hb. unfold orElse. destruct a as [[|c s]|]; cbn; [exact Hb | done | exact Hb].
Qed.

Lemma messageOr_own (name message fallback : string) :
  message <> "" -> messageOr (JS.mkError name message) fallback = message.
Proof. intros H. unfold messageOr. cbn. now destruct message. Qed.

(** X14.  When the server answers a list request with a failure status and a
    JSON object, the store shows the server's own words.  The message is
    [error.message] of the body if it has one that is not empty, else its
    [detail] if that is not empty, else the text with the status; it is never
    empty, so the fallback text of the store is not used; the list and both
    cursors are emptied.  Stated for the stores without request tracking and,
    for the current request, for those with it. *)
Theorem http_failure_shows_server_message (h : Host) (cfg : Config)
    (fetched : FetchResponse) (body : Data) (call : nat) (w : World) :
  fr_ok fetched = false ->
  fr_status fetched <> 204 ->
  fr_json fetched = JS.Normal body ->
  call ∈ inflight w ->
  let outcome := list_afterRequest (request_afterFetch (JS.Normal fetched)) in
  let message :=
    orElse (error_message body)
      (orElse (detail body)
         ("Request failed with status " ++ number_toString (fr_status fetched))) in
  let shown (w' : World) :=
    error (store w') = Some message /\ page w' = ([], None, None) in
  message <> ""
  /\ shown (Plain.settle h cfg call outcome w)
  /\ (call ∉ aborted w -> _currentRequestController (store w) = Some call ->
      shown (Tracked.settle h cfg call outcome w)).
Proof.
  intros Hok Hstatus Hjson Hin outcome message shown.
  assert (Hne : message <> "") by (unfold message; do 2 apply orElse_nonempty; done).
  assert (Hout : outcome = Rejected (JS.mkError "Error" message)).
  { unfold outcome, request_afterFetch, list_afterRequest. cbn.
    apply Nat.eqb_neq in Hstatus. rewrite Hstatus, Hjson. cbn. rewrite Hok.
    reflexivity. }
  split; [exact Hne|].
  assert (Hfailed : forall s,
             let s' := failed cfg (JS.mkError "Error" message) s in
             error s' = Some message
             /\ (items s', nextCursor s', previousCursor s') = ([], None, None)).
  { intros s. cbn. rewrite messageOr_own by exact Hne. now split. }
  split.
  - unfold shown, page. rewrite Hout, plain_settle_rejected by exact Hin.
    apply Hfailed.
  - intros Hab Hcur. unfold shown, page.
    rewrite Hout, settle_current_rejected by (try assumption; discriminate).
    apply Hfailed.
Qed.

Lemma http_failure_shows_server_message_witness :
  let fetched :=
    mkFetchResponse 404 false
      (JS.Normal (mkData (mkResponse None None None) None (Some "Not found."))) in
  let w := loadRuns Example.host None runsList_init in
  error (store (Plain.settle Example.host runsList 0
                  (list_afterRequest (request_afterFetch (JS.Normal fetched))) w))
  = Some "Not found.".
Proof.
  intros fetched w.
  assert (Hok : fr_ok fetched = false) by reflexivity.
  assert (Hstatus : fr_status fetched <> 204) by (cbn; lia).
  assert (Hjson : fr_json fetched
                  = JS.Normal (mkData (mkResponse None None None) None
                                 (Some "Not found."))) by reflexivity.
  assert (Hin : 0 ∈ inflight w) by (vm_compute; apply list_elem_of_here).
  destruct (http_failure_shows_server_message Example.host runsList fetched _ 0 w
              Hok Hstatus Hjson Hin) as [_ [[Herr _] _]].
  exact Herr.
Defined.

(** X15.  A 204 answer is an empty page.  [request] does not read the body of
    a 204 response and returns the object [{ success: true }] as its data; the
    list method passes it on, and the store, finding neither [results] nor
    links in it, shows an empty list without cursors and without touching
    [error]. *)
Theorem no_content_is_an_empty_page (h : Host) (cfg : Config)
    (fetched : FetchResponse) (call : nat) (w : World) :
  fr_status fetched = 204 ->
  fr_ok fetched = true ->
  call ∈ inflight w ->
  let outcome := list_afterRequest (request_afterFetch (JS.Normal fetched)) in
  let w' := Plain.settle h cfg call outcome w in
  page w' = ([], None, None)
  /\ error (store w') = error (store w)
  /\ loading (store w') = false.
Proof.
  intros Hstatus Hok Hin outcome w'.
  assert (Hout : outcome = Fulfilled (mkResponse None None None)).
  { unfold outcome, request_afterFetch, list_afterRequest. cbn.
    rewrite Hstatus. cbn. rewrite Hok. reflexivity. }
  unfold w', page. rewrite Hout, plain_settle_fulfilled by exact Hin.
  cbn. repeat split.
Qed.

Lemma no_content_is_an_empty_page_witness :
  let fetched :=
    mkFetchResponse 204 true (JS.Throw (JS.mkError "SyntaxError" "Unexpected end of JSON input")) in
  let w := loadRuns Example.host None runsList_init in
  page (Plain.settle Example.host runsList 0
          (list_afterRequest (request_afterFetch (JS.Normal fetched))) w)
  = ([], None, None).
Proof.
  intros fetched w.
  assert (Hin : 0 ∈ inflight w) by (vm_compute; apply list_elem_of_here).
  destruct (no_content_is_an_empty_page Example.host runsList fetched 0 w
              eq_refl eq_refl Hin) as [Hpage _].
  exact Hpage.
Defined.

(** X16.  A body that is not JSON is a failed load whatever the status.  When
    [response.json()] throws, [request] throws the same error again, the list
    method does too, and the store shows the message of the parser: for a
    success status as well, and without the status appearing anywhere. *)
Theorem unparsable_body_fails_the_load (h : Host) (cfg : Config)
    (fetched : FetchResponse) (e : JS.Error) (call : nat) (w : World) :
  fr_status fetched <> 204 ->
  fr_json fetched = JS.Throw e ->
  call ∈ inflight w ->
  store (Plain.settle h cfg call
           (list_afterRequest (request_afterFetch (JS.Normal fetched))) w)
  = failed cfg e (store w).
Proof.
  intros Hstatus Hjson Hin.
  assert (Hout : list_afterRequest (request_afterFetch (JS.Normal fetched))
                 = Rejected e).
  { unfold request_afterFetch, list_afterRequest. cbn.
    apply Nat.eqb_neq in Hstatus. rewrite Hstatus, Hjson. reflexivity. }
  rewrite Hout. now apply plain_settle_rejected.
Qed.

Lemma unparsable_body_fails_the_load_witness :
  let e := JS.mkError "SyntaxError" "Unexpected token < in JSON at position 0" in
  let fetched := mkFetchResponse 200 true (JS.Throw e) in
  let w := loadRuns Example.host None runsList_init in
  store (Plain.settle Example.host runsList 0
           (list_afterRequest (request_afterFetch (JS.Normal fetched))) w)
  = failed runsList e (store w).
Proof.
  intros e fetched w.
  apply (unparsable_body_fails_the_load Example.host runsList fetched e 0 w).
  - cbn. lia.
  - reflexivity.
  - vm_compute. apply list_elem_of_here.
Defined.

(** ** The run details modal: closing, waiting, opening again *)

Section RunDetailsModal.
Import RunDetailsModal.

Lemma clearIfClosed_open (s : State) :
  isOpen s = true -> clearIfClosed s = s.
Proof. intros H. unfold clearIfClosed. now rewrite H. Qed.

Lemma runDue_open (queue : list nat) (s : State) :
  isOpen s = true ->
  isOpen (runDue queue s) = true /\ runData (runDue queue s) = runData s.
Proof.
  revert s. induction queue as [|due rest IH]; intros s Hopen; cbn [runDue];
    [now split|].
  destruct (Nat.leb due (time s)); [|now apply IH].
  rewrite clearIfClosed_open by exact Hopen.
  now apply (IH (mkState _ _ _ _)).
Qed.

Lemma elapse_open (ms : nat) (s : State) :
  isOpen s = true ->
  isOpen (elapse ms s) = true /\ runData (elapse ms s) = runData s.
Proof.
  revert s. induction ms as [|ms IH]; intros s Hopen; cbn [elapse]; [now split|].
  destruct (runDue_open (timers s) (mkState (isOpen s) (runData s) (S (time s))
                                      (timers s)) Hopen) as [H1 H2].
  destruct (IH (tick s) H1) as [H3 H4].
  split; [exact H3|]. rewrite H4. exact H2.
Qed.

(** X17.  A modal that is opened stays as it was opened, whatever callbacks of
    earlier closings are still to run: each of them finds [isOpen] true and
    leaves [runData] alone.  So closing a modal and opening another row within
    the 250 ms does not blank the new row. *)
Theorem reopened_modal_keeps_its_data (s : State) (data : Item) (ms : nat) :
  let s' := elapse ms (openModal (Some data) s) in
  isOpen s' = true /\ runData s' = Some data.
Proof.
  intros s'. unfold s'.
  destruct (elapse_open ms (openModal (Some data) s) eq_refl) as [H1 H2].
  split; [exact H1 | exact H2].
Qed.

(** What [runDue] keeps of the state when the modal is closed. *)
Lemma runDue_closed (queue : list nat) (s : State) :
  isOpen s = false ->
  let s' := runDue queue s in
  isOpen s' = false
  /\ time s' = time s
  /\ (runData s = None -> runData s' = None)
  /\ ((exists due, In due queue /\ due <= time s) -> runData s' = None)
  /\ (forall d, In d (timers s') -> In d (timers s))
  /\ (forall d, In d (timers s) -> (d <= time s -> ~ In d queue) -> In d (timers s'))
  /\ (forall d, In d queue -> d <= time s -> ~ In d (timers s')).
Proof.
  revert s. induction queue as [|due rest IH]; intros s Hclosed; cbn [runDue].
  - cbn. repeat split; try tauto. intros [due [[] _]].
  - destruct (Nat.leb due (time s)) eqn:Hdue.
    + apply Nat.leb_le in Hdue.
      set (s1 := clearIfClosed _).
      assert (H1 : isOpen s1 = false /\ time s1 = time s /\ runData s1 = None
                   /\ timers s1
                      = List.filter (fun d => negb (Nat.eqb d due)) (timers s)).
      { unfold s1, clearIfClosed. cbn. rewrite Hclosed. cbn. repeat split. }
      destruct H1 as [Ho [Ht [Hd Hq]]].
      destruct (IH s1 Ho) as [I1 [I2 [I3 [I4 [I5 [I6 I7]]]]]].
      cbn zeta in *. rewrite Ht in *.
      repeat split.
      * exact I1.
      * exact I2.
      * intros _. now apply I3.
      * intros _. now apply I3.
      * intros d Hin. apply I5 in Hin. rewrite Hq in Hin.
        apply filter_In in Hin. tauto.
      * intros d Hin Hnot. apply I6.
        -- rewrite Hq. apply filter_In. split; [exact Hin|].
           apply negb_true_iff, Nat.eqb_neq. intros ->.
           apply (Hnot Hdue). now left.
        -- intros Hle Hrest. apply (Hnot Hle). now right.
      * intros d [<- | Hin] Hle.
        -- intros Hin. apply I5 in Hin. rewrite Hq in Hin.
           apply filter_In in Hin. destruct Hin as [_ Hne].
           apply negb_true_iff, Nat.eqb_neq in Hne. now apply Hne.
        -- now apply I7.
    + apply Nat.leb_gt in Hdue.
      destruct (IH s Hclosed) as [I1 [I2 [I3 [I4 [I5 [I6 I7]]]]]].
      cbn zeta in *.
      repeat split; try assumption.
      * intros [d [[<- | Hin] Hle]]; [lia|]. apply I4. eauto.
      * intros d Hin Hnot. apply I6; [exact Hin|].
        intros Hle Hrest. apply (Hnot Hle). now right.
      * intros d [<- | Hin] Hle; [lia|]. now apply I7.
Qed.

Lemma tick_closing (limit : nat) (s : State) :
  closing limit s ->
  closing limit (tick s)
  /\ time (tick s) = S (time s)
  /\ (forall d, In d (timers (tick s)) -> S (time s) < d).
Proof.
  intros [Hclosed Hdata]. unfold tick. cbn zeta.
  set (s0 := mkState (isOpen s) (runData s) (S (time s)) (timers s)).
  destruct (runDue_closed (timers s) s0 Hclosed) as [I1 [I2 [I3 [I4 [I5 [I6 I7]]]]]].
  cbn zeta in *. change (time s0) with (S (time s)) in *.
  change (timers s0) with (timers s) in *. change (runData s0) with (runData s) in *.
  split; [|split].
  - split; [exact I1|].
    destruct Hdata as [Hnone | [due [Hin Hle]]]; [left; now apply I3|].
    destruct (Nat.le_gt_cases due (S (time s))) as [Hdue | Hlater].
    + left. apply I4. eauto.
    + right. exists due. split; [|exact Hle]. apply I6; [exact Hin | lia].
  - exact I2.
  - intros d Hin.
    destruct (Nat.le_gt_cases d (S (time s))) as [Hdue | Hlater]; [|exact Hlater].
    exfalso. apply (I7 d); [now apply I5 | exact Hdue | exact Hin].
Qed.

Lemma elapse_closing (limit ms : nat) (s : State) :
  closing limit s ->
  closing limit (elapse ms s)
  /\ time (elapse ms s) = time s + ms
  /\ (0 < ms -> forall d, In d (timers (elapse ms s)) -> time s + ms < d).
Proof.
  revert s. induction ms as [|ms IH]; intros s Hc; cbn [elapse].
  - split; [exact Hc|]. split; [lia | intros H; lia].
  - destruct (tick_closing limit s Hc) as [Hc' [Ht Hq]].
    destruct (IH (tick s) Hc') as [J1 [J2 J3]].
    split; [exact J1|]. split; [lia|].
    intros _ d Hin. destruct ms as [|ms'].
    + cbn [elapse] in Hin. apply Hq in Hin. lia.
    + assert (H := J3 ltac:(lia) d Hin). lia.
Qed.

Lemma runDue_early (queue : list nat) (s : State) :
  Forall (fun d => time s < d) queue -> runDue queue s = s.
Proof.
  induction 1 as [|d rest Hd _ IH]; cbn [runDue]; [reflexivity|].
  assert (E : Nat.leb d (time s) = false) by (apply Nat.leb_gt; lia).
  rewrite E. exact IH.
Qed.

(** X18.  Closing the modal hides it at once and drops its data 250 ms
    later.  Whatever the modal showed and whatever callbacks were pending,
    [isOpen] is false from the call on, and once 250 ms have passed without
    the modal being opened [runData] is [null].  Before that, if no callback
    of an earlier closing was pending, the data are still those shown, so the
    closing animation has them. *)
Theorem closed_modal_drops_data_after_delay (s : State) (ms : nat) :
  let s' := elapse ms (closeModal s) in
  isOpen s' = false
  /\ (250 <= ms -> runData s' = None)
  /\ (ms < 250 -> timers s = [] -> runData s' = runData s).
Proof.
  intros s'.
  assert (Hc : closing (time s + 250) (closeModal s)).
  { split; [reflexivity|]. right. exists (time s + 250). split; [|lia].
    cbn. apply in_or_app. right. now left. }
  destruct (elapse_closing (time s + 250) ms (closeModal s) Hc)
    as [[Hclosed Hdata] [Ht Hq]].
  fold s' in Hclosed, Hdata, Ht, Hq. cbn [closeModal time] in Ht, Hq.
  split; [exact Hclosed|]. split.
  - intros Hms. destruct Hdata as [Hnone | [due [Hin Hle]]]; [exact Hnone|].
    assert (H := Hq ltac:(lia) due Hin). lia.
  - intros Hms Hnone. unfold s'. clear - Hms Hnone.
    assert (G : forall n t, t + n < time s + 250 ->
               runData (elapse n (mkState false (runData s) t [time s + 250]))
               = runData s).
    { induction n as [|n IH]; intros t Ht; cbn [elapse]; [reflexivity|].
      unfold tick. cbn [isOpen runData time timers].
      rewrite runDue_early by (repeat constructor; cbn; lia).
      apply IH. lia. }
    unfold closeModal. rewrite Hnone. cbn [app]. apply G. lia.
Qed.

Lemma closed_modal_drops_data_after_delay_witness :
  let s := mkState true (Some "run 7") 1000 [] in
  runData (elapse 250 (closeModal s)) = None
  /\ runData (elapse 249 (closeModal s)) = Some "run 7".
Proof.
  intros s.
  destruct (closed_modal_drops_data_after_delay s 250) as [_ [Hgone _]].
  destruct (closed_modal_drops_data_after_delay s 249) as [_ [_ Hkept]].
  split; [apply Hgone; lia | apply Hkept; [lia | reflexivity]].
Defined.

End RunDetailsModal.

(** ** State names and their classes *)

(** X19.  The colours of a state agree across the modals.  For every state the
    badge class of the bulk queue run details modal begins with the class of
    its progress bar, and the badge of the run details modal is the same as
    that of the bulk modal except for a state that none of the tests
    recognises, which is shown as information in the one and in the neutral
    colour in the other. *)
Theorem state_classes_agree (state : string) :
  String.prefix (getProgressBarClass state) (bulk_getStateBadgeClass state) = true
  /\ (runDetails_getStateBadgeClass state = bulk_getStateBadgeClass state
      \/ (state <> ""
          /\ runDetails_getStateBadgeClass state = "bg-info text-info-text"
          /\ bulk_getStateBadgeClass state = "bg-theme-tertiary text-theme-primary")).
Proof.
  unfold getProgressBarClass, bulk_getStateBadgeClass, runDetails_getStateBadgeClass.
  destruct state as [|c state]; [split; [reflexivity | now left]|].
  cbn [JS.truthy JS.is_empty negb]. cbn zeta.
  set (stateUpper := toUpperCase (String c state)).
  destruct (String.eqb stateUpper "DONE"); [split; [reflexivity | now left]|].
  destruct (String.eqb stateUpper "FAILED"); [split; [reflexivity | now left]|].
  destruct (String.eqb stateUpper "FETCHING" || String.eqb stateUpper "DELTA_RUNNING");
    [split; [reflexivity | now left]|].
  destruct (String.eqb stateUpper "FETCHED" || String.eqb stateUpper "DELTA_FINISHED");
    [split; [reflexivity | now left]|].
  destruct (includes "QUEUED" stateUpper); [split; [reflexivity | now left]|].
  split; [reflexivity|]. right. repeat split. discriminate.
Qed.

Lemma is_word_upperWord (c : ascii) : is_word (upperWord c) = is_word c.
Proof. destruct c as [[] [] [] [] [] [] [] []]; reflexivity. Qed.

Lemma upperWord_idempotent (c : ascii) : upperWord (upperWord c) = upperWord c.
Proof. destruct c as [[] [] [] [] [] [] [] []]; reflexivity. Qed.

Lemma upperWord_not_underscore (c : ascii) :
  Ascii.eqb c "_" = false -> Ascii.eqb (upperWord c) "_" = false.
Proof. destruct c as [[] [] [] [] [] [] [] []]; intros H; first [reflexivity | discriminate H]. Qed.

Lemma replaceUnderscores_noUnderscore (s : string) :
  noUnderscore (replaceUnderscores s) = true.
Proof.
  induction s as [|c s IH]; [reflexivity|]. cbn [replaceUnderscores noUnderscore].
  rewrite IH, andb_true_r. destruct (Ascii.eqb c "_") eqn:E; [reflexivity|].
  now rewrite E.
Qed.

Lemma replaceUnderscores_fixed (s : string) :
  noUnderscore s = true -> replaceUnderscores s = s.
Proof.
  induction s as [|c s IH]; [reflexivity|]. cbn [replaceUnderscores noUnderscore].
  intros H. apply andb_true_iff in H. destruct H as [Hc Hs].
  apply negb_true_iff in Hc. rewrite Hc, IH by exact Hs. reflexivity.
Qed.

Lemma capitalizeWords_noUnderscore (boundary : bool) (s : string) :
  noUnderscore s = true -> noUnderscore (capitalizeWords boundary s) = true.
Proof.
  revert boundary. induction s as [|c s IH]; intros boundary; [reflexivity|].
  cbn [capitalizeWords noUnderscore]. intros H. apply andb_true_iff in H.
  destruct H as [Hc Hs]. apply negb_true_iff in Hc.
  rewrite IH by exact Hs. rewrite andb_true_r.
  destruct (boundary && is_word c); [|now rewrite Hc].
  now rewrite upperWord_not_underscore.
Qed.

Lemma capitalizeWords_idempotent (boundary : bool) (s : string) :
  capitalizeWords boundary (capitalizeWords boundary s) = capitalizeWords boundary s.
Proof.
  revert boundary. induction s as [|c s IH]; intros boundary; [reflexivity|].
  cbn [capitalizeWords].
  destruct (boundary && is_word c) eqn:E.
  - rewrite is_word_upperWord, E, upperWord_idempotent, IH. reflexivity.
  - rewrite E, IH. reflexivity.
Qed.

Lemma capitalizeWords_length (boundary : bool) (s : string) :
  String.length (capitalizeWords boundary s) = String.length s.
Proof.
  revert boundary. induction s as [|c s IH]; intros boundary; [reflexivity|].
  cbn [capitalizeWords String.length]. now rewrite IH.
Qed.

Lemma replaceUnderscores_length (s : string) :
  String.length (replaceUnderscores s) = String.length s.
Proof. induction s as [|c s IH]; [reflexivity|]. cbn. now rewrite IH. Qed.

(** X20.  [formatStateName] is a display form: applying it to its own result
    changes nothing, the result has no underscore, and for a state that is
    not empty it has the length of the state (each character is kept, turned
    into a space, or capitalised). *)
Theorem formatStateName_display_form (state : string) :
  formatStateName (formatStateName state) = formatStateName state
  /\ noUnderscore (formatStateName state) = true
  /\ (state <> "" ->
      String.length (formatStateName state) = String.length state).
Proof.
  unfold formatStateName at 2 3 4.
  destruct state as [|c state]; [repeat split; intros H; now elim H|].
  cbn [JS.truthy JS.is_empty negb].
  set (shown := capitalizeWords true (replaceUnderscores (String c state))).
  assert (Hno : noUnderscore shown = true)
    by apply capitalizeWords_noUnderscore, replaceUnderscores_noUnderscore.
  assert (Hlen : String.length shown = String.length (String c state)).
  { unfold shown. now rewrite capitalizeWords_length, replaceUnderscores_length. }
  split; [|split; [exact Hno | intros _; exact Hlen]].
  unfold formatStateName. destruct shown as [|c' shown'] eqn:E; [discriminate Hlen|].
  cbn [JS.truthy JS.is_empty negb].
  rewrite replaceUnderscores_fixed by exact Hno.
  rewrite <- E. unfold shown. apply capitalizeWords_idempotent.
Qed.

Lemma formatStateName_display_form_witness :
  String.length (formatStateName "delta_running") = 13.
Proof.
  destruct (formatStateName_display_form "delta_running") as [_ [_ Hlen]].
  apply Hlen. discriminate.
Defined.

(** ** The exchanges of the stocks list store *)

(** X21.  The exchanges are fetched until a request succeeds and then never
    again.  While no request has succeeded, every call of [loadExchanges]
    with the metadata API registered calls [listExchanges] once more, also
    when an earlier call is still in flight.  Once a request has succeeded
    and none is in flight, no later call changes the store or reaches the
    API. *)
Theorem exchanges_fetched_until_loaded (p : StocksPage) (evs : list ExchangesEvent)
    (metadataRegistered : bool) :
  (exchangesLoaded p = false ->
   listExchangesCalls (loadExchanges true p) = S (listExchangesCalls p))
  /\ (exchangesLoaded p = true -> awaiting p = 0 ->
      exchangesRun metadataRegistered evs p = p).
Proof.
  split.
  - intros H. unfold loadExchanges. rewrite H. reflexivity.
  - intros Hloaded Hidle. induction evs as [|ev evs IH]; [reflexivity|].
    cbn [exchangesRun fold_left].
    assert (E : exchangesStep metadataRegistered ev p = p).
    { destruct ev; cbn [exchangesStep].
      - unfold loadExchanges. now rewrite Hloaded.
      - unfold loadExchanges_settle. now rewrite Hidle. }
    rewrite E. exact IH.
Qed.

Lemma exchanges_fetched_until_loaded_witness :
  let p := mkStocksPage (store stocksList_init) [] false false 0 0 in
  let loaded := loadExchanges_settle (Fulfilled Example.pageA) (loadExchanges true p) in
  listExchangesCalls (loadExchanges true p) = 1
  /\ exchangesRun true [LoadExchanges; LoadExchanges] loaded = loaded.
Proof.
  intros p loaded.
  destruct (exchanges_fetched_until_loaded p [] true) as [Hcall _].
  destruct (exchanges_fetched_until_loaded loaded [LoadExchanges; LoadExchanges] true)
    as [_ Hfrozen].
  split; [apply Hcall; reflexivity | apply Hfrozen; reflexivity].
Defined.

(** X22.  A request for the exchanges that fails after another has succeeded
    empties the dropdown for good.  When two calls of [loadExchanges] are in
    flight and the first is fulfilled and the second rejected, the [catch]
    block of the second sets [exchanges] to the empty list while
    [exchangesLoaded] stays true: the list of exchanges is empty, whatever the
    first response held, and no later call of [loadExchanges] fetches it
    again. *)
Theorem late_failure_empties_exchanges_for_good (p : StocksPage)
    (response : Response) (e : JS.Error) (later : nat) :
  exchangesLoaded p = false ->
  awaiting p = 0 ->
  let p' :=
    exchangesRun true
      [LoadExchanges; LoadExchanges;
       SettleExchanges (Fulfilled response); SettleExchanges (Rejected e)] p in
  exchanges p' = []
  /\ exchangesLoaded p' = true
  /\ exchangesRun true (repeat LoadExchanges later) p' = p'.
Proof.
  intros Hloaded Hidle p'.
  assert (H : exchanges p' = [] /\ exchangesLoaded p' = true /\ awaiting p' = 0).
  { unfold p'. cbn [exchangesRun fold_left exchangesStep].
    unfold loadExchanges at 2. rewrite Hloaded. cbn.
    unfold loadExchanges. cbn. rewrite Hloaded, Hidle. cbn. repeat split. }
  destruct H as [H1 [H2 H3]]. split; [exact H1|]. split; [exact H2|].
  induction later as [|n IH]; [reflexivity|].
  cbn [repeat exchangesRun fold_left exchangesStep].
  unfold loadExchanges at 1. rewrite H2. exact IH.
Qed.

Lemma late_failure_empties_exchanges_for_good_witness :
  let p := mkStocksPage (store stocksList_init) [] false false 0 0 in
  exchanges
    (exchangesRun true
       [LoadExchanges; LoadExchanges;
        SettleExchanges (Fulfilled Example.pageA);
        SettleExchanges (Rejected Example.serverError)] p) = [].
Proof.
  intros p.
  destruct (late_failure_empties_exchanges_for_good p Example.pageA
              Example.serverError 0 eq_refl eq_refl) as [H _].
  exact H.
Defined.

(** X23.  The exchanges share the error field of the list.  A call of
    [loadExchanges] that is not answered from the cache clears the error a
    failed list load has left, and a request for the exchanges that fails puts
    its own message there; the rows of the list and its cursors are touched by
    neither. *)
Theorem exchanges_share_the_list_error (p : StocksPage) (e : JS.Error)
    (metadataRegistered : bool) :
  exchangesLoaded p = false ->
  let called := loadExchanges metadataRegistered p in
  let failedLater := loadExchanges_settle (Rejected e) (loadExchanges true p) in
  (error (listStore called)
   = if metadataRegistered then None else Some "Metadata API store is not available")
  /\ error (listStore failedLater) = Some (messageOr e "Failed to load exchanges")
  /\ (forall q, q = called \/ q = failedLater ->
      items (listStore q) = items (listStore p)
      /\ nextCursor (listStore q) = nextCursor (listStore p)
      /\ previousCursor (listStore q) = previousCursor (listStore p)
      /\ loading (listStore q) = loading (listStore p)).
Proof.
  intros Hloaded called failedLater.
  unfold called, failedLater, loadExchanges. rewrite Hloaded.
  split; [now destruct metadataRegistered|]. split; [reflexivity|].
  intros q [-> | ->]; [destruct metadataRegistered|]; cbn; repeat split.
Qed.

Lemma exchanges_share_the_list_error_witness :
  let shown :=
    failed stocksList Example.serverError (store stocksList_init) in
  let p := mkStocksPage shown [] false false 0 0 in
  error (listStore p) = Some "Request failed with status 500"
  /\ error (listStore (loadExchanges true p)) = None.
Proof.
  intros shown p. split; [reflexivity|].
  destruct (exchanges_share_the_list_error p Example.serverError true eq_refl)
    as [H _].
  exact H.
Defined.

(** ** Debounce and several filters *)

Section SeveralKeys.

Variable h : Host.
Variable cfg : Config.
Hypothesis Hapi : apiRegistered h = true.

Lemma callback_effect (key : string) (w : World) :
  let w' := Tracked.debounceCallback h cfg key w in
  timeouts w' = timeouts w
  /\ now w' = now w
  /\ filters (store w') = filters (store w)
  /\ exists f, fetches w' = f :: fetches w /\ reloadOf h cfg w f.
Proof.
  unfold Tracked.debounceCallback.
  rewrite tracked_load_registered by exact Hapi.
  cbn. repeat split. eexists. split; [reflexivity|]. repeat split.
Qed.

Lemma fired_effect (t : Timeout) (w : World) :
  let w' := Tracked.debounceCallback h cfg (filterKey t)
              (Tracked.clearTimeout (timerId t) w) in
  timeouts w' = filter (fun t' => timerId t' ≠ timerId t) (timeouts w)
  /\ now w' = now w
  /\ filters (store w') = filters (store w)
  /\ exists f, fetches w' = f :: fetches w /\ reloadOf h cfg w f.
Proof.
  intros w'.
  destruct (callback_effect (filterKey t) (Tracked.clearTimeout (timerId t) w))
    as [H1 [H2 [H3 H4]]].
  fold w' in H1, H2, H3, H4. repeat split; assumption.
Qed.

(** A single timer fires once its time has come, and makes one fetch. *)
Lemma single_fires (t : Timeout) (w : World) (wait : nat) :
  timeouts w = [t] ->
  now w < due t ->
  due t <= now w + wait ->
  let w' := Tracked.elapse h cfg wait w in
  timeouts w' = []
  /\ filters (store w') = filters (store w)
  /\ exists f, fetches w' = f :: fetches w /\ reloadOf h cfg w f.
Proof.
  intros Hq Hlater Hwait w'. unfold w'.
  replace wait with ((due t - now w - 1) + (1 + (wait - (due t - now w)))) by lia.
  rewrite !elapse_add.
  rewrite (elapse_quiet h cfg (due t - now w - 1) w)
    by (rewrite Hq; constructor; [lia | constructor]).
  cbn [Tracked.elapse]. unfold Tracked.tick.
  cbn [timeouts with_now now]. rewrite Hq. cbn [Tracked.runDue].
  cbn [timeouts with_now now].
  assert (Edue : Nat.leb (due t) (S (now w + (due t - now w - 1))) = true)
    by (apply Nat.leb_le; lia).
  rewrite Edue, Hq. cbn [existsb]. rewrite Nat.eqb_refl. cbn [orb andb].
  set (u := with_now _ (with_now _ w)).
  destruct (fired_effect t u) as [H1 [H2 [H3 [f [H4 H5]]]]].
  set (u' := Tracked.debounceCallback h cfg (filterKey t) _) in *.
  assert (Hnone : timeouts u' = []).
  { rewrite H1. unfold u. cbn [timeouts with_now]. rewrite Hq.
    rewrite filter_cons_False by (intros Hne; now apply Hne). reflexivity. }
  rewrite elapse_quiet by (rewrite Hnone; constructor).
  cbn [timeouts with_now store fetches].
  split; [exact Hnone|]. split; [exact H3|].
  exists f. split; [exact H4 | exact H5].
Qed.

(** Two timers fire one after the other, or in the same millisecond in the
    order they were queued, and each makes a fetch. *)
Lemma two_fire (t1 t2 : Timeout) (w : World) (wait : nat) :
  timeouts w = [t1; t2] ->
  timerId t1 <> timerId t2 ->
  now w < due t1 ->
  due t1 <= due t2 ->
  due t2 <= now w + wait ->
  let w' := Tracked.elapse h cfg wait w in
  timeouts w' = []
  /\ exists f1 f2,
       fetches w' = f2 :: f1 :: fetches w /\ reloadOf h cfg w f1 /\ reloadOf h cfg w f2.
Proof.
  intros Hq Hids Hlater Horder Hwait w'. unfold w'.
  replace wait with ((due t1 - now w - 1) + (1 + (wait - (due t1 - now w)))) by lia.
  rewrite !elapse_add.
  rewrite (elapse_quiet h cfg (due t1 - now w - 1) w)
    by (rewrite Hq; repeat constructor; lia).
  cbn [Tracked.elapse]. unfold Tracked.tick.
  cbn [timeouts with_now now]. rewrite Hq. cbn [Tracked.runDue].
  cbn [timeouts with_now now].
  assert (Enow : S (now w + (due t1 - now w - 1)) = due t1) by lia.
  rewrite Enow.
  rewrite Nat.leb_refl, Hq. cbn [existsb]. rewrite Nat.eqb_refl. cbn [orb andb].
  set (u := with_now _ (with_now _ w)).
  assert (Hu : timeouts u = [t1; t2] /\ now u = due t1
               /\ fetches u = fetches w /\ filters (store u) = filters (store w)).
  { unfold u. cbn. auto. }
  destruct Hu as [Hu1 [Hu2 [Hu3 Hu4]]].
  destruct (fired_effect t1 u) as [H1 [H2 [H3 [f1 [H4 H5]]]]].
  set (uA := Tracked.debounceCallback h cfg (filterKey t1) _) in *.
  assert (HqA : timeouts uA = [t2]).
  { rewrite H1, Hu1.
    rewrite filter_cons_False by (intros Hne; now apply Hne).
    rewrite filter_cons_True by (intros E; apply Hids; now symmetry).
    reflexivity. }
  assert (Hr1 : reloadOf h cfg w f1).
  { destruct H5 as [Ha Hb]. split; [exact Ha|]. now rewrite Hb, Hu4. }
  rewrite H2, Hu2.
  destruct (Nat.leb (due t2) (due t1)) eqn:Esame.
  - rewrite HqA. cbn [existsb]. rewrite Nat.eqb_refl. cbn [orb andb].
    destruct (fired_effect t2 uA) as [J1 [J2 [J3 [f2 [J4 J5]]]]].
    set (uB := Tracked.debounceCallback h cfg (filterKey t2) _) in *.
    assert (Hnone : timeouts uB = []).
    { rewrite J1, HqA.
      rewrite filter_cons_False by (intros Hne; now apply Hne). reflexivity. }
    rewrite elapse_quiet by (rewrite Hnone; constructor).
    cbn [timeouts with_now fetches].
    split; [exact Hnone|]. exists f1, f2.
    split; [now rewrite J4, H4, Hu3|]. split; [exact Hr1|].
    destruct J5 as [Ha Hb]. split; [exact Ha|]. now rewrite Hb, H3, Hu4.
  - cbn [andb]. apply Nat.leb_gt in Esame.
    destruct (single_fires t2 uA (wait - (due t1 - now w)) HqA)
      as [K1 [K2 [f2 [K3 K4]]]]; [lia | lia |].
    split; [exact K1|]. exists f1, f2.
    split; [now rewrite K3, H4, Hu3|]. split; [exact Hr1|].
    destruct K4 as [Ha Hb]. split; [exact Ha|]. now rewrite Hb, H3, Hu4.
Qed.

(** X24.  The debounce is kept per filter, not for the store.  When a value
    that is not blank is typed into one debounced filter and, within the
    debounce window, another into a different filter, the first timer is not
    cancelled: once the delay has passed after the second call, two calls to
    the API client have been made, both for the first page and both with the
    same filters, those holding the two values. *)
Theorem debounce_is_per_filter (key1 key2 value1 value2 : string)
    (gap wait : nat) (w : World) :
  timeouts w = [] ->
  Tracked.timerOf (_debounceTimers (store w) !! key2) = None ->
  key1 <> key2 ->
  JS.trim value1 <> "" ->
  JS.trim value2 <> "" ->
  gap < debounceDelay (store w) ->
  debounceDelay (store w) <= wait ->
  let typed :=
    Tracked.handleDebouncedFilter h cfg key2 value2
      (Tracked.elapse h cfg gap (Tracked.handleDebouncedFilter h cfg key1 value1 w)) in
  let settled := Tracked.elapse h cfg wait typed in
  let sent :=
    activeFiltersOf cfg h (<[key2 := value2]> (<[key1 := value1]> (filters (store w)))) in
  fetches typed = fetches w
  /\ timeouts settled = []
  /\ exists f1 f2,
       fetches settled = f2 :: f1 :: fetches w
       /\ (fromFirstPage f1 /\ f_filters f1 = sent)
       /\ (fromFirstPage f2 /\ f_filters f2 = sent).
Proof.
  intros Hq Hfree Hkeys Hv1 Hv2 Hgap Hwait typed settled sent.
  assert (Hstart : pending key1 w (Tracked.handleDebouncedFilter h cfg key1 value1 w)
                     value1).
  { apply handle_installs; try reflexivity; [exact Hv1 | | now left].
    exists value1. now right. }
  set (w1 := Tracked.handleDebouncedFilter h cfg key1 value1 w) in *.
  destruct Hstart as [Hf [Hq1 [Hm [Hpos [Hfs Hd]]]]].
  assert (Hfree1 : Tracked.timerOf (_debounceTimers (store w1) !! key2) = None).
  { unfold w1, Tracked.handleDebouncedFilter.
    rewrite (is_empty_false _ Hv1).
    destruct (Tracked.timerOf (_debounceTimers (store w) !! key1));
      unfold Tracked.setTimeout, Tracked.setTimer, Tracked.clearTimeout; cbn;
      rewrite lookup_insert_ne by exact Hkeys;
      try rewrite lookup_insert_ne by exact Hkeys; exact Hfree. }
  assert (Hquiet : Tracked.elapse h cfg gap w1 = with_now (now w1 + gap) w1).
  { apply elapse_quiet. rewrite Hq1. constructor; [cbn; lia | constructor]. }
  set (t1 := mkTimeout (timerIds w1) (now w1 + debounceDelay (store w)) key1) in *.
  set (t2 := mkTimeout (S (timerIds w1)) (now w1 + gap + debounceDelay (store w)) key2).
  assert (Htyped : timeouts typed = [t1; t2]
                   /\ now typed = now w1 + gap
                   /\ fetches typed = fetches w
                   /\ filters (store typed)
                      = <[key2 := value2]> (<[key1 := value1]> (filters (store w)))).
  { unfold typed. rewrite Hquiet. unfold Tracked.handleDebouncedFilter.
    cbn [store with_now]. rewrite Hfree1, (is_empty_false _ Hv2).
    unfold Tracked.setTimeout, Tracked.setTimer. cbn.
    rewrite Hq1, Hf, Hfs, Hd. repeat split. }
  destruct Htyped as [T1 [T2 [T3 T4]]].
  split; [exact T3|].
  destruct (two_fire t1 t2 typed wait T1) as [Hnone [f1 [f2 [F1 [F2 F3]]]]].
  - cbn. lia.
  - cbn. lia.
  - cbn. lia.
  - cbn. lia.
  - split; [exact Hnone|]. exists f1, f2.
    unfold reloadOf in F2, F3. rewrite T4 in F2, F3. rewrite T3 in F1.
    split; [exact F1|]. split; [exact F2 | exact F3].
Qed.

End SeveralKeys.

Lemma debounce_is_per_filter_witness :
  let w := stocksList_init in
  let typed :=
    Tracked.handleDebouncedFilter Example.host stocksList
      "sector__name__icontains" "tech"
      (Tracked.elapse Example.host stocksList 100
         (Tracked.handleDebouncedFilter Example.host stocksList
            "ticker__icontains" "aa" w)) in
  length (fetches (Tracked.elapse Example.host stocksList 400 typed)) = 2.
Proof.
  intros w typed.
  assert (Hv1 : JS.trim "aa" <> "") by done.
  assert (Hv2 : JS.trim "tech" <> "") by done.
  assert (Hkeys : "ticker__icontains" <> "sector__name__icontains") by done.
  assert (Hgap : 100 < debounceDelay (store w)) by (cbn; lia).
  assert (Hwait : debounceDelay (store w) <= 400) by (cbn; lia).
  destruct (debounce_is_per_filter Example.host stocksList eq_refl
              "ticker__icontains" "sector__name__icontains" "aa" "tech" 100 400 w
              eq_refl eq_refl Hkeys Hv1 Hv2 Hgap Hwait)
    as [_ [_ [f1 [f2 [Hf _]]]]].
  fold typed in Hf. rewrite Hf. reflexivity.
Defined.

(** ** The CSRF token *)

Lemma append_cons (c : ascii) (a b : string) : String c a ++ b = String c (a ++ b).
Proof. reflexivity. Qed.

Lemma append_assoc (a b c : string) : (a ++ b) ++ c = a ++ b ++ c.
Proof.
  induction a as [|x a IH]; [reflexivity|]. rewrite !append_cons. now rewrite IH.
Qed.

Lemma cookieText_cons (c : ascii) (s : string) :
  cookieText (String c s) = true ->
  Ascii.eqb c ";" = false /\ JS.is_whitespace c = false /\ cookieText s = true.
Proof.
  unfold cookieText. cbn [list_ascii_of_string forallb].
  intros H. apply andb_true_iff in H. destruct H as [H1 H2].
  apply andb_true_iff in H1. destruct H1 as [Ha Hb].
  apply negb_true_iff in Ha, Hb. auto.
Qed.

Lemma cookieText_app (a b : string) :
  cookieText a = true -> cookieText b = true -> cookieText (a ++ b) = true.
Proof.
  induction a as [|c a IH]; intros Ha Hb; [exact Hb|].
  destruct (cookieText_cons c a Ha) as [H1 [H2 H3]].
  unfold cookieText in *. rewrite append_cons.
  cbn [list_ascii_of_string forallb].
  rewrite H1, H2. cbn [negb andb]. now apply IH.
Qed.

Lemma trimEnd_cookieText (s : string) : cookieText s = true -> JS.trimEnd s = s.
Proof.
  induction s as [|c s IH]; intros H; [reflexivity|].
  destruct (cookieText_cons c s H) as [_ [Hw Hs]].
  cbn [JS.trimEnd]. rewrite Hw, (IH Hs). reflexivity.
Qed.

Lemma trim_cookieText (s : string) : cookieText s = true -> JS.trim s = s.
Proof.
  intros H. unfold JS.trim.
  assert (E : JS.trimStart s = s).
  { destruct s as [|c s]; [reflexivity|].
    destruct (cookieText_cons c s H) as [_ [Hw _]]. cbn. now rewrite Hw. }
  rewrite E. now apply trimEnd_cookieText.
Qed.

Lemma split_nonempty (sep : ascii) (s : string) : Csrf.split sep s <> [].
Proof.
  destruct s as [|c s]; cbn; [discriminate|].
  destruct (Ascii.eqb c sep); [discriminate|].
  destruct (Csrf.split sep s); discriminate.
Qed.

Lemma split_piece (s rest : string) :
  cookieText s = true ->
  Csrf.split ";" (s ++ String ";" rest) = s :: Csrf.split ";" rest.
Proof.
  induction s as [|c s IH]; intros H; [reflexivity|].
  destruct (cookieText_cons c s H) as [Hc [_ Hs]].
  rewrite append_cons. cbn [Csrf.split]. rewrite Hc, (IH Hs). reflexivity.
Qed.

Lemma split_last (s : string) :
  cookieText s = true -> Csrf.split ";" s = [s].
Proof.
  induction s as [|c s IH]; intros H; [reflexivity|].
  destruct (cookieText_cons c s H) as [Hc [_ Hs]].
  cbn [Csrf.split]. rewrite Hc, (IH Hs). reflexivity.
Qed.

(** The entry of a well-formed cookie. *)
Lemma entry_cookieText (name value : string) :
  cookieName name = true -> cookieText value = true ->
  cookieText (name ++ "=" ++ value) = true.
Proof.
  intros Hn Hv. unfold cookieName in Hn. apply andb_true_iff in Hn.
  destruct Hn as [Hn _].
  apply cookieText_app; [exact Hn|]. now apply (cookieText_app "=").
Qed.

Lemma prefix_name (name n value : string) :
  cookieName name = true -> cookieName n = true ->
  String.prefix (name ++ "=") (n ++ "=" ++ value) = String.eqb n name.
Proof.
  unfold cookieName. revert n.
  induction name as [|a name IH]; intros n Hname Hn.
  - destruct n as [|b n].
    { change (String.prefix "=" (String "=" value) = true). cbn [String.prefix].
      destruct (ascii_dec "=" "=") as [_ | E]; [now destruct value | now elim E]. }
    change (String.prefix "=" (String b (n ++ "=" ++ value)) = false).
    cbn [String.prefix]. apply andb_true_iff in Hn. destruct Hn as [_ Hn].
    cbn [list_ascii_of_string forallb] in Hn. apply andb_true_iff in Hn.
    destruct Hn as [Hb _]. apply negb_true_iff in Hb.
    destruct (ascii_dec "=" b) as [E | E].
    + subst b. discriminate Hb.
    + reflexivity.
  - destruct n as [|b n].
    + change (String.prefix (String a (name ++ "=")) (String "=" value) = false).
      cbn [String.prefix]. apply andb_true_iff in Hname.
      destruct Hname as [_ Hname].
      cbn [list_ascii_of_string forallb] in Hname. apply andb_true_iff in Hname.
      destruct Hname as [Ha _]. apply negb_true_iff in Ha.
      destruct (ascii_dec a "=") as [E | E].
      * subst a. discriminate Ha.
      * reflexivity.
    + rewrite !append_cons. cbn [String.prefix String.eqb].
      apply andb_true_iff in Hname, Hn.
      destruct Hname as [Hn1 Hn2], Hn as [Hm1 Hm2].
      destruct (cookieText_cons a name Hn1) as [_ [_ Hn1']].
      destruct (cookieText_cons b n Hm1) as [_ [_ Hm1']].
      cbn [list_ascii_of_string forallb] in Hn2, Hm2.
      apply andb_true_iff in Hn2, Hm2. destruct Hn2 as [_ Hn2], Hm2 as [_ Hm2].
      assert (Hrec : String.prefix (name ++ "=") (n ++ "=" ++ value) = String.eqb n name).
      { apply IH; apply andb_true_iff; split; assumption. }
      destruct (ascii_dec a b) as [E | E].
      * subst b. rewrite Ascii.eqb_refl. exact Hrec.
      * assert (E' : Ascii.eqb b a = false)
          by (apply Ascii.eqb_neq; intros ->; now apply E).
        rewrite E'. reflexivity.
Qed.

Lemma substring_entry (name value : string) :
  Csrf.substring (String.length name + 1) (name ++ "=" ++ value) = value.
Proof.
  induction name as [|c name IH]; [reflexivity|].
  rewrite append_cons. cbn [String.length Nat.add Csrf.substring]. exact IH.
Qed.

Lemma findCookie_entry (name n value : string) (rest : list string) (lead : string) :
  cookieName name = true -> cookieName n = true -> cookieText value = true ->
  lead = "" \/ lead = " " ->
  Csrf.findCookie name ((lead ++ n ++ "=" ++ value) :: rest)
  = if String.eqb n name then Some value else Csrf.findCookie name rest.
Proof.
  intros Hname Hn Hv Hlead. cbn [Csrf.findCookie].
  assert (E : JS.trim (lead ++ n ++ "=" ++ value) = n ++ "=" ++ value).
  { pose proof (trim_cookieText _ (entry_cookieText n value Hn Hv)) as Ht.
    destruct Hlead as [-> | ->]; [exact Ht|].
    unfold JS.trim in *.
    change (" " ++ n ++ "=" ++ value) with (String " " (n ++ "=" ++ value)).
    cbn [JS.trimStart].
    change (JS.is_whitespace " ") with true. cbn iota. exact Ht. }
  cbn zeta. rewrite E, (prefix_name name n value Hname Hn).
  destruct (String.eqb n name) eqn:En; [|reflexivity].
  apply String.eqb_eq in En. subst n. now rewrite substring_entry.
Qed.

Lemma findCookie_jar (name : string) (jar : list (string * string)) (lead : string) :
  cookieName name = true ->
  wellFormedJar jar ->
  jar <> [] ->
  lead = "" \/ lead = " " ->
  Csrf.findCookie name (Csrf.split ";" (lead ++ documentCookie jar))
  = firstCookie name jar.
Proof.
  intros Hname Hjar. revert lead.
  induction Hjar as [|[n v] rest [Hn Hv] Hrest IH]; intros lead Hne Hlead;
    [now elim Hne|].
  cbn [fst snd] in Hn, Hv.
  assert (Hentry : cookieText (n ++ "=" ++ v) = true) by now apply entry_cookieText.
  assert (Hlead' : cookieText lead = true \/ lead = " ") by
    (destruct Hlead as [-> | ->]; [now left | now right]).
  destruct rest as [|e rest'].
  - cbn [documentCookie firstCookie].
    assert (Hs : Csrf.split ";" (lead ++ n ++ "=" ++ v) = [lead ++ n ++ "=" ++ v]).
    { destruct Hlead as [-> | ->]; [now apply split_last|].
      change (" " ++ n ++ "=" ++ v) with (String " " (n ++ "=" ++ v)).
      cbn [Csrf.split]. change (Ascii.eqb " " ";") with false. cbn iota.
      rewrite (split_last _ Hentry). reflexivity. }
    rewrite Hs, (findCookie_entry name n v [] lead Hname Hn Hv Hlead).
    reflexivity.
  - change (documentCookie ((n, v) :: e :: rest'))
      with (n ++ "=" ++ v ++ "; " ++ documentCookie (e :: rest')).
    assert (Hs : Csrf.split ";" (lead ++ n ++ "=" ++ v ++ "; " ++ documentCookie (e :: rest'))
                 = (lead ++ n ++ "=" ++ v)
                   :: Csrf.split ";" (" " ++ documentCookie (e :: rest'))).
    { assert (Hshape : forall tail,
                 n ++ "=" ++ v ++ "; " ++ tail
                 = (n ++ "=" ++ v) ++ String ";" (" " ++ tail)).
      { intros tail. rewrite !append_assoc. reflexivity. }
      rewrite Hshape.
      destruct Hlead as [-> | ->].
      - change ("" ++ (n ++ "=" ++ v) ++ String ";" (" " ++ documentCookie (e :: rest')))
          with ((n ++ "=" ++ v) ++ String ";" (" " ++ documentCookie (e :: rest'))).
        now apply split_piece.
      - change (" " ++ (n ++ "=" ++ v) ++ String ";" (" " ++ documentCookie (e :: rest')))
          with (String " " ((n ++ "=" ++ v) ++ String ";" (" " ++ documentCookie (e :: rest')))).
        cbn [Csrf.split]. change (Ascii.eqb " " ";") with false. cbn iota.
        rewrite (split_piece _ _ Hentry). reflexivity. }
    rewrite Hs, (findCookie_entry name n v _ lead Hname Hn Hv Hlead).
    cbn [firstCookie]. destruct (String.eqb n name); [reflexivity|].
    apply IH; [discriminate | now right].
Qed.

(** X25.  [getCsrfToken] reads the token back from [document.cookie].  For
    every jar of cookies whose names and values are free of semicolons and
    whitespace (and the names of equals signs), written as the browser writes
    it with ["; "] between the cookies, the result is the decoded value of the
    first cookie called csrftoken, wherever it stands in the jar; it is the
    empty string when there is none, and the error of [decodeURIComponent]
    when the value is malformed. *)
Theorem getCsrfToken_reads_the_jar
    (decodeURIComponent : string -> JS.completion string)
    (jar : list (string * string)) :
  wellFormedJar jar ->
  Csrf.getCsrfToken decodeURIComponent (documentCookie jar)
  = match firstCookie "csrftoken" jar with
    | Some encoded => decodeURIComponent encoded
    | None => JS.Normal ""
    end.
Proof.
  intros Hjar. unfold Csrf.getCsrfToken. cbn zeta.
  destruct jar as [|e jar'] eqn:Ejar.
  - reflexivity.
  - assert (Htruthy : JS.truthy (documentCookie (e :: jar')) = true).
    { destruct e as [n v]. destruct jar'; cbn [documentCookie].
      - destruct n; [reflexivity | reflexivity].
      - destruct n; [reflexivity | reflexivity]. }
    rewrite Htruthy.
    assert (Hfind : Csrf.findCookie "csrftoken"
                      (Csrf.split ";" (documentCookie (e :: jar')))
                    = firstCookie "csrftoken" (e :: jar')).
    { apply (findCookie_jar "csrftoken" (e :: jar') "" eq_refl Hjar);
        [discriminate | now left]. }
    rewrite Hfind.
    destruct (firstCookie "csrftoken" (e :: jar')) as [encoded|]; [|reflexivity].
    destruct (decodeURIComponent encoded) as [token | err]; [|reflexivity].
    cbn. destruct token; reflexivity.
Qed.

Lemma getCsrfToken_reads_the_jar_witness :
  Csrf.getCsrfToken (fun s => JS.Normal s)
    (documentCookie [("sessionid", "k3"); ("csrftoken", "abc123"); ("theme", "dark")])
  = JS.Normal "abc123".
Proof.
  apply (getCsrfToken_reads_the_jar (fun s => JS.Normal s)
           [("sessionid", "k3"); ("csrftoken", "abc123"); ("theme", "dark")]).
  repeat constructor.
Defined.
